(** * Verification of [main.py]: fetch the repository list and save it as JSON

    The script performs one [requests.get], prints the status code, the raw
    body and the decoded body, then opens [temp.json] for writing and writes
    [json.dumps(r.json(), indent=4)] to it.

    The development has three layers:
    - [Text]: Python [chars] values as lists of Unicode code points;
    - [Json]: the JSON values of Python's [json] module, the decoder
      ([json.loads], as called by [Response.json]) and the encoder
      ([json.dumps] with [indent] given);
    - [Script]: the statements of [main.py] over a world made of the
      transport, standard output, the file system and the file objects of
      the process, followed by the end of the process.

    The codec follows CPython's [json] package: the scanner in its C form
    (ASCII digits, strict hex digits, strict control characters, the check
    of the recursion depth at each container, the digit limit of [int]) and
    the encoder with [ensure_ascii], [allow_nan] and without [sort_keys].
    The library calls of the script fail where the library does: [print]
    on a text that standard output cannot encode, [open] on a path that
    cannot be opened for writing, [write] on a file that cannot grow, and
    the text written stays in the buffer of the file object until the
    buffer is full or the process ends.

    What the model takes from the environment is a parameter: the
    arithmetic of binary floats, the two limits of the interpreter, and in
    the world the paths that cannot be opened, the size a file may reach
    and the size of a buffer. What it fixes is said where it is fixed:
    standard output encodes UTF-8 and is strict, the response declares its
    encoding, a path names one file, and text mode leaves a newline as it
    is. *)

From Stdlib Require Import ZArith List Lia Bool.
From stdpp Require Import gmap strings list.
Import ListNotations.

Local Open Scope Z_scope.

(** ** Text *)

(** A Python [chars] is a sequence of code points; [ord] of a character is an
    [int], here a [Z]. *)
Abbreviation str := (list Z).

(** The code points of an ASCII literal of the source. *)
Definition txt (s : string) : str :=
  List.map (fun a => Z.of_nat (Ascii.nat_of_ascii a)) (String.list_ascii_of_string s).

Definition is_high_surrogate (c : Z) : bool := (0xD800 <=? c) && (c <=? 0xDBFF).
Definition is_low_surrogate (c : Z) : bool := (0xDC00 <=? c) && (c <=? 0xDFFF).
Definition is_surrogate (c : Z) : bool := (0xD800 <=? c) && (c <=? 0xDFFF).

(** A character of a text obtained by decoding bytes: a Unicode scalar value. *)
Definition is_scalar (c : Z) : bool :=
  (0 <=? c) && (c <=? 0x10FFFF) && negb (is_surrogate c).

Definition valid_text (s : str) : Prop := Forall (fun c => is_scalar c = true) s.

(** A text that UTF-8 cannot encode holds a surrogate. *)
Definition has_surrogate (s : str) : bool := existsb is_surrogate s.

Definition is_digit (c : Z) : bool := (48 <=? c) && (c <=? 57).

(** Why a scanner gives up: the text is not what the grammar allows
    ([JSONDecodeError]), an integer literal has more digits than [int]
    converts ([ValueError]), or the containers are nested deeper than the
    interpreter recurses ([RecursionError]). *)
Inductive failure : Type :=
| Syntax
| Digits
| Depth.

(** The three outcomes of a scanner run with a budget of steps: a result,
    a failure of the scanner, or the end of the budget, which the budget
    given by the decoder never reaches. *)
Inductive res (A : Type) : Type :=
| Ok (a : A)
| Err (e : failure)
| OutOfFuel.
Arguments Ok {A} a.
Arguments Err {A} e.
Arguments OutOfFuel {A}.

(** ** JSON values and floats *)

(** A Python [float]: the three special values the encoder tests for, and the
    finite ones, whose type is left to the float model. *)
Inductive pyfloat (F : Type) : Type :=
| FNaN
| FInf
| FNegInf
| FFinite (x : F).
Arguments FNaN {F}.
Arguments FInf {F}.
Arguments FNegInf {F}.
Arguments FFinite {F} x.

(** The objects [json.loads] builds: [None], [bool], [int], [float], [chars],
    [list] and [dict]. A [dict] keeps its keys in insertion order. *)
#[local] Unset Elimination Schemes.
Inductive json (F : Type) : Type :=
| JNull
| JBool (b : bool)
| JInt (z : Z)
| JFloat (f : pyfloat F)
| JStr (s : str)
| JList (l : list (json F))
| JDict (d : list (str * json F)).
Arguments JNull {F}.
Arguments JBool {F} b.
Arguments JInt {F} z.
Arguments JFloat {F} f.
Arguments JStr {F} s.
Arguments JList {F} l.
Arguments JDict {F} d.
#[local] Set Elimination Schemes.

(** ** Strings: [encode_basestring_ascii] and [scanstring] *)

Definition hex_digit (d : Z) : Z := if d <? 10 then 48 + d else 87 + d.

(** ['{0:04x}'.format(n)] for [0 <= n < 0x10000]. *)
Definition hex4 (n : Z) : str :=
  [hex_digit (n / 4096 mod 16); hex_digit (n / 256 mod 16);
   hex_digit (n / 16 mod 16); hex_digit (n mod 16)].

(** [ESCAPE_ASCII]: a backslash, a double quote, or anything outside the
    printable ASCII range from space to tilde. *)
Definition needs_escape (c : Z) : bool :=
  (c =? 92) || (c =? 34) || negb ((32 <=? c) && (c <=? 126)).

(** The [replace] callback of [encode_basestring_ascii]: [ESCAPE_DCT] first,
    then the [\uXXXX] form, as a surrogate pair above the basic plane. *)
Definition replace (c : Z) : str :=
  if c =? 92 then [92; 92]
  else if c =? 34 then [92; 34]
  else if c =? 8 then [92; 98]
  else if c =? 12 then [92; 102]
  else if c =? 10 then [92; 110]
  else if c =? 13 then [92; 114]
  else if c =? 9 then [92; 116]
  else if c <? 0x10000 then 92 :: 117 :: hex4 c
  else
    let n := c - 0x10000 in
    let s1 := Z.lor 0xd800 (Z.land (Z.shiftr n 10) 0x3ff) in
    let s2 := Z.lor 0xdc00 (Z.land n 0x3ff) in
    (92 :: 117 :: hex4 s1) ++ (92 :: 117 :: hex4 s2).

Definition escape_char (c : Z) : str :=
  if needs_escape c then replace c else [c].

Definition encode_basestring_ascii (s : str) : str :=
  34 :: flat_map escape_char s ++ [34].

Definition hexval (d : Z) : option Z :=
  if (48 <=? d) && (d <=? 57) then Some (d - 48)
  else if (97 <=? d) && (d <=? 102) then Some (d - 87)
  else if (65 <=? d) && (d <=? 70) then Some (d - 55)
  else None.

(** The four hex digits after [\u]: [c <<= 4; c |= digit] four times. *)
Definition decode_hex4 (s : str) : option (Z * str) :=
  match s with
  | a :: b :: c :: d :: r =>
      match hexval a, hexval b, hexval c, hexval d with
      | Some a, Some b, Some c, Some d =>
          let u := Z.lor (Z.shiftl 0 4) a in
          let u := Z.lor (Z.shiftl u 4) b in
          let u := Z.lor (Z.shiftl u 4) c in
          let u := Z.lor (Z.shiftl u 4) d in
          Some (u, r)
      | _, _, _, _ => None
      end
  | _ => None
  end.

(** [Py_UNICODE_JOIN_SURROGATES]. *)
Definition join_surrogates (hi lo : Z) : Z :=
  Z.lor (Z.shiftl (Z.land hi 0x3FF) 10) (Z.land lo 0x3FF) + 0x10000.

(** The character of a one-letter escape, [None] for an invalid one. *)
Definition simple_escape (e : Z) : option Z :=
  if e =? 34 then Some 34
  else if e =? 92 then Some 92
  else if e =? 47 then Some 47
  else if e =? 98 then Some 8
  else if e =? 102 then Some 12
  else if e =? 110 then Some 10
  else if e =? 114 then Some 13
  else if e =? 116 then Some 9
  else None.

(** A [\uXXXX] escape, the [\u] already consumed: the code unit, joined with
    a following low-surrogate escape when it is a high surrogate. A following
    escape that is not a low surrogate is left in the input. The C scanner
    looks for the second escape only when more than six characters remain;
    with six or fewer the string has no closing quote behind the escape and
    the scan fails either way. *)
Definition scan_unicode_escape (s : str) : option (Z * str) :=
  match decode_hex4 s with
  | None => None
  | Some (c, r) =>
      if is_high_surrogate c then
        match r with
        | a :: b :: r2 =>
            if (a =? 92) && (b =? 117) then
              match decode_hex4 r2 with
              | None => None
              | Some (c2, r3) =>
                  if is_low_surrogate c2 then Some (join_surrogates c c2, r3)
                  else Some (c, r)
              end
            else Some (c, r)
        | _ => Some (c, r)
        end
      else Some (c, r)
  end.

(** [scanstring] in strict mode, the opening quote already consumed: the
    characters up to the closing quote, and the input after it. *)
Definition prepend (u : Z) (r : res (str * str)) : res (str * str) :=
  match r with
  | Ok (chars, r') => Ok (u :: chars, r')
  | Err e => Err e
  | OutOfFuel => OutOfFuel
  end.

Fixpoint scanstring (fuel : nat) (s : str) : res (str * str) :=
  match fuel with
  | O => OutOfFuel
  | S fuel =>
      match s with
      | [] => Err Syntax
      | c :: s1 =>
          if c =? 34 then Ok ([], s1)
          else if c =? 92 then
            match s1 with
            | [] => Err Syntax
            | e :: s2 =>
                if e =? 117 then
                  match scan_unicode_escape s2 with
                  | None => Err Syntax
                  | Some (u, s3) => prepend u (scanstring fuel s3)
                  end
                else
                  match simple_escape e with
                  | None => Err Syntax
                  | Some u => prepend u (scanstring fuel s2)
                  end
            end
          else if c <=? 0x1f then Err Syntax
          else prepend c (scanstring fuel s1)
      end
  end.

(** ** Numbers *)

(** The longest prefix of ASCII digits, and what follows it. *)
Fixpoint span_digits (s : str) : str * str :=
  match s with
  | c :: r =>
      if is_digit c then let (ds, r') := span_digits r in (c :: ds, r')
      else ([], s)
  | [] => ([], [])
  end.

(** The parts of [_match_number]: each returns what it matched and the input
    after it. An optional minus sign. *)
Definition scan_sign (s : str) : str * str :=
  match s with
  | c :: r => if c =? 45 then ([45], r) else ([], s)
  | [] => ([], s)
  end.

(** The integer part: a digit from 1 to 9 and all digits behind it, or a
    single 0. *)
Definition scan_int_part (s : str) : option (str * str) :=
  match s with
  | [] => None
  | c :: r =>
      if (49 <=? c) && (c <=? 57) then
        let (ds, r') := span_digits r in Some (c :: ds, r')
      else if c =? 48 then Some ([48], r)
      else None
  end.

(** The fraction: a dot followed by a digit, then all digits. *)
Definition scan_frac (s : str) : str * str :=
  match s with
  | d :: x :: r =>
      if (d =? 46) && is_digit x then
        let (fs, r') := span_digits r in (d :: x :: fs, r')
      else ([], s)
  | _ => ([], s)
  end.

(** The exponent: [e] or [E], an optional sign, and digits; without a digit
    the scanner backtracks to before the [e]. *)
Definition scan_exp (s : str) : str * str :=
  match s with
  | e :: r =>
      if (e =? 101) || (e =? 69) then
        let (sg, r') :=
          match r with
          | g :: t => if (g =? 45) || (g =? 43) then ([g], t) else ([], r)
          | [] => ([], r)
          end in
        let (es, r'') := span_digits r' in
        match es with
        | [] => ([], s)
        | _ :: _ => (e :: sg ++ es, r'')
        end
      else ([], s)
  | [] => ([], s)
  end.

(** [_match_number]: whether the literal is a float (it has a fraction or an
    exponent), the matched literal, and the input after it. *)
Definition match_number (s : str) : option (bool * str * str) :=
  let (sign, s1) := scan_sign s in
  match scan_int_part s1 with
  | None => None
  | Some (ip, r1) =>
      let (frac, r2) := scan_frac r1 in
      let (exp, r3) := scan_exp r2 in
      let is_float :=
        match frac, exp with
        | [], [] => false
        | _, _ => true
        end in
      Some (is_float, sign ++ ip ++ frac ++ exp, r3)
  end.

(** [int(numstr)] on a literal matched by [match_number]. *)
Definition digits_value (ds : str) : Z :=
  fold_left (fun acc d => acc * 10 + (d - 48)) ds 0.

Definition int_of_str (s : str) : Z :=
  match s with
  | c :: r => if c =? 45 then - digits_value r else digits_value s
  | [] => 0
  end.

(** [int.__repr__]: the decimal digits, most significant first. *)
Fixpoint to_digits (fuel : nat) (n : Z) : str :=
  match fuel with
  | O => [48 + n mod 10]
  | S fuel =>
      if n <? 10 then [48 + n]
      else to_digits fuel (n / 10) ++ [48 + n mod 10]
  end.

Definition int_repr (z : Z) : str :=
  if z <? 0 then 45 :: to_digits (Z.to_nat (Z.log2 (- z))) (- z)
  else to_digits (Z.to_nat (Z.log2 z)) z.

(** ** The decoder: [json.loads] *)

Definition is_ws (c : Z) : bool :=
  (c =? 32) || (c =? 9) || (c =? 10) || (c =? 13).

Fixpoint skip_ws (s : str) : str :=
  match s with
  | c :: r => if is_ws c then skip_ws r else s
  | [] => []
  end.

(** [s[idx:idx+len(p)] == p]: the input after the prefix [p]. *)
Fixpoint strip_prefix (p s : str) : option str :=
  match p, s with
  | [], _ => Some s
  | a :: p', b :: s' => if a =? b then strip_prefix p' s' else None
  | _ :: _, [] => None
  end.

(** [d[k] = v] on an insertion-ordered dict: an existing key keeps its
    place and takes the new value, a new key goes last. *)
Fixpoint dict_set {V : Type} (k : str) (v : V) (d : list (str * V)) : list (str * V) :=
  match d with
  | [] => [(k, v)]
  | (k', v') :: d' =>
      if decide (k = k') then (k', v) :: d'
      else (k', v') :: dict_set k v d'
  end.

Definition fuel_for (s : str) : nat := (2 * length s + 2)%nat.

(** The float model: the finite floats, [float(numstr)] on a matched
    literal, and [float.__repr__]. The decoder and the encoder use nothing
    else of floating-point arithmetic. *)
Class FloatModel : Type := {
  finite : Type;
  float_of_str : str -> pyfloat finite;
  float_repr : finite -> str
}.

(** The two limits of the interpreter the decoder meets:
    [sys.get_int_max_str_digits()], where 0 is no limit, and the number of
    containers, one inside the other, that the scanner may enter before the
    recursion limit is reached from where [r.json()] calls it. *)
Class Limits : Type := {
  int_max_str_digits : nat;
  max_nesting : nat
}.

(** [_PY_LONG_MAX_STR_DIGITS_THRESHOLD]: below it [int] does not look at
    the limit. *)
Definition str_digits_check_threshold : nat := 640.

(** The digits of an integer literal, its sign apart. *)
Definition int_digits (numstr : str) : nat :=
  match numstr with
  | c :: r => if c =? 45 then length r else length numstr
  | [] => O
  end.

(** Attaching the rest of the input to a converted value. *)
Definition and_rest {A : Type} (x : res A) (r : str) : res (A * str) :=
  match x with
  | Ok a => Ok (a, r)
  | Err e => Err e
  | OutOfFuel => OutOfFuel
  end.

Section Codec.

Context {FM : FloatModel} {LM : Limits}.

(** The check of [int(numstr)] on the number of digits. *)
Definition too_many_digits (n : nat) : bool :=
  (str_digits_check_threshold <? n)%nat
  && (0 <? int_max_str_digits)%nat
  && (int_max_str_digits <? n)%nat.

(** The value of a matched number literal: [float(numstr)] when it has a
    fraction or an exponent, [int(numstr)] otherwise, which raises on a
    literal of too many digits. *)
Definition number_value (is_float : bool) (numstr : str) : res (json finite) :=
  if is_float then Ok (JFloat (float_of_str numstr))
  else if too_many_digits (int_digits numstr) then Err Digits
  else Ok (JInt (int_of_str numstr)).

(** The named constants, then a number. *)
Definition scan_atom (s : str) : res (json finite * str) :=
  match strip_prefix (txt "null") s with
  | Some r => Ok (JNull, r)
  | None =>
  match strip_prefix (txt "true") s with
  | Some r => Ok (JBool true, r)
  | None =>
  match strip_prefix (txt "false") s with
  | Some r => Ok (JBool false, r)
  | None =>
  match strip_prefix (txt "NaN") s with
  | Some r => Ok (JFloat FNaN, r)
  | None =>
  match strip_prefix (txt "Infinity") s with
  | Some r => Ok (JFloat FInf, r)
  | None =>
  match strip_prefix (txt "-Infinity") s with
  | Some r => Ok (JFloat FNegInf, r)
  | None =>
  match match_number s with
  | Some (is_float, numstr, r) => and_rest (number_value is_float numstr) r
  | None => Err Syntax
  end end end end end end end.

(** [scan_once], with [_parse_object] and [_parse_array]: the loops are
    entered after the opening bracket and the whitespace behind it, on a
    non-empty container. [depth] is the number of containers that may
    still be entered: [Py_EnterRecursiveCall] comes first at an opening
    bracket, before anything of the container is read. *)
Fixpoint scan_once (fuel depth : nat) (s : str) : res (json finite * str) :=
  match fuel with
  | O => OutOfFuel
  | S fuel =>
      match s with
      | [] => Err Syntax
      | c :: r =>
          if c =? 34 then
            match scanstring (S (length r)) r with
            | Ok (chars, r') => Ok (JStr chars, r')
            | Err e => Err e
            | OutOfFuel => OutOfFuel
            end
          else if c =? 123 then
            match depth with
            | O => Err Depth
            | S depth =>
                match skip_ws r with
                | c1 :: r1 =>
                    if c1 =? 125 then Ok (JDict [], r1)
                    else parse_object fuel depth [] (c1 :: r1)
                | [] => Err Syntax
                end
            end
          else if c =? 91 then
            match depth with
            | O => Err Depth
            | S depth =>
                match skip_ws r with
                | c1 :: r1 =>
                    if c1 =? 93 then Ok (JList [], r1)
                    else parse_array fuel depth [] (c1 :: r1)
                | [] => Err Syntax
                end
            end
          else scan_atom s
      end
  end

with parse_object (fuel depth : nat) (d : list (str * json finite)) (s : str)
  : res (json finite * str) :=
  match fuel with
  | O => OutOfFuel
  | S fuel =>
      match s with
      | [] => Err Syntax
      | c :: r =>
          if c =? 34 then
            match scanstring (S (length r)) r with
            | Ok (key, r1) =>
                match skip_ws r1 with
                | c1 :: r2 =>
                    if c1 =? 58 then
                      match scan_once fuel depth (skip_ws r2) with
                      | Ok (val, r3) =>
                          let d' := dict_set key val d in
                          match skip_ws r3 with
                          | c2 :: r4 =>
                              if c2 =? 125 then Ok (JDict d', r4)
                              else if c2 =? 44 then
                                parse_object fuel depth d' (skip_ws r4)
                              else Err Syntax
                          | [] => Err Syntax
                          end
                      | Err e => Err e
                      | OutOfFuel => OutOfFuel
                      end
                    else Err Syntax
                | [] => Err Syntax
                end
            | Err e => Err e
            | OutOfFuel => OutOfFuel
            end
          else Err Syntax
      end
  end

with parse_array (fuel depth : nat) (l : list (json finite)) (s : str)
  : res (json finite * str) :=
  match fuel with
  | O => OutOfFuel
  | S fuel =>
      match scan_once fuel depth s with
      | Ok (val, r1) =>
          let l' := l ++ [val] in
          match skip_ws r1 with
          | c :: r2 =>
              if c =? 93 then Ok (JList l', r2)
              else if c =? 44 then parse_array fuel depth l' (skip_ws r2)
              else Err Syntax
          | [] => Err Syntax
          end
      | Err e => Err e
      | OutOfFuel => OutOfFuel
      end
  end.

(** [JSONDecoder.decode]: leading whitespace, one value, trailing
    whitespace, end of input. *)
Definition decode (s : str) : res (json finite) :=
  match scan_once (fuel_for s) max_nesting (skip_ws s) with
  | Ok (v, r) =>
      match skip_ws r with
      | [] => Ok v
      | _ :: _ => Err Syntax
      end
  | Err e => Err e
  | OutOfFuel => OutOfFuel
  end.

(** [json.loads] as a partial function: the value it returns, [None] when
    it raises. *)
Definition loads (s : str) : option (json finite) :=
  match decode s with
  | Ok v => Some v
  | Err _ => None
  | OutOfFuel => None
  end.

(** ** The encoder: [json.dumps] with [indent] *)

Definition floatstr (f : pyfloat finite) : str :=
  match f with
  | FNaN => txt "NaN"
  | FInf => txt "Infinity"
  | FNegInf => txt "-Infinity"
  | FFinite x => float_repr x
  end.

(** ['\n' + _indent * _current_indent_level] with [_indent = ' ' * indent]. *)
Definition newline_indent (indent lvl : nat) : str :=
  10 :: repeat 32 (indent * lvl)%nat.

(** The chunks of a container body: the first item, then each further item
    behind the separator. *)
Definition join (sep : str) (items : list str) : str :=
  match items with
  | [] => []
  | x :: xs => x ++ flat_map (fun y => sep ++ y) xs
  end.

(** [_iterencode] of [_make_iterencode], its chunks concatenated; the item
    separator is [','] and the key separator [': ']. *)
Fixpoint iterencode (indent : nat) (o : json finite) (lvl : nat) : str :=
  match o with
  | JStr s => encode_basestring_ascii s
  | JNull => txt "null"
  | JBool true => txt "true"
  | JBool false => txt "false"
  | JInt z => int_repr z
  | JFloat f => floatstr f
  | JList [] => txt "[]"
  | JList l =>
      [91] ++ newline_indent indent (S lvl)
      ++ join (44 :: newline_indent indent (S lvl))
           (List.map (fun v => iterencode indent v (S lvl)) l)
      ++ newline_indent indent lvl ++ [93]
  | JDict [] => txt "{}"
  | JDict d =>
      [123] ++ newline_indent indent (S lvl)
      ++ join (44 :: newline_indent indent (S lvl))
           (List.map (fun kv => let '(k, v) := kv in
                        encode_basestring_ascii k ++ [58; 32]
                        ++ iterencode indent v (S lvl)) d)
      ++ newline_indent indent lvl ++ [125]
  end.

Definition dumps (o : json finite) (indent : nat) : str := iterencode indent o 0.

End Codec.

(** ** The script *)

(** A failure raised by [requests.get] before any response exists. *)
Inductive transport_failure : Type :=
| ConnectionRefused
| Timeout
| DNSFailure
| TLSFailure.

(** The exceptions of a run; none is caught. In Python [JSONDecodeError]
    and [UnicodeEncodeError] are kinds of [ValueError]; here [ValueError]
    is the plain one, raised by [int] and by a write to a closed file. *)
Inductive exn : Type :=
| RequestException (k : transport_failure)
| JSONDecodeError
| ValueError
| RecursionError
| UnicodeEncodeError
| OSError.

(** The exception of each failure of the decoder. *)
Definition raised (e : failure) : exn :=
  match e with
  | Syntax => JSONDecodeError
  | Digits => ValueError
  | Depth => RecursionError
  end.

Record request : Type := {
  req_method : string;
  req_url : string;
  req_headers : gmap string string
}.

(** The response object: the status and the stored body text. *)
Record response : Type := {
  status_code : Z;
  text : str
}.

(** A file object made by [open]: the path it was opened on, whether it
    has been closed, and the text written to it that has not reached the
    file yet. *)
Record file_object : Type := {
  name : string;
  closed : bool;
  buffer : str
}.

Definition headers : gmap string string :=
  <["api-token" := String.EmptyString]> (<["Accept" := "application/json"]> ∅).

Definition provider : string := "gh".
Definition remoteOrganizationName : string := "aiden-perkins".

(** The f-string of the request: both values are inserted as they are. *)
Definition url_of (provider remoteOrganizationName : string) : string :=
  "https://app.codacy.com/api/v3/analysis/organizations/" +:+ provider +:+ "/"
  +:+ remoteOrganizationName +:+ "/repositories".

(** The one request of the script. *)
Definition the_request : request :=
  {| req_method := "GET";
     req_url := url_of provider remoteOrganizationName;
     req_headers := headers |}.

(** How many of [n] characters a raw write puts behind a file of [size]
    characters: all of them, or as many as the file may still grow by. *)
Definition accepted (cap : option nat) (size n : nat) : nat :=
  match cap with
  | None => n
  | Some c => Nat.min n (c - size)
  end.

(** Flushing a file object: the buffer goes behind what the file holds, as
    far as the file may grow; what did not go stays in the buffer. The
    result is the disk, the file object, and whether all of the buffer
    went. With nothing in the buffer nothing is done. *)
Definition flush (cap : option nat) (d : gmap string str) (fo : file_object)
  : gmap string str * file_object * bool :=
  match buffer fo with
  | [] => (d, fo, true)
  | _ :: _ =>
      let old := default [] (d !! name fo) in
      let k := accepted cap (length old) (length (buffer fo)) in
      (<[name fo := old ++ take k (buffer fo)]> d,
       {| name := name fo; closed := closed fo; buffer := drop k (buffer fo) |},
       (length (buffer fo) <=? k)%nat)
  end.

Section Script.

Context {FM : FloatModel} {LM : Limits}.

(** An object handed to [print]; the line written is its [str()] and a
    newline, represented by the object. *)
Inductive printed : Type :=
| PInt (z : Z)
| PStr (s : str)
| PJson (v : json finite).

(** Whether [str(x)] holds a character that standard output, which encodes
    UTF-8 and is strict, cannot encode: a surrogate. The [str()] of an
    [int] is digits; that of a [chars] is the text itself; every other
    decoded value is shown by [repr], which writes the surrogates of the
    strings inside it as escapes. *)
Definition unencodable (x : printed) : bool :=
  match x with
  | PInt _ => false
  | PStr s => has_surrogate s
  | PJson (JStr s) => has_surrogate s
  | PJson _ => false
  end.

(** What the script acts on. Of the process: standard output, the file
    objects by handle, and the requests issued. Of the machine: the files
    by path, a path standing for the file it names, and a file holding
    text, newlines as written (what the script writes is ASCII, so the
    encoding of the file plays no part); the paths that cannot be opened
    for writing (a directory, a file or directory without permission);
    the size a file may reach, if bounded (a full device, a quota); and
    the length from which the text of a file object is written through
    rather than kept in its buffer. *)
Record world : Type := {
  stdout : list printed;
  fs : gmap string str;
  files : list file_object;
  sent : list request;
  locked : string -> bool;
  capacity : option nat;
  buffer_size : nat
}.

(** A statement either raises or returns, and leaves a world. *)
Definition M (A : Type) : Type := world -> (exn + A) * world.

Definition ret {A : Type} (a : A) : M A := fun w => (inr a, w).

Definition bind {A B : Type} (m : M A) (k : A -> M B) : M B :=
  fun w =>
    match m w with
    | (inl e, w') => (inl e, w')
    | (inr a, w') => k a w'
    end.

Definition raise {A : Type} (e : exn) : M A := fun w => (inl e, w).

Notation "x <- m ;; k" := (bind m (fun x => k))
  (at level 62, m at next level, right associativity, only parsing).
Notation "m ;;; k" := (bind m (fun _ => k))
  (at level 62, right associativity, only parsing).

(** The network as the script meets it: a failure or a response. *)
Variable net : request -> transport_failure + response.

(** [requests.get(url, headers=headers)]. *)
Definition requests_get (url : string) (hs : gmap string string) : M response :=
  fun w =>
    let rq := {| req_method := "GET"; req_url := url; req_headers := hs |} in
    let w' := {| stdout := stdout w; fs := fs w; files := files w;
                 sent := sent w ++ [rq]; locked := locked w;
                 capacity := capacity w; buffer_size := buffer_size w |} in
    match net rq with
    | inl k => (inl (RequestException k), w')
    | inr r => (inr r, w')
    end.

(** [print(x)]: the whole line is encoded before any of it is written, so
    a line that cannot be encoded raises and prints nothing. Standard
    output takes every line that can be encoded: it is not closed and its
    reader has not gone. *)
Definition print (x : printed) : M unit :=
  fun w =>
    if unencodable x then (inl UnicodeEncodeError, w)
    else
      (inr tt, {| stdout := stdout w ++ [x]; fs := fs w; files := files w;
                  sent := sent w; locked := locked w;
                  capacity := capacity w; buffer_size := buffer_size w |}).

(** [r.json()]: the stored text decoded anew at each call, the text
    [r.text] shows, as it is for a response that declares its encoding.
    The last case is never met: see [decode_total]. *)
Definition response_json (r : response) : M (json finite) :=
  match decode (text r) with
  | Ok v => ret v
  | Err e => raise (raised e)
  | OutOfFuel => raise RecursionError
  end.

(** [open(path, 'w')]: on a path that cannot be opened it raises and
    leaves the file as it is; otherwise the file is created or emptied,
    and a new file object is returned, here its handle. *)
Definition open (path : string) : M nat :=
  fun w =>
    if locked w path then (inl OSError, w)
    else
      (inr (length (files w)),
       {| stdout := stdout w; fs := <[path := []]> (fs w);
          files := files w ++ [{| name := path; closed := false; buffer := [] |}];
          sent := sent w; locked := locked w;
          capacity := capacity w; buffer_size := buffer_size w |}).

(** [f.write(s)]: the text goes behind the buffer of the file object; a
    buffer that has reached its size is flushed, and the write raises when
    the file cannot take all of it. Writing to a closed file raises. *)
Definition write (f : nat) (s : str) : M unit :=
  fun w =>
    match files w !! f with
    | Some fo =>
        if closed fo then (inl ValueError, w)
        else
          let fo1 := {| name := name fo; closed := false;
                        buffer := buffer fo ++ s |} in
          if (length (buffer fo1) <? buffer_size w)%nat then
            (inr tt, {| stdout := stdout w; fs := fs w;
                        files := <[f := fo1]> (files w);
                        sent := sent w; locked := locked w;
                        capacity := capacity w; buffer_size := buffer_size w |})
          else
            let '(d, fo2, ok) := flush (capacity w) (fs w) fo1 in
            (if ok then inr tt else inl OSError,
             {| stdout := stdout w; fs := d;
                files := <[f := fo2]> (files w);
                sent := sent w; locked := locked w;
                capacity := capacity w; buffer_size := buffer_size w |})
    | None => (inl ValueError, w)
    end.

(** The statements of [main.py], in order. [repr] in the third [print]
    and [json.dumps] recurse on the value as the decoder did, from a
    shallower call stack than that of the decoder inside [r.json()]: on a
    value the decoder has returned neither reaches the recursion limit,
    and they are total here. *)
Definition main : M unit :=
  r <- requests_get (url_of provider remoteOrganizationName) headers ;;
  print (PInt (status_code r)) ;;;
  print (PStr (text r)) ;;;
  v <- response_json r ;;
  print (PJson v) ;;;
  f <- open "temp.json" ;;
  v' <- response_json r ;;
  write f (dumps v' 4).

(** The end of the process, after the last statement or after the
    exception: the script closes nothing, so each file object still open
    is flushed and closed by the interpreter, in the order of creation. An
    error of such a flush is dropped: it changes neither the exit status
    nor what the file has taken. *)
Definition finalize (w : world) : world :=
  {| stdout := stdout w;
     fs := fold_left
             (fun d fo => if closed fo then d else (flush (capacity w) d fo).1.1)
             (files w) (fs w);
     files := List.map (fun fo => {| name := name fo; closed := true; buffer := [] |})
                (files w);
     sent := sent w; locked := locked w;
     capacity := capacity w; buffer_size := buffer_size w |}.

(** A new process on a given disk: nothing printed, no file object, no
    request yet; every path can be opened, files grow without bound, and a
    file object keeps a text shorter than [io.DEFAULT_BUFFER_SIZE] in its
    buffer. *)
Definition new_process (disk : gmap string str) : world :=
  {| stdout := []; fs := disk; files := []; sent := [];
     locked := fun _ => false; capacity := None; buffer_size := 8 * 1024 |}.

(** The next process on the machine [w] is left in: the disk and its
    limits as they are, and a process as new. *)
Definition next_process (w : world) : world :=
  {| stdout := []; fs := fs w; files := []; sent := [];
     locked := locked w; capacity := capacity w; buffer_size := buffer_size w |}.

(** The exit status of the process: 0 when the last statement returns, 1
    when an exception reaches the top level. *)
Definition exit_code (o : exn + unit) : Z :=
  match o with
  | inr _ => 0
  | inl _ => 1
  end.

(** What a run needs from its environment to reach the end of its last
    statement, for a response [r] that decodes to [v]: the text and the
    value can be encoded for standard output, [temp.json] can be opened
    for writing, and the file may grow to the size of the text written. *)
Definition unhindered (w : world) (r : response) (v : json finite) : Prop :=
  has_surrogate (text r) = false
  /\ unencodable (PJson v) = false
  /\ locked w "temp.json" = false
  /\ accepted (capacity w) 0 (length (dumps v 4)) = length (dumps v 4).

End Script.

(** ** Decoded values *)

(** A code point of a Python [str]. *)
Definition in_range (c : Z) : Prop := 0 <= c <= 0x10FFFF.

(** No high surrogate is directly followed by a low surrogate. *)
Fixpoint pair_free (s : str) : Prop :=
  match s with
  | a :: t =>
      match t with
      | b :: _ => ~ (is_high_surrogate a = true /\ is_low_surrogate b = true)
      | [] => True
      end /\ pair_free t
  | [] => True
  end.

Definition str_ok (s : str) : Prop := Forall in_range s /\ pair_free s.

(** The shape of a value the decoder returns on a text of scalar values:
    strings are [str_ok] and the keys of a dict are distinct. *)
#[local] Unset Elimination Schemes.
Inductive wf {F : Type} : json F -> Prop :=
| wf_null : wf JNull
| wf_bool b : wf (JBool b)
| wf_int z : wf (JInt z)
| wf_float f : wf (JFloat f)
| wf_str s : str_ok s -> wf (JStr s)
| wf_list l : Forall wf l -> wf (JList l)
| wf_dict d :
    NoDup (List.map fst d) ->
    Forall (fun kv => str_ok (fst kv) /\ wf (snd kv)) d ->
    wf (JDict d).
#[local] Set Elimination Schemes.

(** An integer whose [repr] the check of [int] lets through. *)
Definition int_ok {LM : Limits} (z : Z) : Prop :=
  too_many_digits (int_digits (int_repr z)) = false.

(** A value within the limits of the interpreter, for a given number of
    containers that may be entered: its integers are [int_ok] and its
    containers are nested no deeper than that number. *)
#[local] Unset Elimination Schemes.
Inductive within {F : Type} {LM : Limits} : nat -> json F -> Prop :=
| within_null n : within n JNull
| within_bool n b : within n (JBool b)
| within_int n z : int_ok z -> within n (JInt z)
| within_float n f : within n (JFloat f)
| within_str n s : within n (JStr s)
| within_list n l : Forall (within n) l -> within (S n) (JList l)
| within_dict n d :
    Forall (fun kv => within n (snd kv)) d -> within (S n) (JDict d).
#[local] Set Elimination Schemes.

(** Python's [==] between a decoded value and a second decoding of the
    same text: it holds unless the value has a NaN in it, which is equal to
    no float, itself included. *)
Fixpoint equal_to_copy {F : Type} (v : json F) : bool :=
  match v with
  | JFloat FNaN => false
  | JList l => forallb equal_to_copy l
  | JDict d => forallb (fun kv => equal_to_copy (snd kv)) d
  | _ => true
  end.

(** ** A float model and limits to run the codec on *)

(** The floats with a whole value: [repr] writes the integer and [.0], and
    [float] keeps the integer part of a literal. It stands in for the
    binary floats where a run needs a concrete model. *)
Definition whole_of_str (s : str) : pyfloat Z :=
  let (sg, s1) := scan_sign s in
  match scan_int_part s1 with
  | Some (ip, _) => FFinite (int_of_str (sg ++ ip))
  | None => FNaN
  end.

Definition whole_repr (z : Z) : str := int_repr z ++ [46; 48].

#[export] Instance whole : FloatModel :=
  {| finite := Z; float_of_str := whole_of_str; float_repr := whole_repr |}.

(** The limits of an interpreter as installed: 4300 digits, and a depth a
    few frames below the recursion limit of 1000. *)
#[export] Instance installed : Limits :=
  {| int_max_str_digits := 4300; max_nesting := 993 |}.

(** A response body and the transports of the examples. *)
Definition body_ok : str :=
  [123; 34; 100; 97; 116; 97; 34; 58; 91; 123; 34; 105; 100; 34; 58; 49; 44;
   34; 110; 97; 109; 101; 34; 58; 34; 114; 101; 112; 111; 45; 97; 34; 125; 93; 125].

(** The value [body_ok] decodes to. *)
Definition value_ok : json Z :=
  JDict [([100; 97; 116; 97],
          JList [JDict [([105; 100], JInt 1);
                        ([110; 97; 109; 101], JStr [114; 101; 112; 111; 45; 97])]])].

Definition body_bad : str := txt "not json".

Definition net_ok (rq : request) : transport_failure + response :=
  inr {| status_code := 200; text := body_ok |}.




Definition net_bad (rq : request) : transport_failure + response :=
  inr {| status_code := 200; text := body_bad |}.

Definition net_down (rq : request) : transport_failure + response :=
  inl ConnectionRefused.

(** A disk on which an earlier run has left its [temp.json]. *)
Definition disk_old : gmap string str := {["temp.json" := body_ok]}.

(** A response whose body is what a run on [body_ok] writes. *)
Definition response_again : response :=
  {| status_code := 200; text := dumps (FM:=whole) value_ok 4 |}.

Definition net_again (rq : request) : transport_failure + response :=
  inr response_again.

(** [body_ok] between a leading space and a trailing newline. *)
Definition body_padded : str := [32] ++ body_ok ++ [13; 10].

Definition net_padded (rq : request) : transport_failure + response :=
  inr {| status_code := 200; text := body_padded |}.

(** A response with a body of whitespace only. *)
Definition net_blank (rq : request) : transport_failure + response :=
  inr {| status_code := 204; text := [32; 10] |}.

(** A body of eight ASCII characters, valid JSON: a string made of one
    escape, that of the lone surrogate U+D800. *)
Definition body_lone : str := [34; 92; 117; 100; 56; 48; 48; 34].

Definition net_lone (rq : request) : transport_failure + response :=
  inr {| status_code := 200; text := body_lone |}.


(** A body that is not JSON and that the decoder accepts: the constant
    [NaN]. *)
Definition body_nan : str := txt "NaN".

Definition net_nan (rq : request) : transport_failure + response :=
  inr {| status_code := 200; text := body_nan |}.

(** The characters a JSON text can begin with, whitespace apart (RFC 8259):
    a bracket, a brace, a quote, a minus sign, a digit, or the first letter
    of [true], [false] and [null]. *)
Definition json_first (c : Z) : bool :=
  (c =? 91) || (c =? 123) || (c =? 34) || (c =? 45) || is_digit c
  || (c =? 116) || (c =? 102) || (c =? 110).

(** A machine on which [temp.json] cannot be opened for writing. *)
Definition world_locked (disk : gmap string str) : world (FM:=whole) :=
  {| stdout := []; fs := disk; files := []; sent := [];
     locked := fun p => bool_decide (p = "temp.json");
     capacity := None; buffer_size := 8 * 1024 |}.

(** A machine on which a file holds ten characters at most, and a file
    object writes through at once. *)
Definition world_full (disk : gmap string str) : world (FM:=whole) :=
  {| stdout := []; fs := disk; files := []; sent := [];
     locked := fun _ => false; capacity := Some 10%nat; buffer_size := 0 |}.

(** ** Auxiliary notions of the proofs *)

(** The two facts about [float.__repr__] the round trip rests on: it writes
    a float literal of the JSON grammar, which the number scanner matches
    whole, and [float] reads that literal back to the same float. *)
Class FloatLaws (FM : FloatModel) : Prop := {
  float_repr_literal :
    forall x : finite, match_number (float_repr x) = Some (true, float_repr x, []);
  float_repr_inverse :
    forall x : finite, float_of_str (float_repr x) = FFinite x
}.

(** What may follow a lone [\uXXXX] escape of a high surrogate: anything but
    the escape of a low surrogate. *)
Definition follows_ok (t : str) : Prop :=
  match t with
  | a :: b :: r2 =>
      (a =? 92) && (b =? 117) = true ->
      exists c2 r3, decode_hex4 r2 = Some (c2, r3) /\ is_low_surrogate c2 = false
  | _ => True
  end.

(** What the encoder writes behind a value: nothing, a comma or a newline. *)
Definition delimited (rest : str) : Prop :=
  match rest with
  | [] => True
  | c :: _ => c = 44 \/ c = 10
  end.

(** A character that can begin an encoded value: no whitespace and no
    closing bracket. *)
Definition value_head (c : Z) : Prop :=
  is_ws c = false /\ c <> 93 /\ c <> 125.

(** The statement proved by induction on the value: behind a delimiter,
    with a budget of at least the length of the encoding and the value
    within the depth allowed, one [scan_once] returns the value and stops
    at the delimiter. *)
Definition reads_back {FM : FloatModel} {LM : Limits} (v : json finite) : Prop :=
  wf v ->
  forall (indent lvl : nat) (rest : str) (fuel depth : nat),
    within depth v ->
    delimited rest ->
    (length (iterencode indent v lvl) <= fuel)%nat ->
    scan_once fuel depth (iterencode indent v lvl ++ rest) = Ok (v, rest).

(** A character of a pure-ASCII text file: a newline or a printable
    character. *)
Definition is_plain (c : Z) : bool :=
  (c =? 10) || ((32 <=? c) && (c <=? 126)).

(** All the characters of a text are whitespace of the JSON grammar. *)
Definition all_ws (s : str) : Prop := Forall (fun c => is_ws c = true) s.

(** A text behind a number literal that the number scanner does not read
    into: it is empty or begins with none of the characters of a number. *)
Definition number_stop (rest : str) : Prop :=
  match rest with
  | [] => True
  | c :: _ =>
      is_digit c = false /\ c <> 46 /\ c <> 101 /\ c <> 69 /\ c <> 45 /\ c <> 43
  end.

(** The world of a run that has issued its request and printed [xs], and
    has not opened a file. *)
Definition after {FM : FloatModel} (w : world) (xs : list printed) : world :=
  {| stdout := stdout w ++ xs; fs := fs w; files := files w;
     sent := sent w ++ [the_request]; locked := locked w;
     capacity := capacity w; buffer_size := buffer_size w |}.

(** The world of a run that has opened [temp.json]: the file holds
    [content], whatever it held before, and the new file object, still
    open, holds [pending]. *)
Definition written {FM : FloatModel} (w : world) (xs : list printed)
           (content pending : str) : world :=
  {| stdout := stdout w ++ xs; fs := <["temp.json" := content]> (fs w);
     files := files w ++ [{| name := "temp.json"; closed := false;
                             buffer := pending |}];
     sent := sent w ++ [the_request]; locked := locked w;
     capacity := capacity w; buffer_size := buffer_size w |}.

(** What one [write] of [s] to a file object just opened leaves in the
    file and in the buffer, and how it ends. *)
Definition on_disk {FM : FloatModel} (w : world) (s : str) : str :=
  if (length s <? buffer_size w)%nat then []
  else take (accepted (capacity w) 0 (length s)) s.

Definition in_buffer {FM : FloatModel} (w : world) (s : str) : str :=
  if (length s <? buffer_size w)%nat then s
  else drop (accepted (capacity w) 0 (length s)) s.

Definition write_result {FM : FloatModel} (w : world) (s : str) : exn + unit :=
  if (length s <? buffer_size w)%nat then inr tt
  else if (length s <=? accepted (capacity w) 0 (length s))%nat then inr tt
       else inl OSError.

(** The six ways a run ends, each with the result and the world it
    leaves: at the request, at the [print] of the text, at the first
    [r.json()], at the [print] of the value, at [open], and at [write],
    which raises or returns. *)
Inductive run_view {FM : FloatModel} {LM : Limits}
          (net : request -> transport_failure + response) (w : world)
  : (exn + unit) * world -> Prop :=
| run_transport k :
    net the_request = inl k ->
    run_view net w (inl (RequestException k), after w [])
| run_text r :
    net the_request = inr r -> has_surrogate (text r) = true ->
    run_view net w (inl UnicodeEncodeError, after w [PInt (status_code r)])
| run_decode r e :
    net the_request = inr r -> has_surrogate (text r) = false ->
    decode (text r) = Err e ->
    run_view net w
      (inl (raised e), after w [PInt (status_code r); PStr (text r)])
| run_value r v :
    net the_request = inr r -> has_surrogate (text r) = false ->
    decode (text r) = Ok v -> unencodable (PJson v) = true ->
    run_view net w
      (inl UnicodeEncodeError, after w [PInt (status_code r); PStr (text r)])
| run_locked r v :
    net the_request = inr r -> has_surrogate (text r) = false ->
    decode (text r) = Ok v -> unencodable (PJson v) = false ->
    locked w "temp.json" = true ->
    run_view net w
      (inl OSError, after w [PInt (status_code r); PStr (text r); PJson v])
| run_write r v :
    net the_request = inr r -> has_surrogate (text r) = false ->
    decode (text r) = Ok v -> unencodable (PJson v) = false ->
    locked w "temp.json" = false ->
    run_view net w
      (write_result w (dumps v 4),
       written w [PInt (status_code r); PStr (text r); PJson v]
         (on_disk w (dumps v 4)) (in_buffer w (dumps v 4))).

(** * Properties *)

(** ** Comparisons and bit arithmetic *)

Ltac zbool :=
  repeat match goal with
    | |- context [?a =? ?b] => destruct (Z.eqb_spec a b); try lia
    | |- context [?a <=? ?b] => destruct (Z.leb_spec a b); try lia
    | |- context [?a <? ?b] => destruct (Z.ltb_spec a b); try lia
    end.

Ltac zbool_in H :=
  repeat match type of H with
    | context [?a =? ?b] => destruct (Z.eqb_spec a b); try lia
    | context [?a <=? ?b] => destruct (Z.leb_spec a b); try lia
    | context [?a <? ?b] => destruct (Z.ltb_spec a b); try lia
    end.

Ltac zdiv := Z.div_mod_to_equations; lia.

Lemma lor_disjoint_add (a b k : Z) :
  0 <= k -> 0 <= b < 2 ^ k -> Z.lor (a * 2 ^ k) b = a * 2 ^ k + b.
Proof.
  intros Hk Hb.
  assert (Hland : Z.land (a * 2 ^ k) b = 0).
  { apply Z.bits_inj'. intros m Hm.
    rewrite Z.land_spec, Z.bits_0.
    destruct (Z.lt_ge_cases m k) as [Hlt | Hge].
    - rewrite Z.mul_pow2_bits_low by lia. reflexivity.
    - replace b with (b mod 2 ^ k) by (apply Z.mod_small; lia).
      rewrite Z.mod_pow2_bits_high by lia. apply andb_false_r. }
  rewrite <- Z.lxor_lor by exact Hland.
  symmetry. apply Z.add_nocarry_lxor. exact Hland.
Qed.

Lemma shl4_or (u d : Z) : 0 <= d < 16 -> Z.lor (Z.shiftl u 4) d = u * 16 + d.
Proof.
  intros Hd. rewrite Z.shiftl_mul_pow2 by lia.
  apply (lor_disjoint_add u d 4); simpl; lia.
Qed.

Lemma land_3ff (a : Z) : Z.land a 0x3ff = a mod 1024.
Proof. change 0x3ff with (Z.ones 10). rewrite Z.land_ones by lia. reflexivity. Qed.

Lemma high_half (n : Z) :
  0 <= n < 0x100000 ->
  Z.lor 0xd800 (Z.land (Z.shiftr n 10) 0x3ff) = 0xd800 + n / 1024.
Proof.
  intros Hn. rewrite land_3ff, Z.shiftr_div_pow2 by lia.
  change (2 ^ 10) with 1024.
  rewrite Z.mod_small by zdiv.
  apply (lor_disjoint_add 54 (n / 1024) 10); simpl; zdiv.
Qed.

Lemma low_half (n : Z) :
  Z.lor 0xdc00 (Z.land n 0x3ff) = 0xdc00 + n mod 1024.
Proof.
  rewrite land_3ff.
  apply (lor_disjoint_add 55 (n mod 1024) 10); simpl; zdiv.
Qed.

Lemma join_surrogates_value (hi lo : Z) :
  join_surrogates hi lo = (hi mod 1024) * 1024 + lo mod 1024 + 0x10000.
Proof.
  unfold join_surrogates. change 0x3FF with 0x3ff. rewrite !land_3ff.
  rewrite Z.shiftl_mul_pow2 by lia.
  rewrite (lor_disjoint_add (hi mod 1024) (lo mod 1024) 10) by (simpl; zdiv).
  reflexivity.
Qed.

Lemma join_split (c : Z) :
  0x10000 <= c <= 0x10FFFF ->
  join_surrogates (0xd800 + (c - 0x10000) / 1024) (0xdc00 + (c - 0x10000) mod 1024) = c.
Proof. intros Hc. rewrite join_surrogates_value. zdiv. Qed.

(** ** Strings *)

Lemma hexval_hex_digit (d : Z) : 0 <= d < 16 -> hexval (hex_digit d) = Some d.
Proof.
  intros Hd. unfold hexval, hex_digit.
  destruct (Z.ltb_spec d 10); zbool; simpl; f_equal; lia.
Qed.

Lemma hexval_range (d v : Z) : hexval d = Some v -> 0 <= v < 16.
Proof.
  unfold hexval. intros H. zbool_in H; simpl in H; inversion H; lia.
Qed.

Lemma decode_hex4_hex4 (n : Z) (r : str) :
  0 <= n < 0x10000 -> decode_hex4 (hex4 n ++ r) = Some (n, r).
Proof.
  intros Hn. unfold hex4, decode_hex4. simpl.
  rewrite !hexval_hex_digit by zdiv.
  rewrite !shl4_or by zdiv.
  f_equal. f_equal. zdiv.
Qed.

Lemma decode_hex4_range (s r : str) (u : Z) :
  decode_hex4 s = Some (u, r) -> 0 <= u < 0x10000.
Proof.
  unfold decode_hex4. intros H.
  destruct s as [|a [|b [|c [|d s]]]]; try discriminate.
  destruct (hexval a) as [va|] eqn:Ha; try discriminate.
  destruct (hexval b) as [vb|] eqn:Hb; try discriminate.
  destruct (hexval c) as [vc|] eqn:Hc; try discriminate.
  destruct (hexval d) as [vd|] eqn:Hd; try discriminate.
  apply hexval_range in Ha, Hb, Hc, Hd.
  rewrite !shl4_or in H by lia.
  inversion H. lia.
Qed.

Lemma scanstring_quote (f : nat) (r : str) : scanstring (S f) (34 :: r) = Ok ([], r).
Proof. reflexivity. Qed.

Lemma scanstring_literal (f : nat) (c : Z) (r : str) :
  c <> 34 -> c <> 92 -> 0x1f < c ->
  scanstring (S f) (c :: r) = prepend c (scanstring f r).
Proof. intros H1 H2 H3. simpl. zbool. reflexivity. Qed.

Lemma scanstring_simple (f : nat) (e u : Z) (r : str) :
  simple_escape e = Some u ->
  scanstring (S f) (92 :: e :: r) = prepend u (scanstring f r).
Proof.
  intros H. simpl.
  destruct (Z.eqb_spec e 117) as [-> | Hne]; [discriminate H|].
  rewrite H. reflexivity.
Qed.

Lemma scanstring_unicode (f : nat) (u : Z) (s r : str) :
  scan_unicode_escape s = Some (u, r) ->
  scanstring (S f) (92 :: 117 :: s) = prepend u (scanstring f r).
Proof. intros H. simpl. rewrite H. reflexivity. Qed.

Lemma scan_unicode_escape_alone (c : Z) (t : str) :
  0 <= c < 0x10000 ->
  (is_high_surrogate c = true -> follows_ok t) ->
  scan_unicode_escape (hex4 c ++ t) = Some (c, t).
Proof.
  intros Hc Ht. unfold scan_unicode_escape.
  rewrite decode_hex4_hex4 by exact Hc.
  destruct (is_high_surrogate c) eqn:Hhi; [|reflexivity].
  specialize (Ht eq_refl).
  destruct t as [|a [|b r2]]; try reflexivity.
  simpl in Ht.
  destruct ((a =? 92) && (b =? 117)); [|reflexivity].
  destruct (Ht eq_refl) as (c2 & r3 & -> & ->). reflexivity.
Qed.

Lemma scan_unicode_escape_pair (c : Z) (t : str) :
  0x10000 <= c <= 0x10FFFF ->
  scan_unicode_escape
    (hex4 (Z.lor 0xd800 (Z.land (Z.shiftr (c - 0x10000) 10) 0x3ff))
     ++ 92 :: 117 :: hex4 (Z.lor 0xdc00 (Z.land (c - 0x10000) 0x3ff)) ++ t)
  = Some (c, t).
Proof.
  intros Hc. unfold scan_unicode_escape.
  rewrite high_half, low_half by lia.
  rewrite decode_hex4_hex4 by zdiv.
  replace (is_high_surrogate (0xd800 + (c - 0x10000) / 1024)) with true
    by (unfold is_high_surrogate; symmetry; apply andb_true_iff; split;
        [apply Z.leb_le | apply Z.leb_le]; zdiv).
  simpl ((92 =? 92) && (117 =? 117)). cbv iota.
  rewrite decode_hex4_hex4 by zdiv.
  replace (is_low_surrogate (0xdc00 + (c - 0x10000) mod 1024)) with true
    by (unfold is_low_surrogate; symmetry; apply andb_true_iff; split;
        [apply Z.leb_le | apply Z.leb_le]; zdiv).
  rewrite join_split by lia. reflexivity.
Qed.

(** The escape of one character, by cases. *)
Lemma escape_char_cases (c : Z) :
  in_range c ->
  (escape_char c = [c] /\ c <> 34 /\ c <> 92 /\ 0x1f < c)
  \/ (exists e, escape_char c = [92; e] /\ simple_escape e = Some c)
  \/ (escape_char c = 92 :: 117 :: hex4 c /\ 0 <= c < 0x10000)
  \/ (escape_char c =
        (92 :: 117 :: hex4 (Z.lor 0xd800 (Z.land (Z.shiftr (c - 0x10000) 10) 0x3ff)))
        ++ (92 :: 117 :: hex4 (Z.lor 0xdc00 (Z.land (c - 0x10000) 0x3ff)))
      /\ 0x10000 <= c <= 0x10FFFF).
Proof.
  intros [Hlo Hhi]. unfold escape_char, needs_escape.
  destruct (Z.eqb_spec c 92) as [-> | H92].
  { right; left. exists 92. split; reflexivity. }
  destruct (Z.eqb_spec c 34) as [-> | H34].
  { right; left. exists 34. split; reflexivity. }
  simpl.
  destruct (Z.leb_spec 32 c) as [H32 | H32]; simpl.
  - destruct (Z.leb_spec c 126) as [H126 | H126]; simpl.
    + left. repeat split; lia.
    + right; right. unfold replace. zbool.
      * left. split; [reflexivity | lia].
      * right. split; [reflexivity | lia].
  - right. unfold replace.
    destruct (Z.eqb_spec c 92); [lia|].
    destruct (Z.eqb_spec c 34); [lia|].
    destruct (Z.eqb_spec c 8) as [-> | ?].
    { left. exists 98. split; reflexivity. }
    destruct (Z.eqb_spec c 12) as [-> | ?].
    { left. exists 102. split; reflexivity. }
    destruct (Z.eqb_spec c 10) as [-> | ?].
    { left. exists 110. split; reflexivity. }
    destruct (Z.eqb_spec c 13) as [-> | ?].
    { left. exists 114. split; reflexivity. }
    destruct (Z.eqb_spec c 9) as [-> | ?].
    { left. exists 116. split; reflexivity. }
    destruct (Z.ltb_spec c 0x10000); [|lia].
    right; left. split; [reflexivity | lia].
Qed.

Lemma simple_escape_not_u (e u : Z) : simple_escape e = Some u -> e <> 117.
Proof. intros H ->. discriminate H. Qed.

(** Behind a lone high surrogate the encoder never writes the escape of a
    low surrogate, when the string itself has no such pair. *)
Lemma follows_ok_encoded (s rest : str) :
  Forall in_range s ->
  match s with
  | b :: _ => is_low_surrogate b = false
  | [] => True
  end ->
  follows_ok (flat_map escape_char s ++ 34 :: rest).
Proof.
  intros Hr Hhead. destruct s as [|b s].
  - simpl. destruct rest; [exact I|]. simpl. discriminate.
  - inversion Hr as [|? ? Hb Hs]; subst.
    cbn [flat_map].
    destruct (escape_char_cases b Hb)
      as [(-> & ? & ? & ?) | [(e & -> & He) | [(-> & ?) | (-> & ?)]]].
    + cbn [app].
      destruct (flat_map escape_char s ++ 34 :: rest) eqn:E.
      { destruct (flat_map escape_char s); discriminate E. }
      simpl. destruct (Z.eqb_spec b 92); [lia|]. simpl. discriminate.
    + cbn [app]. unfold follows_ok.
      destruct (Z.eqb_spec e 117) as [-> | Hne]; [discriminate He|].
      rewrite andb_false_r. discriminate.
    + cbn [app]. unfold follows_ok. intros _.
      exists b, (flat_map escape_char s ++ 34 :: rest).
      split; [apply decode_hex4_hex4; lia | exact Hhead].
    + rewrite <- !app_assoc. cbn [app]. unfold follows_ok. intros _.
      rewrite high_half by lia.
      eexists _, _. split; [apply decode_hex4_hex4; zdiv|].
      unfold is_low_surrogate. apply andb_false_iff. left.
      apply Z.leb_gt. zdiv.
Qed.

(** [scanstring] reads back what [encode_basestring_ascii] wrote. *)
Lemma scanstring_encoded (s rest : str) (fuel : nat) :
  str_ok s -> (length s < fuel)%nat ->
  scanstring fuel (flat_map escape_char s ++ 34 :: rest) = Ok (s, rest).
Proof.
  revert fuel. induction s as [|c s IH]; intros fuel [Hr Hp] Hf.
  - destruct fuel; [simpl in Hf; lia|]. reflexivity.
  - destruct fuel as [|fuel]; [simpl in Hf; lia|].
    simpl in Hf.
    inversion Hr as [|? ? Hc Hs]; subst.
    destruct Hp as [Hhead Hp].
    assert (Hrec : scanstring fuel (flat_map escape_char s ++ 34 :: rest) = Ok (s, rest)).
    { apply IH; [split; assumption | lia]. }
    cbn [flat_map].
    destruct (escape_char_cases c Hc)
      as [(-> & ? & ? & ?) | [(e & -> & He) | [(-> & ?) | (-> & ?)]]].
    + cbn [app]. rewrite scanstring_literal by assumption.
      rewrite Hrec. reflexivity.
    + cbn [app]. rewrite (scanstring_simple _ _ _ _ He).
      rewrite Hrec. reflexivity.
    + cbn [app].
      rewrite (scanstring_unicode _ c _ (flat_map escape_char s ++ 34 :: rest)).
      * rewrite Hrec. reflexivity.
      * apply scan_unicode_escape_alone; [assumption|].
        intros Hhi. apply follows_ok_encoded; [assumption|].
        destruct s as [|b s']; [exact I|].
        destruct (is_low_surrogate b) eqn:Hlow; [|reflexivity].
        exfalso. apply Hhead. split; [exact Hhi | reflexivity].
    + rewrite <- !app_assoc. cbn [app].
      rewrite (scanstring_unicode _ c _ (flat_map escape_char s ++ 34 :: rest)).
      * rewrite Hrec. reflexivity.
      * apply scan_unicode_escape_pair. assumption.
Qed.

(** ** Numbers *)

Lemma span_digits_ext (s rest ds r : str) :
  span_digits s = (ds, r) -> delimited rest ->
  span_digits (s ++ rest) = (ds, r ++ rest).
Proof.
  revert ds r. induction s as [|c s IH]; intros ds r H Hd.
  - simpl in H. inversion H; subst. simpl.
    destruct rest as [|c rest]; [reflexivity|].
    simpl in Hd. simpl. unfold is_digit.
    destruct Hd as [-> | ->]; reflexivity.
  - simpl in H. simpl. destruct (is_digit c).
    + destruct (span_digits s) as [ds' r'] eqn:E.
      inversion H; subst.
      rewrite (IH ds' r eq_refl Hd). reflexivity.
    + inversion H; subst. reflexivity.
Qed.

Lemma span_digits_all (ds : str) :
  Forall (fun c => is_digit c = true) ds -> span_digits ds = (ds, []).
Proof.
  induction 1 as [|c ds Hc _ IH]; [reflexivity|].
  simpl. rewrite Hc, IH. reflexivity.
Qed.

Lemma scan_sign_ext (s rest sg r : str) :
  s <> [] -> scan_sign s = (sg, r) -> scan_sign (s ++ rest) = (sg, r ++ rest).
Proof.
  intros Hne H. destruct s as [|c s]; [congruence|].
  simpl in *. destruct (c =? 45); inversion H; subst; reflexivity.
Qed.

Lemma scan_int_part_ext (s rest ip r : str) :
  scan_int_part s = Some (ip, r) -> delimited rest ->
  scan_int_part (s ++ rest) = Some (ip, r ++ rest).
Proof.
  intros H Hd. destruct s as [|c s]; [discriminate H|].
  simpl in *. destruct ((49 <=? c) && (c <=? 57)).
  - destruct (span_digits s) as [ds r'] eqn:E.
    inversion H; subst.
    rewrite (span_digits_ext _ _ _ _ E Hd). reflexivity.
  - destruct (c =? 48); [|discriminate H].
    inversion H; subst. reflexivity.
Qed.

Lemma delimited_head (rest : str) (P : Z -> bool) :
  delimited rest -> P 44 = false -> P 10 = false ->
  match rest with
  | c :: _ => P c = false
  | [] => True
  end.
Proof.
  intros Hd H1 H2. destruct rest as [|c rest]; [exact I|].
  destruct Hd as [-> | ->]; assumption.
Qed.

Lemma scan_frac_ext (s rest fr r : str) :
  scan_frac s = (fr, r) -> delimited rest ->
  scan_frac (s ++ rest) = (fr, r ++ rest).
Proof.
  intros H Hd. destruct s as [|d [|x s]].
  - simpl in H. inversion H; subst. simpl.
    destruct rest as [|d [|x rest]]; try reflexivity.
    simpl. simpl in Hd. destruct Hd as [-> | ->]; reflexivity.
  - simpl in H. inversion H; subst. simpl.
    destruct rest as [|x rest]; [reflexivity|].
    simpl in Hd. unfold is_digit.
    destruct Hd as [-> | ->]; rewrite andb_false_r; reflexivity.
  - simpl in *. destruct ((d =? 46) && is_digit x).
    + destruct (span_digits s) as [fs r'] eqn:E.
      inversion H; subst.
      rewrite (span_digits_ext _ _ _ _ E Hd). reflexivity.
    + inversion H; subst. reflexivity.
Qed.

Lemma scan_exp_ext (s rest ex r : str) :
  scan_exp s = (ex, r) -> delimited rest ->
  scan_exp (s ++ rest) = (ex, r ++ rest).
Proof.
  intros H Hd. destruct s as [|e s].
  - simpl in H. inversion H; subst. simpl.
    destruct rest as [|e rest]; [reflexivity|].
    simpl. simpl in Hd. destruct Hd as [-> | ->]; reflexivity.
  - simpl in *. destruct ((e =? 101) || (e =? 69)).
    + destruct s as [|g t].
      * simpl in H. inversion H; subst.
        destruct rest as [|g rest]; [reflexivity|].
        simpl. simpl in Hd.
        destruct Hd as [-> | ->]; reflexivity.
      * cbn [app]. destruct ((g =? 45) || (g =? 43)).
        -- destruct (span_digits t) as [es r'] eqn:E.
           rewrite (span_digits_ext _ _ _ _ E Hd).
           destruct es; inversion H; subst; reflexivity.
        -- destruct (span_digits (g :: t)) as [es r'] eqn:E.
           change (g :: t ++ rest) with ((g :: t) ++ rest).
           rewrite (span_digits_ext _ _ _ _ E Hd).
           destruct es; inversion H; subst; reflexivity.
    + inversion H; subst. reflexivity.
Qed.

(** A literal followed by a delimiter is matched as it is alone. *)
Lemma match_number_ext (s rest tok r : str) (fl : bool) :
  match_number s = Some (fl, tok, r) -> delimited rest ->
  match_number (s ++ rest) = Some (fl, tok, r ++ rest).
Proof.
  unfold match_number. intros H Hd.
  destruct (scan_sign s) as [sg s1] eqn:Esg.
  destruct (scan_int_part s1) as [[ip r1]|] eqn:Eip; [|discriminate H].
  destruct (scan_frac r1) as [fr r2] eqn:Efr.
  destruct (scan_exp r2) as [ex r3] eqn:Eex.
  assert (Hne : s <> []).
  { intros ->. simpl in Esg. inversion Esg; subst. discriminate Eip. }
  rewrite (scan_sign_ext _ rest _ _ Hne Esg).
  rewrite (scan_int_part_ext _ _ _ _ Eip Hd).
  rewrite (scan_frac_ext _ _ _ _ Efr Hd).
  rewrite (scan_exp_ext _ _ _ _ Eex Hd).
  inversion H; subst. reflexivity.
Qed.

Lemma digits_value_snoc (ds : str) (d : Z) :
  digits_value (ds ++ [d]) = digits_value ds * 10 + (d - 48).
Proof. unfold digits_value. rewrite fold_left_app. reflexivity. Qed.

(** The digits of a natural number: all digits, no leading zero, and the
    number is their value. *)
Lemma to_digits_spec (f : nat) (n : Z) :
  0 <= n < 10 ^ Z.of_nat (S f) ->
  exists c ds,
    to_digits f n = c :: ds
    /\ Forall (fun c => is_digit c = true) ds
    /\ ((n = 0 /\ c = 48 /\ ds = []) \/ (0 < n /\ 49 <= c <= 57))
    /\ digits_value (c :: ds) = n.
Proof.
  revert n. induction f as [|f IH]; intros n Hn.
  - change (10 ^ Z.of_nat 1) with 10 in Hn. simpl.
    rewrite Z.mod_small by lia.
    exists (48 + n), []. split; [reflexivity|]. split; [constructor|].
    split; [|unfold digits_value; simpl; lia].
    destruct (Z.eq_dec n 0) as [-> | ?]; [left; auto | right; lia].
  - cbn [to_digits]. destruct (Z.ltb_spec n 10) as [Hlt | Hge].
    + exists (48 + n), []. split; [reflexivity|]. split; [constructor|].
      split; [|unfold digits_value; simpl; lia].
    destruct (Z.eq_dec n 0) as [-> | ?]; [left; auto | right; lia].
    + assert (Hq : 0 <= n / 10 < 10 ^ Z.of_nat (S f)).
      { rewrite Nat2Z.inj_succ, Z.pow_succ_r in Hn by lia.
        split; [zdiv|]. apply Z.div_lt_upper_bound; lia. }
      destruct (IH _ Hq) as (c & ds & E & Hds & Hc & Hv).
      rewrite E. exists c, (ds ++ [48 + n mod 10]). split; [reflexivity|].
      split.
      { apply Forall_app. split; [assumption|].
        constructor; [|constructor]. unfold is_digit.
        apply andb_true_iff. split; apply Z.leb_le; zdiv. }
      split.
      { right. split; [lia|]. destruct Hc as [(H0 & _ & _) | (_ & Hc)]; [zdiv | exact Hc]. }
      change (c :: ds ++ [48 + n mod 10]) with ((c :: ds) ++ [48 + n mod 10]).
      rewrite digits_value_snoc, Hv. zdiv.
Qed.

Lemma log2_fuel (n : Z) : 0 <= n -> n < 10 ^ Z.of_nat (S (Z.to_nat (Z.log2 n))).
Proof.
  intros Hn. destruct (Z.eq_dec n 0) as [-> | Hnz]; [reflexivity|].
  pose proof (Z.log2_nonneg n) as Hl.
  rewrite Nat2Z.inj_succ, Z2Nat.id by exact Hl.
  destruct (Z.log2_spec n) as [_ Hup]; [lia|].
  eapply Z.lt_le_trans; [exact Hup|].
  apply Z.pow_le_mono_l. lia.
Qed.

Lemma int_repr_cases (z : Z) :
  exists c ds,
    Forall (fun c => is_digit c = true) ds
    /\ ((c = 48 /\ ds = []) \/ 49 <= c <= 57)
    /\ ((0 <= z /\ int_repr z = c :: ds /\ digits_value (c :: ds) = z)
        \/ (z < 0 /\ int_repr z = 45 :: c :: ds /\ digits_value (c :: ds) = - z)).
Proof.
  unfold int_repr. destruct (Z.ltb_spec z 0) as [Hneg | Hpos].
  - destruct (to_digits_spec (Z.to_nat (Z.log2 (- z))) (- z)) as (c & ds & E & Hds & Hc & Hv).
    { split; [lia | apply log2_fuel; lia]. }
    exists c, ds. split; [assumption|]. split; [|right; rewrite E; auto].
    destruct Hc as [(_ & ? & ?) | (_ & ?)]; auto.
  - destruct (to_digits_spec (Z.to_nat (Z.log2 z)) z) as (c & ds & E & Hds & Hc & Hv).
    { split; [lia | apply log2_fuel; lia]. }
    exists c, ds. split; [assumption|]. split; [|left; rewrite E; auto].
    destruct Hc as [(_ & ? & ?) | (_ & ?)]; auto.
Qed.

Lemma scan_int_part_digits (c : Z) (ds : str) :
  Forall (fun c => is_digit c = true) ds ->
  (c = 48 /\ ds = []) \/ 49 <= c <= 57 ->
  scan_int_part (c :: ds) = Some (c :: ds, []).
Proof.
  intros Hds [[-> ->] | Hc]; [reflexivity|].
  simpl. replace ((49 <=? c) && (c <=? 57)) with true
    by (symmetry; apply andb_true_iff; split; apply Z.leb_le; lia).
  rewrite span_digits_all by assumption. reflexivity.
Qed.

(** [int.__repr__] writes an integer literal, and [int] reads it back. *)
Lemma match_number_int_repr (z : Z) :
  match_number (int_repr z) = Some (false, int_repr z, []).
Proof.
  destruct (int_repr_cases z) as (c & ds & Hds & Hc & [(_ & E & _) | (_ & E & _)]);
    rewrite E; unfold match_number.
  - assert (Hs : scan_sign (c :: ds) = ([], c :: ds)).
    { simpl. destruct (Z.eqb_spec c 45); [lia | reflexivity]. }
    rewrite Hs, scan_int_part_digits by assumption.
    simpl. rewrite app_nil_r. reflexivity.
  - change (scan_sign (45 :: c :: ds)) with ([45], c :: ds). cbv beta iota.
    rewrite scan_int_part_digits by assumption.
    simpl. rewrite app_nil_r. reflexivity.
Qed.

Lemma int_of_str_int_repr (z : Z) : int_of_str (int_repr z) = z.
Proof.
  destruct (int_repr_cases z) as (c & ds & Hds & Hc & [(? & E & Hv) | (? & E & Hv)]);
    rewrite E; unfold int_of_str.
  - destruct (Z.eqb_spec c 45); [lia | exact Hv].
  - simpl (45 =? 45). cbv iota. lia.
Qed.

Lemma span_digits_digits (s ds r : str) :
  span_digits s = (ds, r) -> Forall (fun c => is_digit c = true) ds.
Proof.
  revert ds r. induction s as [|c s IH]; intros ds r H.
  - inversion H. constructor.
  - simpl in H. destruct (is_digit c) eqn:Hc.
    + destruct (span_digits s) as [ds' r'] eqn:E. inversion H; subst.
      constructor; [exact Hc | eapply IH; reflexivity].
    + inversion H. constructor.
Qed.

(** The value of a run of digits is below the power of ten of its length,
    and at least the power below when the first digit is not zero. *)
Lemma digits_value_upper (ds : str) :
  Forall (fun c => is_digit c = true) ds ->
  0 <= digits_value ds < 10 ^ Z.of_nat (length ds).
Proof.
  induction ds as [|d ds IH] using rev_ind; intros H.
  - unfold digits_value. simpl. lia.
  - apply Forall_app in H as [Hds Hd]. inversion Hd as [|? ? Hd' _]; subst.
    unfold is_digit in Hd'. apply andb_true_iff in Hd' as [H1 H2].
    apply Z.leb_le in H1, H2.
    rewrite digits_value_snoc, length_app. cbn [length].
    rewrite Nat2Z.inj_add. change (Z.of_nat 1) with 1.
    rewrite Z.pow_add_r by lia. change (10 ^ 1) with 10.
    specialize (IH Hds). lia.
Qed.

Lemma digits_value_lower (c : Z) (ds : str) :
  49 <= c <= 57 -> Forall (fun c => is_digit c = true) ds ->
  10 ^ Z.of_nat (length ds) <= digits_value (c :: ds).
Proof.
  intros Hc. induction ds as [|d ds IH] using rev_ind; intros H.
  - unfold digits_value. simpl. lia.
  - apply Forall_app in H as [Hds Hd]. inversion Hd as [|? ? Hd' _]; subst.
    unfold is_digit in Hd'. apply andb_true_iff in Hd' as [H1 H2].
    apply Z.leb_le in H1, H2.
    change (c :: ds ++ [d]) with ((c :: ds) ++ [d]).
    rewrite digits_value_snoc, length_app. cbn [length].
    rewrite Nat2Z.inj_add. change (Z.of_nat 1) with 1.
    rewrite Z.pow_add_r by lia. change (10 ^ 1) with 10.
    specialize (IH Hds). lia.
Qed.

(** [repr] writes an integer with no more digits than any literal of its
    absolute value has. *)
Lemma int_digits_int_repr (z : Z) (ip : str) :
  ip <> [] -> Forall (fun c => is_digit c = true) ip ->
  digits_value ip = Z.abs z ->
  (int_digits (int_repr z) <= length ip)%nat.
Proof.
  intros Hne Hip Hv.
  destruct (int_repr_cases z) as (c & ds & Hds & Hc & Hz).
  assert (Hlen : (length (c :: ds) <= length ip)%nat).
  { destruct Hc as [[-> ->] | Hc].
    - destruct ip; [congruence | simpl; lia].
    - pose proof (digits_value_lower c ds Hc Hds) as Hlo.
      pose proof (digits_value_upper ip Hip) as Hup.
      assert (Hval : digits_value (c :: ds) = Z.abs z)
        by (destruct Hz as [(? & _ & ?) | (? & _ & ?)]; lia).
      assert (Hlt : 10 ^ Z.of_nat (length ds) < 10 ^ Z.of_nat (length ip)) by lia.
      apply Z.pow_lt_mono_r_iff in Hlt; [|lia|lia].
      cbn [length]. lia. }
  assert (H45 : c <> 45) by (destruct Hc as [[-> _] | Hc]; lia).
  destruct Hz as [(_ & -> & _) | (_ & -> & _)]; unfold int_digits.
  - destruct (Z.eqb_spec c 45); [contradiction | exact Hlen].
  - simpl (45 =? 45). cbv iota. exact Hlen.
Qed.

(** An integer literal as [match_number] returns it: an optional minus
    sign and a run of digits. *)
Lemma match_number_int (s tok r : str) :
  match_number s = Some (false, tok, r) ->
  exists ip,
    ip <> [] /\ Forall (fun c => is_digit c = true) ip
    /\ ((tok = ip /\ int_of_str tok = digits_value ip)
        \/ (tok = 45 :: ip /\ int_of_str tok = - digits_value ip))
    /\ int_digits tok = length ip.
Proof.
  unfold match_number. intros H.
  destruct (scan_sign s) as [sg s1] eqn:Esg.
  destruct (scan_int_part s1) as [[ip r1]|] eqn:Eip; [|discriminate H].
  destruct (scan_frac r1) as [fr r2] eqn:Efr.
  destruct (scan_exp r2) as [ex r3] eqn:Eex.
  assert (Hip : exists c ds, ip = c :: ds /\ 48 <= c <= 57
                             /\ Forall (fun c => is_digit c = true) ds).
  { destruct s1 as [|c s1]; [discriminate Eip|]. simpl in Eip.
    destruct (Z.leb_spec 49 c), (Z.leb_spec c 57); cbn [andb] in Eip.
    - destruct (span_digits s1) as [ds r'] eqn:E. inversion Eip; subst.
      exists c, ds. split; [reflexivity|]. split; [lia|].
      eapply span_digits_digits. exact E.
    - destruct (Z.eqb_spec c 48) as [-> | _]; [|discriminate Eip].
      inversion Eip; subst. exists 48, []. repeat split; try lia; constructor.
    - destruct (Z.eqb_spec c 48) as [-> | _]; [|discriminate Eip].
      inversion Eip; subst. exists 48, []. repeat split; try lia; constructor.
    - destruct (Z.eqb_spec c 48) as [-> | _]; [|discriminate Eip].
      inversion Eip; subst. exists 48, []. repeat split; try lia; constructor. }
  destruct Hip as (c & ds & -> & Hc & Hds).
  assert (Hdig : Forall (fun c => is_digit c = true) (c :: ds)).
  { constructor; [|exact Hds]. unfold is_digit.
    apply andb_true_iff. split; apply Z.leb_le; lia. }
  destruct fr; [|discriminate H]. destruct ex; [|discriminate H].
  inversion H; subst. rewrite !app_nil_r.
  exists (c :: ds). split; [discriminate|]. split; [exact Hdig|].
  destruct s as [|a s]; simpl in Esg.
  - inversion Esg; subst. discriminate Eip.
  - destruct (Z.eqb_spec a 45) as [-> | Ha]; inversion Esg; subst.
    + split; [right; split; [reflexivity|]|reflexivity].
      unfold int_of_str. simpl (45 =? 45). reflexivity.
    + assert (Hc45 : c <> 45) by lia.
      split; [left; split; [reflexivity|]|].
      * unfold int_of_str. cbn [app].
        destruct (Z.eqb_spec c 45); [contradiction | reflexivity].
      * unfold int_digits. cbn [app].
        destruct (Z.eqb_spec c 45); [contradiction | reflexivity].
Qed.

(** ** Induction on JSON values *)

Section JsonInd.

Context {F : Type} (P : json F -> Prop).
Hypothesis Hnull : P JNull.
Hypothesis Hbool : forall b, P (JBool b).
Hypothesis Hint : forall z, P (JInt z).
Hypothesis Hfloat : forall f, P (JFloat f).
Hypothesis Hstr : forall s, P (JStr s).
Hypothesis Hlist : forall l, Forall P l -> P (JList l).
Hypothesis Hdict : forall d, Forall (fun kv => P (snd kv)) d -> P (JDict d).

Fixpoint json_ind (v : json F) : P v :=
  match v with
  | JNull => Hnull
  | JBool b => Hbool b
  | JInt z => Hint z
  | JFloat f => Hfloat f
  | JStr s => Hstr s
  | JList l =>
      Hlist l
        ((fix go (l : list (json F)) : Forall P l :=
            match l with
            | [] => List.Forall_nil P
            | x :: xs => @List.Forall_cons _ P x xs (json_ind x) (go xs)
            end) l)
  | JDict d =>
      Hdict d
        ((fix go (d : list (str * json F)) : Forall (fun kv => P (snd kv)) d :=
            match d with
            | [] => List.Forall_nil _
            | kv :: kvs =>
                @List.Forall_cons _ (fun kv => P (snd kv)) kv kvs (json_ind (snd kv)) (go kvs)
            end) d)
  end.

End JsonInd.

(** ** Whitespace and the first character of a value *)

Lemma skip_ws_head (c : Z) (s : str) : is_ws c = false -> skip_ws (c :: s) = c :: s.
Proof. intros H. simpl. rewrite H. reflexivity. Qed.

Lemma skip_ws_spaces (n : nat) (s : str) : skip_ws (repeat 32 n ++ s) = skip_ws s.
Proof. induction n as [|n IH]; [reflexivity | exact IH]. Qed.

Lemma skip_ws_newline_indent (indent lvl : nat) (s : str) :
  skip_ws (newline_indent indent lvl ++ s) = skip_ws s.
Proof. unfold newline_indent. cbn [app]. simpl. apply skip_ws_spaces. Qed.

Lemma match_number_shape (s : str) (x : bool * str * str) :
  match_number s = Some x ->
  (exists c t, s = c :: t /\ 48 <= c <= 57)
  \/ (exists c t, s = 45 :: c :: t /\ 48 <= c <= 57).
Proof.
  unfold match_number. intros H.
  assert (Hip : forall s1, scan_int_part s1 <> None ->
                           exists c t, s1 = c :: t /\ 48 <= c <= 57).
  { intros [|c t] Hs; [simpl in Hs; congruence|]. exists c, t. split; [reflexivity|].
    simpl in Hs.
    destruct (Z.leb_spec 49 c), (Z.leb_spec c 57), (Z.eqb_spec c 48);
      simpl in Hs; try lia; congruence. }
  destruct s as [|c s]; [discriminate H|].
  simpl in H. destruct (Z.eqb_spec c 45) as [-> | Hne].
  - right. destruct (scan_int_part s) as [[ip r1]|] eqn:E; [|discriminate H].
    destruct (Hip s) as (c & t & -> & Hc); [congruence|]. eauto.
  - left. destruct (scan_int_part (c :: s)) as [[ip r1]|] eqn:E; [|discriminate H].
    destruct (Hip (c :: s)) as (c' & t & E' & Hc); [congruence|].
    inversion E'; subst. eauto.
Qed.

Lemma value_head_digit (c : Z) : 48 <= c <= 57 -> value_head c.
Proof.
  intros H. unfold value_head, is_ws.
  destruct (Z.eqb_spec c 32), (Z.eqb_spec c 9), (Z.eqb_spec c 10), (Z.eqb_spec c 13);
    try lia; simpl; (split; [reflexivity | lia]).
Qed.

(** ** One step of the decoder *)

(** The literals of the codec as code points. *)
Lemma txt_null : txt "null" = [110; 117; 108; 108].
Proof. reflexivity. Qed.
Lemma txt_true : txt "true" = [116; 114; 117; 101].
Proof. reflexivity. Qed.
Lemma txt_false : txt "false" = [102; 97; 108; 115; 101].
Proof. reflexivity. Qed.
Lemma txt_NaN : txt "NaN" = [78; 97; 78].
Proof. reflexivity. Qed.
Lemma txt_Infinity : txt "Infinity" = [73; 110; 102; 105; 110; 105; 116; 121].
Proof. reflexivity. Qed.
Lemma txt_NegInfinity : txt "-Infinity" = [45; 73; 110; 102; 105; 110; 105; 116; 121].
Proof. reflexivity. Qed.
Lemma txt_brackets : txt "[]" = [91; 93].
Proof. reflexivity. Qed.
Lemma txt_braces : txt "{}" = [123; 125].
Proof. reflexivity. Qed.

Create Rewrite HintDb literals.
#[local] Hint Rewrite txt_null txt_true txt_false txt_NaN txt_Infinity
  txt_NegInfinity txt_brackets txt_braces : literals.

(** The three scanners, one step unfolded. *)
Lemma scan_once_S {FM : FloatModel} {LM : Limits} (fuel depth : nat) (s : str) :
  scan_once (S fuel) depth s
  = match s with
    | [] => Err Syntax
    | c :: r =>
        if c =? 34 then
          match scanstring (S (length r)) r with
          | Ok (chars, r') => Ok (JStr chars, r')
          | Err e => Err e
          | OutOfFuel => OutOfFuel
          end
        else if c =? 123 then
          match depth with
          | O => Err Depth
          | S depth =>
              match skip_ws r with
              | c1 :: r1 =>
                  if c1 =? 125 then Ok (JDict [], r1)
                  else parse_object fuel depth [] (c1 :: r1)
              | [] => Err Syntax
              end
          end
        else if c =? 91 then
          match depth with
          | O => Err Depth
          | S depth =>
              match skip_ws r with
              | c1 :: r1 =>
                  if c1 =? 93 then Ok (JList [], r1)
                  else parse_array fuel depth [] (c1 :: r1)
              | [] => Err Syntax
              end
          end
        else scan_atom s
    end.
Proof. reflexivity. Qed.

Lemma parse_object_S {FM : FloatModel} {LM : Limits} (fuel depth : nat)
      (d : list (str * json finite)) (s : str) :
  parse_object (S fuel) depth d s
  = match s with
    | [] => Err Syntax
    | c :: r =>
        if c =? 34 then
          match scanstring (S (length r)) r with
          | Ok (key, r1) =>
              match skip_ws r1 with
              | c1 :: r2 =>
                  if c1 =? 58 then
                    match scan_once fuel depth (skip_ws r2) with
                    | Ok (val, r3) =>
                        match skip_ws r3 with
                        | c2 :: r4 =>
                            if c2 =? 125 then Ok (JDict (dict_set key val d), r4)
                            else if c2 =? 44 then
                              parse_object fuel depth (dict_set key val d) (skip_ws r4)
                            else Err Syntax
                        | [] => Err Syntax
                        end
                    | Err e => Err e
                    | OutOfFuel => OutOfFuel
                    end
                  else Err Syntax
              | [] => Err Syntax
              end
          | Err e => Err e
          | OutOfFuel => OutOfFuel
          end
        else Err Syntax
    end.
Proof. reflexivity. Qed.

Lemma parse_array_S {FM : FloatModel} {LM : Limits} (fuel depth : nat)
      (l : list (json finite)) (s : str) :
  parse_array (S fuel) depth l s
  = match scan_once fuel depth s with
    | Ok (val, r1) =>
        match skip_ws r1 with
        | c :: r2 =>
            if c =? 93 then Ok (JList (l ++ [val]), r2)
            else if c =? 44 then parse_array fuel depth (l ++ [val]) (skip_ws r2)
            else Err Syntax
        | [] => Err Syntax
        end
    | Err e => Err e
    | OutOfFuel => OutOfFuel
    end.
Proof. reflexivity. Qed.

Ltac scan_step := rewrite ?scan_once_S, ?parse_object_S, ?parse_array_S.
Ltac scan_step_in H := rewrite ?scan_once_S, ?parse_object_S, ?parse_array_S in H.

Section Steps.

Context {FM : FloatModel} {LM : Limits}.

Lemma scan_atom_number (s tok r : str) (fl : bool) :
  match_number s = Some (fl, tok, r) ->
  scan_atom s = and_rest (number_value fl tok) r.
Proof.
  intros H. unfold scan_atom. rewrite H.
  autorewrite with literals.
  destruct (match_number_shape _ _ H) as [(c & t & -> & Hc) | (c & t & -> & Hc)];
    cbn [strip_prefix]; zbool; reflexivity.
Qed.

Lemma scan_once_atom (f d : nat) (c : Z) (t : str) :
  c <> 34 -> c <> 123 -> c <> 91 ->
  scan_once (S f) d (c :: t) = scan_atom (c :: t).
Proof. intros H1 H2 H3. scan_step. zbool. reflexivity. Qed.

Lemma scan_once_number (f d : nat) (lit rest : str) (fl : bool) :
  match_number lit = Some (fl, lit, []) -> delimited rest ->
  scan_once (S f) d (lit ++ rest) = and_rest (number_value fl lit) rest.
Proof.
  intros H Hd.
  pose proof (match_number_ext _ _ _ _ _ H Hd) as Hext. simpl in Hext.
  destruct (match_number_shape _ _ H) as [(c & t & E & Hc) | (c & t & E & Hc)];
    rewrite E in *; cbn [app] in *;
    rewrite scan_once_atom by lia; apply scan_atom_number; exact Hext.
Qed.

Lemma scan_once_string (f d : nat) (r r' chars : str) :
  scanstring (S (length r)) r = Ok (chars, r') ->
  scan_once (S f) d (34 :: r) = Ok (JStr chars, r').
Proof. intros H. scan_step. simpl (34 =? 34). cbv iota. rewrite H. reflexivity. Qed.

Lemma scan_once_list_open (f d : nat) (r s' : str) :
  skip_ws r = s' ->
  match s' with
  | c :: _ => c <> 93
  | [] => False
  end ->
  scan_once (S f) (S d) (91 :: r) = parse_array f d [] s'.
Proof.
  intros H Hc. destruct s' as [|c1 r1]; [contradiction|]. scan_step.
  simpl (91 =? 34). simpl (91 =? 123). simpl (91 =? 91).
  cbv iota. rewrite H. destruct (Z.eqb_spec c1 93); [lia | reflexivity].
Qed.

Lemma scan_once_dict_open (f d : nat) (r s' : str) :
  skip_ws r = s' ->
  match s' with
  | c :: _ => c <> 125
  | [] => False
  end ->
  scan_once (S f) (S d) (123 :: r) = parse_object f d [] s'.
Proof.
  intros H Hc. destruct s' as [|c1 r1]; [contradiction|]. scan_step.
  simpl (123 =? 34). simpl (123 =? 123).
  cbv iota. rewrite H. destruct (Z.eqb_spec c1 125); [lia | reflexivity].
Qed.

Lemma parse_array_last (f d : nat) (l : list (json finite)) (s r1 r2 : str)
      (v : json finite) :
  scan_once f d s = Ok (v, r1) -> skip_ws r1 = 93 :: r2 ->
  parse_array (S f) d l s = Ok (JList (l ++ [v]), r2).
Proof. intros H1 H2. scan_step. rewrite H1, H2. reflexivity. Qed.

Lemma parse_array_more (f d : nat) (l : list (json finite)) (s r1 r2 : str)
      (v : json finite) :
  scan_once f d s = Ok (v, r1) -> skip_ws r1 = 44 :: r2 ->
  parse_array (S f) d l s = parse_array f d (l ++ [v]) (skip_ws r2).
Proof. intros H1 H2. scan_step. rewrite H1, H2. reflexivity. Qed.

Lemma parse_object_last (f n : nat) (d : list (str * json finite))
      (r r1 r2 r3 r4 key : str) (v : json finite) :
  scanstring (S (length r)) r = Ok (key, r1) -> skip_ws r1 = 58 :: r2 ->
  scan_once f n (skip_ws r2) = Ok (v, r3) -> skip_ws r3 = 125 :: r4 ->
  parse_object (S f) n d (34 :: r) = Ok (JDict (dict_set key v d), r4).
Proof.
  intros H1 H2 H3 H4. scan_step. simpl (34 =? 34). cbv iota.
  rewrite H1, H2. simpl (58 =? 58). cbv iota. rewrite H3, H4. reflexivity.
Qed.

Lemma parse_object_more (f n : nat) (d : list (str * json finite))
      (r r1 r2 r3 r4 key : str) (v : json finite) :
  scanstring (S (length r)) r = Ok (key, r1) -> skip_ws r1 = 58 :: r2 ->
  scan_once f n (skip_ws r2) = Ok (v, r3) -> skip_ws r3 = 44 :: r4 ->
  parse_object (S f) n d (34 :: r) = parse_object f n (dict_set key v d) (skip_ws r4).
Proof.
  intros H1 H2 H3 H4. scan_step. simpl (34 =? 34). cbv iota.
  rewrite H1, H2. simpl (58 =? 58). cbv iota. rewrite H3, H4. reflexivity.
Qed.

End Steps.

Lemma dict_set_fresh {V : Type} (k : str) (v : V) (d : list (str * V)) :
  k ∉ List.map fst d -> dict_set k v d = d ++ [(k, v)].
Proof.
  induction d as [|[k' v'] d IH]; intros Hin; [reflexivity|].
  simpl in *. apply not_elem_of_cons in Hin as [Hne Hin].
  destruct (decide (k = k')) as [-> | _]; [congruence|].
  rewrite IH by exact Hin. reflexivity.
Qed.

Lemma escape_char_nonempty (c : Z) : (1 <= length (escape_char c))%nat.
Proof.
  unfold escape_char, replace.
  repeat match goal with
         | |- context [if ?b then _ else _] => destruct b
         end; simpl; lia.
Qed.

Lemma flat_map_escape_length (s : str) :
  (length s <= length (flat_map escape_char s))%nat.
Proof.
  induction s as [|c s IH]; [reflexivity|].
  cbn [flat_map]. rewrite length_app. simpl.
  pose proof (escape_char_nonempty c). lia.
Qed.

Lemma join_cons2 (sep x y : str) (ys : list str) :
  join sep (x :: y :: ys) = x ++ sep ++ join sep (y :: ys).
Proof. unfold join. cbn [flat_map]. rewrite <- app_assoc. reflexivity. Qed.

(** ** The decoder reads back what the encoder writes *)

Section RoundTrip.

Context {FM : FloatModel} {FL : FloatLaws FM} {LM : Limits}.

Lemma iterencode_list (indent lvl : nat) (x : json finite) (xs : list (json finite)) :
  iterencode indent (JList (x :: xs)) lvl
  = 91 :: newline_indent indent (S lvl)
      ++ join (44 :: newline_indent indent (S lvl))
           (List.map (fun v => iterencode indent v (S lvl)) (x :: xs))
      ++ newline_indent indent lvl ++ [93].
Proof. reflexivity. Qed.

Lemma iterencode_dict (indent lvl : nat) (x : str * json finite)
      (xs : list (str * json finite)) :
  iterencode indent (JDict (x :: xs)) lvl
  = 123 :: newline_indent indent (S lvl)
      ++ join (44 :: newline_indent indent (S lvl))
           (List.map (fun kv => encode_basestring_ascii (fst kv) ++ [58; 32]
                                ++ iterencode indent (snd kv) (S lvl)) (x :: xs))
      ++ newline_indent indent lvl ++ [125].
Proof.
  cbn [iterencode]. do 4 f_equal.
  apply map_ext. intros [k v]. reflexivity.
Qed.

Lemma iterencode_head (indent lvl : nat) (v : json finite) :
  exists c t, iterencode indent v lvl = c :: t /\ value_head c.
Proof.
  assert (Hh : forall c, c = 34 \/ c = 123 \/ c = 91 \/ c = 110 \/ c = 116
                         \/ c = 102 \/ c = 78 \/ c = 73 \/ c = 45 -> value_head c).
  { intros c Hc. unfold value_head, is_ws.
    destruct (Z.eqb_spec c 32), (Z.eqb_spec c 9), (Z.eqb_spec c 10), (Z.eqb_spec c 13);
      try lia; simpl; (split; [reflexivity | lia]). }
  destruct v as [|[|]|z|f|s|[|x xs]|[|x xs]];
    try rewrite iterencode_list; try rewrite iterencode_dict;
    cbn [iterencode floatstr]; unfold encode_basestring_ascii;
    autorewrite with literals;
    try (eexists _, _; split; [reflexivity | apply Hh; lia]).
  - destruct (int_repr_cases z) as (c & ds & _ & Hc & [(_ & E & _) | (_ & E & _)]);
      rewrite E; eexists _, _.
    + split; [reflexivity|]. apply value_head_digit.
      destruct Hc as [[-> _] | Hc]; lia.
    + split; [reflexivity | apply Hh; lia].
  - destruct f as [| | |x]; cbn [floatstr]; autorewrite with literals;
      try (eexists _, _; split; [reflexivity | apply Hh; lia]).
    destruct (match_number_shape _ _ (float_repr_literal x))
      as [(c & t & -> & Hc) | (c & t & -> & Hc)]; eexists _, _.
    + split; [reflexivity | apply value_head_digit; exact Hc].
    + split; [reflexivity | apply Hh; lia].
Qed.

Lemma skip_ws_value (indent lvl : nat) (v : json finite) (rest : str) :
  skip_ws (iterencode indent v lvl ++ rest) = iterencode indent v lvl ++ rest.
Proof.
  destruct (iterencode_head indent lvl v) as (c & t & -> & Hc & _).
  cbn [app]. apply skip_ws_head. exact Hc.
Qed.

Lemma newline_indent_length (indent lvl : nat) :
  (1 <= length (newline_indent indent lvl))%nat.
Proof. unfold newline_indent. cbn [length]. lia. Qed.

Lemma delimited_newline (indent lvl : nat) (s : str) :
  delimited (newline_indent indent lvl ++ s).
Proof. right. reflexivity. Qed.

Lemma skip_ws_join (indent lvl : nat) (sep rest : str) (l : list (json finite)) :
  l <> [] ->
  skip_ws (join sep (List.map (fun v => iterencode indent v lvl) l) ++ rest)
  = join sep (List.map (fun v => iterencode indent v lvl) l) ++ rest.
Proof.
  intros Hne. destruct l as [|x xs]; [congruence|].
  cbn [List.map join]. rewrite <- app_assoc. apply skip_ws_value.
Qed.

Lemma parse_array_items (indent lvl depth : nat) (rest : str)
      (l : list (json finite)) :
  Forall reads_back l -> Forall wf l -> Forall (within depth) l -> l <> [] ->
  forall (acc : list (json finite)) (fuel : nat),
    (length (join (44 :: newline_indent indent (S lvl))
               (List.map (fun v => iterencode indent v (S lvl)) l))%Z + 2 <= fuel)%nat ->
    parse_array fuel depth acc
      (join (44 :: newline_indent indent (S lvl))
         (List.map (fun v => iterencode indent v (S lvl)) l)
       ++ newline_indent indent lvl ++ 93 :: rest)
    = Ok (JList (acc ++ l), rest).
Proof.
  intros Hrb Hwf Hin. induction l as [|x xs IH]; intros Hne acc fuel Hf; [congruence|].
  inversion Hrb as [|? ? Hx Hxs]; subst.
  inversion Hwf as [|? ? Wx Wxs]; subst.
  inversion Hin as [|? ? Bx Bxs]; subst.
  destruct fuel as [|f]; [lia|].
  destruct xs as [|y ys].
  - cbn [List.map join flat_map] in *. rewrite app_nil_r in *.
    eapply parse_array_last.
    + apply Hx; [exact Wx | exact Bx | apply delimited_newline | lia].
    + rewrite skip_ws_newline_indent. reflexivity.
  - cbn [List.map] in *. rewrite join_cons2 in *.
    rewrite !length_app in Hf. cbn [length] in Hf.
    rewrite <- !app_assoc. cbn [app].
    eapply eq_trans.
    { eapply parse_array_more.
      - apply Hx; [exact Wx | exact Bx | left; reflexivity | lia].
      - reflexivity. }
    rewrite skip_ws_newline_indent.
    rewrite (skip_ws_join indent (S lvl) _ _ (y :: ys)) by congruence.
    rewrite (IH Hxs Wxs Bxs) by (try congruence; cbn [List.map]; lia).
    rewrite <- app_assoc. reflexivity.
Qed.

Lemma skip_ws_join_items (indent lvl : nat) (sep rest : str)
      (d : list (str * json finite)) :
  d <> [] ->
  skip_ws (join sep (List.map (fun kv => encode_basestring_ascii (fst kv) ++ [58; 32]
                                 ++ iterencode indent (snd kv) lvl) d) ++ rest)
  = join sep (List.map (fun kv => encode_basestring_ascii (fst kv) ++ [58; 32]
                          ++ iterencode indent (snd kv) lvl) d) ++ rest.
Proof.
  intros Hne. destruct d as [|x xs]; [congruence|]. reflexivity.
Qed.

Lemma parse_object_items (indent lvl depth : nat) (rest : str)
      (d : list (str * json finite)) :
  Forall (fun kv => reads_back (snd kv)) d ->
  Forall (fun kv => str_ok (fst kv) /\ wf (snd kv)) d ->
  Forall (fun kv => within depth (snd kv)) d ->
  d <> [] ->
  forall (acc : list (str * json finite)) (fuel : nat),
    NoDup (List.map fst (acc ++ d)) ->
    (length (join (44 :: newline_indent indent (S lvl))
               (List.map (fun kv => encode_basestring_ascii (fst kv) ++ [58; 32]
                            ++ iterencode indent (snd kv) (S lvl)) d))%Z + 2 <= fuel)%nat ->
    parse_object fuel depth acc
      (join (44 :: newline_indent indent (S lvl))
         (List.map (fun kv => encode_basestring_ascii (fst kv) ++ [58; 32]
                      ++ iterencode indent (snd kv) (S lvl)) d)
       ++ newline_indent indent lvl ++ 125 :: rest)
    = Ok (JDict (acc ++ d), rest).
Proof.
  intros Hrb Hwf Hlim.
  induction d as [|[k v] d IH]; intros Hne acc fuel Hnd Hf; [congruence|].
  inversion Hrb as [|? ? Hx Hxs]; subst.
  inversion Hwf as [|? ? [Wk Wv] Wxs]; subst.
  inversion Hlim as [|? ? Bv Bxs]; subst.
  cbn [fst snd] in *.
  assert (Hfresh : dict_set k v acc = acc ++ [(k, v)]).
  { apply dict_set_fresh. rewrite map_app in Hnd. cbn [List.map fst] in Hnd.
    apply NoDup_app in Hnd as (_ & Hdisj & _).
    intros Hin. apply (Hdisj k Hin). left. }
  assert (Hnd' : NoDup (List.map fst ((acc ++ [(k, v)]) ++ d))).
  { rewrite <- app_assoc. exact Hnd. }
  destruct fuel as [|f]; [lia|].
  assert (Hkey : forall tail,
             scanstring (S (length (flat_map escape_char k ++ 34 :: tail)))
               (flat_map escape_char k ++ 34 :: tail) = Ok (k, tail)).
  { intros tail. apply scanstring_encoded; [exact Wk|].
    rewrite length_app. pose proof (flat_map_escape_length k). lia. }
  destruct d as [|y ys].
  - cbn [List.map join flat_map fst snd] in *. rewrite app_nil_r in *.
    unfold encode_basestring_ascii in *.
    rewrite !length_app in Hf. cbn [length] in Hf. rewrite !length_app in Hf.
    rewrite <- !app_assoc. cbn [app]. rewrite <- !app_assoc. cbn [app].
    rewrite <- Hfresh.
    eapply parse_object_last.
    + apply Hkey.
    + reflexivity.
    + change (skip_ws (32 :: iterencode indent v (S lvl) ++ ?t))
        with (skip_ws (iterencode indent v (S lvl) ++ t)).
      rewrite skip_ws_value.
      apply Hx; [exact Wv | exact Bv | apply delimited_newline | lia].
    + rewrite skip_ws_newline_indent. reflexivity.
  - cbn [List.map fst snd] in *. rewrite join_cons2 in *.
    unfold encode_basestring_ascii in Hf at 1.
    unfold encode_basestring_ascii at 1.
    rewrite !length_app in Hf. cbn [length] in Hf. rewrite !length_app in Hf.
    cbn [length] in Hf.
    rewrite <- !app_assoc. cbn [app]. rewrite <- !app_assoc. cbn [app].
    eapply eq_trans.
    { eapply parse_object_more.
      - apply Hkey.
      - reflexivity.
      - change (skip_ws (32 :: iterencode indent v (S lvl) ++ ?t))
          with (skip_ws (iterencode indent v (S lvl) ++ t)).
        rewrite skip_ws_value.
        apply Hx; [exact Wv | exact Bv | left; reflexivity | lia].
      - reflexivity. }
    rewrite skip_ws_newline_indent.
    rewrite (skip_ws_join_items indent (S lvl) _ _ (y :: ys)) by congruence.
    rewrite Hfresh.
    rewrite (IH Hxs Wxs Bxs) by (try congruence; try exact Hnd'; cbn [List.map]; lia).
    rewrite <- app_assoc. reflexivity.
Qed.

Lemma scan_once_iterencode (v : json finite) : reads_back v.
Proof.
  induction v as [|b|z|f|s|l IH|d IH] using json_ind;
    intros Hwf indent lvl rest fuel depth Hin Hd Hf;
    (destruct fuel as [|fuel];
     [exfalso;
      match type of Hf with
      | (length (iterencode _ ?v _) <= _)%nat =>
          destruct (iterencode_head indent lvl v) as (c & t & E & _)
      end;
      rewrite E in Hf; simpl in Hf; lia|]).
  - cbn [iterencode]. autorewrite with literals. reflexivity.
  - destruct b; cbn [iterencode]; autorewrite with literals; reflexivity.
  - cbn [iterencode].
    rewrite (scan_once_number _ _ _ _ _ (match_number_int_repr z) Hd).
    inversion Hin as [| |? ? Hz| | | |]; subst. unfold int_ok in Hz.
    unfold number_value. rewrite Hz, int_of_str_int_repr. reflexivity.
  - destruct f as [| | |x]; cbn [iterencode floatstr];
      autorewrite with literals; try reflexivity.
    rewrite (scan_once_number _ _ _ _ _ (float_repr_literal x) Hd).
    unfold number_value. rewrite float_repr_inverse. reflexivity.
  - cbn [iterencode]. unfold encode_basestring_ascii.
    cbn [app]. rewrite <- app_assoc. cbn [app].
    apply scan_once_string. apply scanstring_encoded.
    + inversion Hwf; assumption.
    + rewrite length_app. pose proof (flat_map_escape_length s). lia.
  - destruct l as [|x xs].
    { cbn [iterencode]. autorewrite with literals. inversion Hin; subst. reflexivity. }
    rewrite iterencode_list in *. cbn [app]. rewrite <- !app_assoc. cbn [app].
    cbn [length] in Hf. rewrite !length_app in Hf. cbn [length] in Hf.
    assert (Hw : Forall wf (x :: xs)) by (inversion Hwf; assumption).
    inversion Hin as [| | | | |n ? Hb|]; subst.
    pose proof (newline_indent_length indent lvl) as Hnl.
    eapply eq_trans;
      [|apply (parse_array_items indent lvl n rest (x :: xs) IH Hw Hb
                 ltac:(congruence) [] fuel);
        lia].
    apply scan_once_list_open.
    + rewrite skip_ws_newline_indent. apply skip_ws_join. congruence.
    + destruct (iterencode_head indent (S lvl) x) as (c & t & E & _ & Hc & _).
      cbn [List.map join]. rewrite E. cbn [app]. exact Hc.
  - destruct d as [|x xs].
    { cbn [iterencode]. autorewrite with literals. inversion Hin; subst. reflexivity. }
    rewrite iterencode_dict in *. cbn [app]. rewrite <- !app_assoc. cbn [app].
    cbn [length] in Hf. rewrite !length_app in Hf. cbn [length] in Hf.
    assert (Hw : Forall (fun kv => str_ok (fst kv) /\ wf (snd kv)) (x :: xs))
      by (inversion Hwf; assumption).
    assert (Hn : NoDup (List.map fst ([] ++ x :: xs)))
      by (inversion Hwf; assumption).
    inversion Hin as [| | | | | |n ? Hb]; subst.
    pose proof (newline_indent_length indent lvl) as Hnl.
    eapply eq_trans;
      [|apply (parse_object_items indent lvl n rest (x :: xs) IH Hw Hb
                 ltac:(congruence) [] fuel Hn);
        lia].
    apply scan_once_dict_open.
    + rewrite skip_ws_newline_indent. apply skip_ws_join_items. congruence.
    + cbn [List.map join]. unfold encode_basestring_ascii. cbn [app]. lia.
Qed.

(** [json.loads(json.dumps(v, indent=n))] is [v], for a value within the
    limits of the interpreter. *)
Lemma decode_dumps (v : json finite) (indent : nat) :
  wf v -> within max_nesting v -> decode (dumps v indent) = Ok v.
Proof.
  intros Hwf Hin. unfold decode, dumps.
  destruct (iterencode_head indent 0 v) as (c & t & E & Hc & _).
  assert (Hskip : skip_ws (iterencode indent v 0) = iterencode indent v 0).
  { rewrite E. apply skip_ws_head. exact Hc. }
  rewrite Hskip.
  pose proof (scan_once_iterencode v Hwf indent 0%nat []
                (fuel_for (iterencode indent v 0)) max_nesting Hin I) as H.
  rewrite app_nil_r in H. rewrite H; [reflexivity|].
  unfold fuel_for. lia.
Qed.

Lemma loads_dumps (v : json finite) (indent : nat) :
  wf v -> within max_nesting v -> loads (dumps v indent) = Some v.
Proof. intros Hwf Hin. unfold loads. rewrite decode_dumps by assumption. reflexivity. Qed.

End RoundTrip.

(** ** What the decoder consumes *)

Lemma valid_text_suffix (r s : str) : r `suffix_of` s -> valid_text s -> valid_text r.
Proof.
  intros [k ->] H. unfold valid_text in *. apply Forall_app in H. apply H.
Qed.

Lemma skip_ws_suffix (s : str) : skip_ws s `suffix_of` s.
Proof.
  induction s as [|c s IH]; [reflexivity|].
  simpl. destruct (is_ws c); [apply suffix_cons_r; exact IH | reflexivity].
Qed.

Lemma strip_prefix_split (p s r : str) : strip_prefix p s = Some r -> s = p ++ r.
Proof.
  revert s. induction p as [|a p IH]; intros s H.
  - simpl in H. inversion H. reflexivity.
  - destruct s as [|b s]; [discriminate H|].
    simpl in H. destruct (Z.eqb_spec a b) as [-> | _]; [|discriminate H].
    simpl. f_equal. apply IH. exact H.
Qed.

Lemma span_digits_split (s ds r : str) : span_digits s = (ds, r) -> s = ds ++ r.
Proof.
  revert ds r. induction s as [|c s IH]; intros ds r H.
  - inversion H. reflexivity.
  - simpl in H. destruct (is_digit c).
    + destruct (span_digits s) as [ds' r'] eqn:E. inversion H; subst.
      simpl. f_equal. apply IH. reflexivity.
    + inversion H. reflexivity.
Qed.

Lemma scan_sign_split (s sg r : str) : scan_sign s = (sg, r) -> s = sg ++ r.
Proof.
  destruct s as [|c s]; simpl; intros H; [inversion H; reflexivity|].
  destruct (Z.eqb_spec c 45) as [-> | _]; inversion H; reflexivity.
Qed.

Lemma scan_int_part_split (s ip r : str) : scan_int_part s = Some (ip, r) -> s = ip ++ r.
Proof.
  destruct s as [|c s]; simpl; intros H; [discriminate H|].
  destruct ((49 <=? c) && (c <=? 57)).
  - destruct (span_digits s) as [ds r'] eqn:E. inversion H; subst.
    simpl. f_equal. apply span_digits_split. exact E.
  - destruct (Z.eqb_spec c 48) as [-> | _]; [|discriminate H].
    inversion H. reflexivity.
Qed.

Lemma scan_frac_split (s fr r : str) : scan_frac s = (fr, r) -> s = fr ++ r.
Proof.
  destruct s as [|d [|x s]]; simpl; intros H; try (inversion H; reflexivity).
  destruct ((d =? 46) && is_digit x).
  - destruct (span_digits s) as [fs r'] eqn:E. inversion H; subst.
    simpl. do 2 f_equal. apply span_digits_split. exact E.
  - inversion H. reflexivity.
Qed.

Lemma scan_exp_split (s ex r : str) : scan_exp s = (ex, r) -> s = ex ++ r.
Proof.
  destruct s as [|e s]; simpl; intros H; [inversion H; reflexivity|].
  destruct ((e =? 101) || (e =? 69)); [|inversion H; reflexivity].
  destruct s as [|g t].
  - simpl in H. inversion H. reflexivity.
  - destruct ((g =? 45) || (g =? 43)).
    + destruct (span_digits t) as [es r'] eqn:E.
      apply span_digits_split in E. subst t.
      destruct es; inversion H; subst; reflexivity.
    + destruct (span_digits (g :: t)) as [es r'] eqn:E.
      apply span_digits_split in E.
      destruct es; inversion H; subst; [reflexivity|].
      simpl. f_equal. simpl in E. inversion E. reflexivity.
Qed.

(** The number scanner returns the literal it consumed. *)
Lemma match_number_split (s tok r : str) (fl : bool) :
  match_number s = Some (fl, tok, r) -> s = tok ++ r.
Proof.
  unfold match_number. intros H.
  destruct (scan_sign s) as [sg s1] eqn:Esg.
  destruct (scan_int_part s1) as [[ip r1]|] eqn:Eip; [|discriminate H].
  destruct (scan_frac r1) as [fr r2] eqn:Efr.
  destruct (scan_exp r2) as [ex r3] eqn:Eex.
  apply scan_sign_split in Esg. apply scan_int_part_split in Eip.
  apply scan_frac_split in Efr. apply scan_exp_split in Eex.
  inversion H; subst. rewrite <- !app_assoc. reflexivity.
Qed.

Lemma decode_hex4_suffix (s r : str) (u : Z) :
  decode_hex4 s = Some (u, r) -> r `suffix_of` s.
Proof.
  unfold decode_hex4. intros H.
  destruct s as [|a [|b [|c [|d s]]]]; try discriminate.
  destruct (hexval a), (hexval b), (hexval c), (hexval d); try discriminate.
  inversion H; subst. exists [a; b; c; d]. reflexivity.
Qed.

(** The three ways a [\uXXXX] escape is read. *)
Lemma scan_unicode_escape_cases (s r : str) (u : Z) :
  scan_unicode_escape s = Some (u, r) ->
  r `suffix_of` s
  /\ ((0 <= u < 0x10000 /\ (is_high_surrogate u = true -> follows_ok r)
       /\ decode_hex4 s = Some (u, r))
      \/ (0x10000 <= u <= 0x10FFFF)).
Proof.
  unfold scan_unicode_escape. intros H.
  destruct (decode_hex4 s) as [[c r0]|] eqn:E; [|discriminate H].
  pose proof (decode_hex4_range _ _ _ E) as Hc.
  pose proof (decode_hex4_suffix _ _ _ E) as Hs.
  destruct (is_high_surrogate c) eqn:Hhi.
  - destruct r0 as [|a [|b r2]].
    + inversion H; subst. split; [exact Hs|]. left.
      split; [lia|]. split; [intros _; exact I | reflexivity].
    + inversion H; subst. split; [exact Hs|]. left.
      split; [lia|]. split; [intros _; exact I | reflexivity].
    + destruct ((a =? 92) && (b =? 117)) eqn:Eab.
      * destruct (decode_hex4 r2) as [[c2 r3]|] eqn:E2; [|discriminate H].
        destruct (is_low_surrogate c2) eqn:Hlow.
        -- inversion H; subst. split.
           { etrans; [|exact Hs]. do 2 apply suffix_cons_r.
             apply (decode_hex4_suffix _ _ _ E2). }
           right. rewrite join_surrogates_value. zdiv.
        -- inversion H; subst. split; [exact Hs|]. left.
           split; [lia|]. split; [|reflexivity].
           intros _. simpl. intros _. exists c2, r3. auto.
      * inversion H; subst. split; [exact Hs|]. left.
        split; [lia|]. split; [|reflexivity].
        intros _. simpl. rewrite Eab. discriminate.
  - inversion H; subst. split; [exact Hs|]. left.
    split; [lia|]. split; [intros Hh; congruence | reflexivity].
Qed.

Lemma simple_escape_values (e u : Z) :
  simple_escape e = Some u -> 0 <= u < 128.
Proof.
  unfold simple_escape. intros H.
  repeat match type of H with
         | (if ?b then _ else _) = _ => destruct b
         end; inversion H; lia.
Qed.

Lemma prepend_ok (u : Z) (x : res (str * str)) (chars r : str) :
  prepend u x = Ok (chars, r) ->
  exists chars', chars = u :: chars' /\ x = Ok (chars', r).
Proof.
  destruct x as [[chars' r']| |]; simpl; intros H; inversion H; subst. eauto.
Qed.

(** One iteration of [scanstring]: the closing quote, or one character of
    the string, read from a literal, a one-letter escape or a [\u] escape. *)
Lemma scanstring_step (f : nat) (s chars r : str) :
  scanstring (S f) s = Ok (chars, r) ->
  (exists t, s = 34 :: t /\ chars = [] /\ r = t)
  \/ (exists c t chars', s = c :: t /\ c <> 34 /\ c <> 92 /\ 0x1f < c
        /\ chars = c :: chars' /\ scanstring f t = Ok (chars', r))
  \/ (exists e u t chars', s = 92 :: e :: t /\ e <> 117 /\ simple_escape e = Some u
        /\ chars = u :: chars' /\ scanstring f t = Ok (chars', r))
  \/ (exists u t t' chars', s = 92 :: 117 :: t /\ scan_unicode_escape t = Some (u, t')
        /\ chars = u :: chars' /\ scanstring f t' = Ok (chars', r)).
Proof.
  intros H. cbn [scanstring] in H.
  destruct s as [|c s1]; [discriminate H|].
  destruct (Z.eqb_spec c 34) as [-> | H34].
  { inversion H; subst. left. eauto. }
  destruct (Z.eqb_spec c 92) as [-> | H92].
  - destruct s1 as [|e s2]; [discriminate H|].
    destruct (Z.eqb_spec e 117) as [-> | H117].
    + destruct (scan_unicode_escape s2) as [[u s3]|] eqn:E; [|discriminate H].
      apply prepend_ok in H as (chars' & -> & H).
      right; right; right. exists u, s2, s3, chars'. auto.
    + destruct (simple_escape e) as [u|] eqn:E; [|discriminate H].
      apply prepend_ok in H as (chars' & -> & H).
      right; right; left. exists e, u, s2, chars'. auto.
  - destruct (Z.leb_spec c 0x1f) as [Hle | Hgt]; [discriminate H|].
    apply prepend_ok in H as (chars' & -> & H).
    right; left. exists c, s1, chars'. repeat split; auto.
Qed.

Lemma scanstring_suffix (f : nat) (s chars r : str) :
  scanstring f s = Ok (chars, r) -> r `suffix_of` s.
Proof.
  revert s chars r. induction f as [|f IH]; intros s chars r H; [discriminate H|].
  destruct (scanstring_step _ _ _ _ H)
    as [(t & -> & _ & ->)
       | [(c & t & chars' & -> & _ & _ & _ & _ & H')
         | [(e & u & t & chars' & -> & _ & _ & _ & H')
           | (u & t & t' & chars' & -> & E & _ & H')]]].
  - apply suffix_cons_r. reflexivity.
  - apply suffix_cons_r. eapply IH. exact H'.
  - do 2 apply suffix_cons_r. eapply IH. exact H'.
  - do 2 apply suffix_cons_r. etrans; [eapply IH; exact H'|].
    apply (scan_unicode_escape_cases _ _ _ E).
Qed.

(** ** The decoder returns well-formed values *)

Lemma is_scalar_facts (c : Z) :
  is_scalar c = true ->
  in_range c /\ is_high_surrogate c = false /\ is_low_surrogate c = false.
Proof.
  unfold is_scalar, is_surrogate, in_range, is_high_surrogate, is_low_surrogate.
  intros H. zbool_in H; simpl in H; try discriminate H;
    (split; [lia|]); split; zbool; reflexivity.
Qed.

Lemma not_high_small (u : Z) : 0 <= u < 128 -> is_high_surrogate u = false.
Proof. intros H. unfold is_high_surrogate. zbool; reflexivity. Qed.

Lemma not_low_small (u : Z) : 0 <= u < 128 -> is_low_surrogate u = false.
Proof. intros H. unfold is_low_surrogate. zbool; reflexivity. Qed.

Lemma not_high_big (u : Z) : 0x10000 <= u -> is_high_surrogate u = false.
Proof. intros H. unfold is_high_surrogate. zbool; reflexivity. Qed.

Lemma not_low_big (u : Z) : 0x10000 <= u -> is_low_surrogate u = false.
Proof. intros H. unfold is_low_surrogate. zbool; reflexivity. Qed.

(** A low surrogate at the head of a decoded string was written as its own
    [\uXXXX] escape. *)
Lemma scanstring_head_low (f : nat) (s chars r : str) (h : Z) :
  valid_text s -> scanstring f s = Ok (h :: chars, r) ->
  is_low_surrogate h = true ->
  exists r2 r3, s = 92 :: 117 :: r2 /\ decode_hex4 r2 = Some (h, r3).
Proof.
  intros Hv H Hlow. destruct f as [|f]; [discriminate H|].
  destruct (scanstring_step _ _ _ _ H)
    as [(t & -> & E & _)
       | [(c & t & chars' & -> & _ & _ & _ & E & _)
         | [(e & u & t & chars' & -> & _ & Hu & E & _)
           | (u & t & t' & chars' & -> & Hu & E & _)]]].
  - discriminate E.
  - inversion E; subst. inversion Hv as [|? ? Hc _]; subst.
    apply is_scalar_facts in Hc as (_ & _ & Hc). congruence.
  - inversion E; subst. apply simple_escape_values in Hu.
    rewrite not_low_small in Hlow by exact Hu. discriminate Hlow.
  - inversion E; subst.
    destruct (scan_unicode_escape_cases _ _ _ Hu) as [_ [(_ & _ & Hd) | Hbig]].
    + eauto.
    + rewrite not_low_big in Hlow by lia. discriminate Hlow.
Qed.

Lemma scanstring_str_ok (f : nat) (s chars r : str) :
  valid_text s -> scanstring f s = Ok (chars, r) -> str_ok chars.
Proof.
  revert s chars r. induction f as [|f IH]; intros s chars r Hv H; [discriminate H|].
  assert (Hcons : forall u chars', in_range u -> str_ok chars' ->
            (is_high_surrogate u = true ->
             match chars' with
             | b :: _ => is_low_surrogate b = false
             | [] => True
             end) ->
            str_ok (u :: chars')).
  { intros u chars' Hu [Hr Hp] Hh. split; [constructor; assumption|].
    split; [|exact Hp]. destruct chars' as [|b chars'']; [exact I|].
    intros [H1 H2]. specialize (Hh H1). congruence. }
  destruct (scanstring_step _ _ _ _ H)
    as [(t & -> & -> & _)
       | [(c & t & chars' & -> & _ & _ & _ & -> & H')
         | [(e & u & t & chars' & -> & _ & Hu & -> & H')
           | (u & t & t' & chars' & -> & Hu & -> & H')]]].
  - split; [constructor | exact I].
  - inversion Hv as [|? ? Hc Ht]; subst.
    apply is_scalar_facts in Hc as (Hc & Hh & _).
    apply Hcons; [exact Hc | eapply IH; eassumption | congruence].
  - apply simple_escape_values in Hu.
    apply Hcons.
    + unfold in_range. lia.
    + eapply IH; [|exact H']. eapply valid_text_suffix; [|exact Hv].
      do 2 apply suffix_cons_r. reflexivity.
    + rewrite not_high_small by exact Hu. discriminate.
  - destruct (scan_unicode_escape_cases _ _ _ Hu) as [Hsuf Hcase].
    assert (Hv' : valid_text t').
    { eapply valid_text_suffix; [|exact Hv]. do 2 apply suffix_cons_r. exact Hsuf. }
    apply Hcons.
    + unfold in_range. destruct Hcase as [(? & _) | ?]; lia.
    + eapply IH; eassumption.
    + intros Hh. destruct Hcase as [(_ & Hf & _) | Hbig].
      * specialize (Hf Hh). destruct chars' as [|b chars'']; [exact I|].
        destruct (is_low_surrogate b) eqn:Hlow; [|reflexivity].
        destruct (scanstring_head_low _ _ _ _ _ Hv' H' Hlow) as (r2 & r3 & -> & Hd).
        simpl in Hf. destruct (Hf eq_refl) as (c2 & r3' & Hd' & Hc2).
        congruence.
      * rewrite not_high_big in Hh by lia. discriminate Hh.
Qed.

(** [dict_set] keeps the keys distinct and the entries well-formed. *)
Lemma dict_set_keys {V : Type} (k : str) (v : V) (d : list (str * V)) :
  NoDup (List.map fst d) -> NoDup (List.map fst (dict_set k v d)).
Proof.
  destruct (decide (k ∈ List.map fst d)) as [Hin | Hout].
  - assert (E : List.map fst (dict_set k v d) = List.map fst d); [|rewrite E; auto].
    induction d as [|[k' v'] d IH]; simpl in *.
    + apply elem_of_nil in Hin. contradiction.
    + destruct (decide (k = k')) as [-> | Hne]; simpl; [reflexivity|].
      f_equal. apply IH. apply elem_of_cons in Hin as [? | ?]; [congruence | assumption].
  - rewrite dict_set_fresh by exact Hout. rewrite map_app. simpl.
    intros Hd. apply NoDup_app. split; [exact Hd|]. split.
    + intros x Hx Hk. apply list_elem_of_singleton in Hk. subst. contradiction.
    + apply NoDup_singleton.
Qed.

Lemma dict_set_Forall {V : Type} (P : str * V -> Prop) (k : str) (v : V)
      (d : list (str * V)) :
  P (k, v) -> Forall P d -> Forall P (dict_set k v d).
Proof.
  intros Hkv. induction 1 as [|[k' v'] d Hx Hd IH]; simpl.
  - constructor; [exact Hkv | constructor].
  - destruct (decide (k = k')) as [<- | _]; constructor; assumption.
Qed.

Lemma skip_ws_cons_suffix (s r : str) (c : Z) :
  skip_ws s = c :: r -> (c :: r) `suffix_of` s /\ r `suffix_of` s.
Proof.
  intros E. pose proof (skip_ws_suffix s) as H. rewrite E in H.
  split; [exact H | eapply suffix_cons_l; exact H].
Qed.

Section DecoderWf.

Context {FM : FloatModel} {LM : Limits}.

Lemma wf_empty_dict : wf (JDict ([] : list (str * json finite))).
Proof. constructor; [apply NoDup_nil_2 | constructor]. Qed.

Lemma wf_dict_set (key : str) (val : json finite) (d : list (str * json finite)) :
  str_ok key -> wf val -> wf (JDict d) -> wf (JDict (dict_set key val d)).
Proof.
  intros Hk Hv Hd. inversion Hd as [| | | | | |? Hnd Hall]; subst.
  constructor.
  - apply dict_set_keys. exact Hnd.
  - apply dict_set_Forall; [split; assumption | exact Hall].
Qed.

Lemma and_rest_ok {A : Type} (x : res A) (r r' : str) (a : A) :
  and_rest x r = Ok (a, r') -> x = Ok a /\ r' = r.
Proof. destruct x; simpl; intros H; inversion H; auto. Qed.

Lemma number_value_ok (fl : bool) (tok : str) (v : json finite) :
  number_value fl tok = Ok v ->
  (fl = true /\ v = JFloat (float_of_str tok))
  \/ (fl = false /\ too_many_digits (int_digits tok) = false
      /\ v = JInt (int_of_str tok)).
Proof.
  unfold number_value. destruct fl.
  - intros H. inversion H. auto.
  - destruct (too_many_digits (int_digits tok)); intros H; inversion H. auto.
Qed.

Lemma scan_atom_wf (s r : str) (v : json finite) :
  scan_atom s = Ok (v, r) -> wf v /\ r `suffix_of` s.
Proof.
  unfold scan_atom. intros H.
  repeat match type of H with
         | match strip_prefix ?p s with _ => _ end = _ =>
             let E := fresh "E" in
             destruct (strip_prefix p s) as [r'|] eqn:E;
             [apply strip_prefix_split in E; inversion H; subst;
              split; [constructor | eexists; reflexivity]|]
         end.
  destruct (match_number s) as [[[fl tok] r']|] eqn:Enum; [|discriminate H].
  apply match_number_split in Enum.
  apply and_rest_ok in H as [H ->]. subst s.
  split; [|eexists; reflexivity].
  apply number_value_ok in H as [(_ & ->) | (_ & _ & ->)]; constructor.
Qed.

(** A smaller number of digits passes the check of [int] when a larger
    one does. *)
Lemma too_many_digits_mono (n m : nat) :
  (n <= m)%nat -> too_many_digits m = false -> too_many_digits n = false.
Proof.
  unfold too_many_digits. intros Hle H.
  destruct (Nat.ltb_spec str_digits_check_threshold n); [|reflexivity].
  destruct (Nat.ltb_spec 0 int_max_str_digits); [|reflexivity].
  destruct (Nat.ltb_spec int_max_str_digits n); [|reflexivity].
  exfalso.
  destruct (Nat.ltb_spec str_digits_check_threshold m); [|lia].
  destruct (Nat.ltb_spec int_max_str_digits m); [|lia].
  discriminate H.
Qed.

(** An atom is within the limits at any depth: the integer it may be has
    passed the check of [int], and so does its [repr]. *)
Lemma scan_atom_within (n : nat) (s r : str) (v : json finite) :
  scan_atom s = Ok (v, r) -> within n v.
Proof.
  unfold scan_atom. intros H.
  repeat match type of H with
         | match strip_prefix ?p s with _ => _ end = _ =>
             destruct (strip_prefix p s) as [r'|];
             [inversion H; subst; constructor|]
         end.
  destruct (match_number s) as [[[fl tok] r']|] eqn:Enum; [|discriminate H].
  apply and_rest_ok in H as [H _].
  apply number_value_ok in H as [(_ & ->) | (-> & Hd & ->)]; constructor.
  destruct (match_number_int _ _ _ Enum) as (ip & Hne & Hip & Hv & Hlen).
  unfold int_ok. eapply too_many_digits_mono; [|exact Hd].
  rewrite Hlen. apply int_digits_int_repr; [exact Hne | exact Hip|].
  pose proof (digits_value_upper ip Hip).
  destruct Hv as [[_ ->] | [_ ->]]; lia.
Qed.

(** The three scanners together, by induction on the budget. *)
Lemma decode_wf (fuel : nat) :
  (forall n s v r, valid_text s -> scan_once fuel n s = Ok (v, r) ->
                   wf v /\ r `suffix_of` s)
  /\ (forall n d s v r, valid_text s -> wf (JDict d) ->
                        parse_object fuel n d s = Ok (v, r) ->
                        wf v /\ r `suffix_of` s)
  /\ (forall n l s v r, valid_text s -> Forall wf l ->
                        parse_array fuel n l s = Ok (v, r) ->
                        wf v /\ r `suffix_of` s).
Proof.
  induction fuel as [|f (IH1 & IH2 & IH3)].
  { repeat split; intros; discriminate. }
  split; [|split].
  - intros n s v r Hv H. scan_step_in H.
    destruct s as [|c r0]; [discriminate H|].
    assert (Hv0 : valid_text r0) by (inversion Hv; assumption).
    destruct (Z.eqb_spec c 34) as [-> | _].
    { destruct (scanstring (S (length r0)) r0) as [[chars r']| |] eqn:E;
        try discriminate H.
      inversion H; subst. split.
      - constructor. eapply scanstring_str_ok; eassumption.
      - apply suffix_cons_r. eapply scanstring_suffix; eassumption. }
    destruct (Z.eqb_spec c 123) as [-> | _].
    { destruct n as [|n]; [discriminate H|].
      destruct (skip_ws r0) as [|c1 r1] eqn:E; [discriminate H|].
      apply skip_ws_cons_suffix in E as [E1 E2].
      destruct (Z.eqb_spec c1 125) as [-> | _].
      - inversion H; subst. split; [apply wf_empty_dict|].
        apply suffix_cons_r. exact E2.
      - destruct (IH2 n [] (c1 :: r1) v r) as [W S']; auto.
        + eapply valid_text_suffix; eassumption.
        + apply wf_empty_dict.
        + split; [exact W|]. apply suffix_cons_r. etrans; eassumption. }
    destruct (Z.eqb_spec c 91) as [-> | _].
    { destruct n as [|n]; [discriminate H|].
      destruct (skip_ws r0) as [|c1 r1] eqn:E; [discriminate H|].
      apply skip_ws_cons_suffix in E as [E1 E2].
      destruct (Z.eqb_spec c1 93) as [-> | _].
      - inversion H; subst. split; [constructor; constructor|].
        apply suffix_cons_r. exact E2.
      - destruct (IH3 n [] (c1 :: r1) v r) as [W S']; auto.
        + eapply valid_text_suffix; eassumption.
        + split; [exact W|]. apply suffix_cons_r. etrans; eassumption. }
    apply scan_atom_wf. exact H.
  - intros n d s v r Hv Hd H. scan_step_in H.
    destruct s as [|c r0]; [discriminate H|].
    assert (Hv0 : valid_text r0) by (inversion Hv; assumption).
    destruct (Z.eqb_spec c 34) as [-> | _]; [|discriminate H].
    destruct (scanstring (S (length r0)) r0) as [[key r1]| |] eqn:Ek;
      try discriminate H.
    pose proof (scanstring_str_ok _ _ _ _ Hv0 Ek) as Hkey.
    pose proof (scanstring_suffix _ _ _ _ Ek) as S1.
    destruct (skip_ws r1) as [|c1 r2] eqn:E1; [discriminate H|].
    apply skip_ws_cons_suffix in E1 as [_ S2].
    destruct (Z.eqb_spec c1 58) as [-> | _]; [|discriminate H].
    destruct (scan_once f n (skip_ws r2)) as [[val r3]| |] eqn:Ev;
      try discriminate H.
    assert (S3 : skip_ws r2 `suffix_of` r0).
    { etrans; [apply skip_ws_suffix|]. etrans; eassumption. }
    destruct (IH1 _ _ _ _ (valid_text_suffix _ _ S3 Hv0) Ev) as [Wval S4].
    pose proof (wf_dict_set key val d Hkey Wval Hd) as Hd'.
    destruct (skip_ws r3) as [|c2 r4] eqn:E3; [discriminate H|].
    apply skip_ws_cons_suffix in E3 as [_ S5].
    assert (S6 : r4 `suffix_of` r0).
    { etrans; [exact S5|]. etrans; eassumption. }
    destruct (Z.eqb_spec c2 125) as [-> | _].
    { inversion H; subst. split; [exact Hd'|]. apply suffix_cons_r. exact S6. }
    destruct (Z.eqb_spec c2 44) as [-> | _]; [|discriminate H].
    assert (S7 : skip_ws r4 `suffix_of` r0).
    { etrans; [apply skip_ws_suffix | exact S6]. }
    destruct (IH2 _ _ _ _ _ (valid_text_suffix _ _ S7 Hv0) Hd' H) as [W S8].
    split; [exact W|]. apply suffix_cons_r. etrans; eassumption.
  - intros n l s v r Hv Hl H. scan_step_in H.
    destruct (scan_once f n s) as [[val r1]| |] eqn:Ev; try discriminate H.
    destruct (IH1 _ _ _ _ Hv Ev) as [Wval S1].
    assert (Hl' : Forall wf (l ++ [val])).
    { apply Forall_app. split; [exact Hl | constructor; [exact Wval | constructor]]. }
    destruct (skip_ws r1) as [|c r2] eqn:E1; [discriminate H|].
    apply skip_ws_cons_suffix in E1 as [_ S2].
    assert (S3 : r2 `suffix_of` s) by (etrans; eassumption).
    destruct (Z.eqb_spec c 93) as [-> | _].
    { inversion H; subst. split; [constructor; exact Hl' | exact S3]. }
    destruct (Z.eqb_spec c 44) as [-> | _]; [|discriminate H].
    assert (S4 : skip_ws r2 `suffix_of` s).
    { etrans; [apply skip_ws_suffix | exact S3]. }
    destruct (IH3 _ _ _ _ _ (valid_text_suffix _ _ S4 Hv) Hl' H) as [W S5].
    split; [exact W|]. etrans; eassumption.
Qed.

(** What the scanners return is within the limits they ran under: a
    container was entered only where the depth allowed it. *)
Lemma decode_within (fuel : nat) :
  (forall n s v r, scan_once fuel n s = Ok (v, r) -> within n v)
  /\ (forall n d s v r, Forall (fun kv => within n (snd kv)) d ->
                        parse_object fuel n d s = Ok (v, r) -> within (S n) v)
  /\ (forall n l s v r, Forall (within n) l ->
                        parse_array fuel n l s = Ok (v, r) -> within (S n) v).
Proof.
  induction fuel as [|f (IH1 & IH2 & IH3)].
  { repeat split; intros; discriminate. }
  split; [|split].
  - intros n s v r H. scan_step_in H.
    destruct s as [|c r0]; [discriminate H|].
    destruct (c =? 34).
    { destruct (scanstring (S (length r0)) r0) as [[chars r']| |];
        try discriminate H.
      inversion H; subst. constructor. }
    destruct (c =? 123).
    { destruct n as [|n]; [discriminate H|].
      destruct (skip_ws r0) as [|c1 r1]; [discriminate H|].
      destruct (c1 =? 125).
      - inversion H; subst. constructor. constructor.
      - eapply IH2; [|exact H]. constructor. }
    destruct (c =? 91).
    { destruct n as [|n]; [discriminate H|].
      destruct (skip_ws r0) as [|c1 r1]; [discriminate H|].
      destruct (c1 =? 93).
      - inversion H; subst. constructor. constructor.
      - eapply IH3; [|exact H]. constructor. }
    eapply scan_atom_within. exact H.
  - intros n d s v r Hd H. scan_step_in H.
    destruct s as [|c r0]; [discriminate H|].
    destruct (c =? 34); [|discriminate H].
    destruct (scanstring (S (length r0)) r0) as [[key r1]| |];
      try discriminate H.
    destruct (skip_ws r1) as [|c1 r2]; [discriminate H|].
    destruct (c1 =? 58); [|discriminate H].
    destruct (scan_once f n (skip_ws r2)) as [[val r3]| |] eqn:Ev;
      try discriminate H.
    pose proof (IH1 _ _ _ _ Ev) as Bval.
    assert (Hd' : Forall (fun kv => within n (snd kv)) (dict_set key val d)).
    { apply dict_set_Forall; [exact Bval | exact Hd]. }
    destruct (skip_ws r3) as [|c2 r4]; [discriminate H|].
    destruct (c2 =? 125).
    { inversion H; subst. constructor. exact Hd'. }
    destruct (c2 =? 44); [|discriminate H].
    eapply IH2; [exact Hd' | exact H].
  - intros n l s v r Hl H. scan_step_in H.
    destruct (scan_once f n s) as [[val r1]| |] eqn:Ev; try discriminate H.
    pose proof (IH1 _ _ _ _ Ev) as Bval.
    assert (Hl' : Forall (within n) (l ++ [val])).
    { apply Forall_app. split; [exact Hl | constructor; [exact Bval | constructor]]. }
    destruct (skip_ws r1) as [|c r2]; [discriminate H|].
    destruct (c =? 93).
    { inversion H; subst. constructor. exact Hl'. }
    destruct (c =? 44); [|discriminate H].
    eapply IH3; [exact Hl' | exact H].
Qed.

(** [loads] returns a value exactly when [decode] does. *)
Lemma loads_decode (s : str) (v : json finite) :
  loads s = Some v <-> decode s = Ok v.
Proof.
  unfold loads. destruct (decode s); split; intros H; inversion H; reflexivity.
Qed.

Lemma decode_scan (s : str) (v : json finite) :
  decode s = Ok v ->
  exists r, scan_once (fuel_for s) max_nesting (skip_ws s) = Ok (v, r)
            /\ skip_ws r = [].
Proof.
  unfold decode. intros H.
  destruct (scan_once (fuel_for s) max_nesting (skip_ws s)) as [[v' r]| |];
    try discriminate H.
  destruct (skip_ws r) eqn:E; [|discriminate H]. inversion H; subst. eauto.
Qed.

(** A decoded body is well-formed and within the limits. *)
Lemma loads_wf (s : str) (v : json finite) :
  valid_text s -> loads s = Some v -> wf v.
Proof.
  intros Hv H. apply loads_decode, decode_scan in H as (r & E & _).
  destruct (decode_wf (fuel_for s)) as (IH1 & _ & _).
  apply (IH1 _ _ _ _ (valid_text_suffix _ _ (skip_ws_suffix s) Hv) E).
Qed.

Lemma loads_within (s : str) (v : json finite) :
  loads s = Some v -> within max_nesting v.
Proof.
  intros H. apply loads_decode, decode_scan in H as (r & E & _).
  destruct (decode_within (fuel_for s)) as (IH1 & _ & _).
  apply (IH1 _ _ _ _ E).
Qed.

End DecoderWf.

(** ** The budget of the decoder is enough *)

Lemma prepend_fuel (u : Z) (x : res (str * str)) :
  x <> OutOfFuel -> prepend u x <> OutOfFuel.
Proof. destruct x as [[chars r]| |]; simpl; congruence. Qed.

(** [scanstring] consumes a character at each iteration. *)
Lemma scanstring_fuel (f : nat) (s : str) :
  (length s < f)%nat -> scanstring f s <> OutOfFuel.
Proof.
  revert s. induction f as [|f IH]; intros s Hf; [lia|].
  cbn [scanstring]. destruct s as [|c s1]; [discriminate|].
  cbn [length] in Hf.
  destruct (c =? 34); [discriminate|].
  destruct (c =? 92).
  - destruct s1 as [|e s2]; [discriminate|]. cbn [length] in Hf.
    destruct (e =? 117).
    + destruct (scan_unicode_escape s2) as [[u s3]|] eqn:E; [|discriminate].
      apply prepend_fuel, IH.
      destruct (scan_unicode_escape_cases _ _ _ E) as [Hs _].
      apply suffix_length in Hs. lia.
    + destruct (simple_escape e); [|discriminate].
      apply prepend_fuel, IH. lia.
  - destruct (c <=? 31); [discriminate|].
    apply prepend_fuel, IH. lia.
Qed.

Section DecoderFuel.

Context {FM : FloatModel} {LM : Limits}.

Lemma scan_atom_fuel (s : str) : scan_atom s <> OutOfFuel.
Proof.
  unfold scan_atom.
  repeat match goal with
         | |- match ?x with _ => _ end <> _ => destruct x as [?|]; [discriminate|]
         end.
  destruct (match_number s) as [[[fl tok] r]|]; [|discriminate].
  unfold number_value. destruct fl; [discriminate|].
  destruct (too_many_digits (int_digits tok)); discriminate.
Qed.

(** What the three scanners leave is a suffix of what they were given. *)
Lemma decode_suffix (fuel : nat) :
  (forall n s v r, scan_once fuel n s = Ok (v, r) -> r `suffix_of` s)
  /\ (forall n d s v r, parse_object fuel n d s = Ok (v, r) -> r `suffix_of` s)
  /\ (forall n l s v r, parse_array fuel n l s = Ok (v, r) -> r `suffix_of` s).
Proof.
  induction fuel as [|f (IH1 & IH2 & IH3)].
  { repeat split; intros; discriminate. }
  split; [|split].
  - intros n s v r H. scan_step_in H.
    destruct s as [|c r0]; [discriminate H|].
    destruct (c =? 34).
    { destruct (scanstring (S (length r0)) r0) as [[chars r']| |] eqn:E;
        try discriminate H.
      inversion H; subst. apply suffix_cons_r. eapply scanstring_suffix; eassumption. }
    destruct (c =? 123).
    { destruct n as [|n]; [discriminate H|].
      destruct (skip_ws r0) as [|c1 r1] eqn:E; [discriminate H|].
      apply skip_ws_cons_suffix in E as [E1 E2].
      destruct (c1 =? 125).
      - inversion H; subst. apply suffix_cons_r. exact E2.
      - apply suffix_cons_r. etrans; [eapply IH2; exact H | exact E1]. }
    destruct (c =? 91).
    { destruct n as [|n]; [discriminate H|].
      destruct (skip_ws r0) as [|c1 r1] eqn:E; [discriminate H|].
      apply skip_ws_cons_suffix in E as [E1 E2].
      destruct (c1 =? 93).
      - inversion H; subst. apply suffix_cons_r. exact E2.
      - apply suffix_cons_r. etrans; [eapply IH3; exact H | exact E1]. }
    apply scan_atom_wf in H. apply H.
  - intros n d s v r H. scan_step_in H.
    destruct s as [|c r0]; [discriminate H|].
    destruct (c =? 34); [|discriminate H].
    destruct (scanstring (S (length r0)) r0) as [[key r1]| |] eqn:Ek;
      try discriminate H.
    pose proof (scanstring_suffix _ _ _ _ Ek) as S1.
    destruct (skip_ws r1) as [|c1 r2] eqn:E1; [discriminate H|].
    apply skip_ws_cons_suffix in E1 as [_ S2].
    destruct (c1 =? 58); [|discriminate H].
    destruct (scan_once f n (skip_ws r2)) as [[val r3]| |] eqn:Ev;
      try discriminate H.
    pose proof (IH1 _ _ _ _ Ev) as S3.
    pose proof (skip_ws_suffix r2) as S4.
    destruct (skip_ws r3) as [|c2 r4] eqn:E3; [discriminate H|].
    apply skip_ws_cons_suffix in E3 as [_ S5].
    assert (S6 : r4 `suffix_of` r0).
    { etrans; [exact S5|]. etrans; [exact S3|]. etrans; [exact S4|].
      etrans; eassumption. }
    destruct (c2 =? 125).
    { inversion H; subst. apply suffix_cons_r. exact S6. }
    destruct (c2 =? 44); [|discriminate H].
    apply suffix_cons_r. etrans; [eapply IH2; exact H|].
    etrans; [apply skip_ws_suffix | exact S6].
  - intros n l s v r H. scan_step_in H.
    destruct (scan_once f n s) as [[val r1]| |] eqn:Ev; try discriminate H.
    pose proof (IH1 _ _ _ _ Ev) as S1.
    destruct (skip_ws r1) as [|c r2] eqn:E1; [discriminate H|].
    apply skip_ws_cons_suffix in E1 as [_ S2].
    destruct (c =? 93).
    { inversion H; subst. etrans; eassumption. }
    destruct (c =? 44); [|discriminate H].
    etrans; [eapply IH3; exact H|].
    etrans; [apply skip_ws_suffix|]. etrans; eassumption.
Qed.

(** With a budget above twice the length of the input no scanner stops for
    lack of it: every level of nesting and every item consumes a
    character. *)
Lemma decode_fuel (fuel : nat) :
  (forall n s, (2 * length s < fuel)%nat -> scan_once fuel n s <> OutOfFuel)
  /\ (forall n d s, (2 * length s + 1 < fuel)%nat ->
                    parse_object fuel n d s <> OutOfFuel)
  /\ (forall n l s, (2 * length s + 1 < fuel)%nat ->
                    parse_array fuel n l s <> OutOfFuel).
Proof.
  induction fuel as [|f (IH1 & IH2 & IH3)].
  { repeat split; intros; lia. }
  split; [|split].
  - intros n s Hf. scan_step.
    destruct s as [|c r0]; [discriminate|]. cbn [length] in Hf.
    destruct (c =? 34).
    { pose proof (scanstring_fuel (S (length r0)) r0 ltac:(lia)) as Hs.
      destruct (scanstring (S (length r0)) r0) as [[chars r']| |];
        congruence. }
    destruct (c =? 123).
    { destruct n as [|n]; [discriminate|].
      destruct (skip_ws r0) as [|c1 r1] eqn:E; [discriminate|].
      apply skip_ws_cons_suffix in E as [E1 _]. apply suffix_length in E1.
      destruct (c1 =? 125); [discriminate|]. apply IH2. lia. }
    destruct (c =? 91).
    { destruct n as [|n]; [discriminate|].
      destruct (skip_ws r0) as [|c1 r1] eqn:E; [discriminate|].
      apply skip_ws_cons_suffix in E as [E1 _]. apply suffix_length in E1.
      destruct (c1 =? 93); [discriminate|]. apply IH3. lia. }
    apply scan_atom_fuel.
  - intros n d s Hf. scan_step.
    destruct s as [|c r0]; [discriminate|]. cbn [length] in Hf.
    destruct (c =? 34); [|discriminate].
    pose proof (scanstring_fuel (S (length r0)) r0 ltac:(lia)) as Hs.
    destruct (scanstring (S (length r0)) r0) as [[key r1]| |] eqn:Ek;
      try congruence.
    apply scanstring_suffix, suffix_length in Ek.
    destruct (skip_ws r1) as [|c1 r2] eqn:E1; [discriminate|].
    apply skip_ws_cons_suffix in E1 as [E1 _]. apply suffix_length in E1.
    cbn [length] in E1.
    destruct (c1 =? 58); [|discriminate].
    pose proof (suffix_length _ _ (skip_ws_suffix r2)) as E2.
    pose proof (IH1 n (skip_ws r2) ltac:(lia)) as Hv.
    destruct (scan_once f n (skip_ws r2)) as [[val r3]| |] eqn:Ev; try congruence.
    destruct (decode_suffix f) as (Hsuf & _ & _).
    apply Hsuf, suffix_length in Ev.
    destruct (skip_ws r3) as [|c2 r4] eqn:E3; [discriminate|].
    apply skip_ws_cons_suffix in E3 as [E3 _]. apply suffix_length in E3.
    cbn [length] in E3.
    destruct (c2 =? 125); [discriminate|].
    destruct (c2 =? 44); [|discriminate].
    pose proof (suffix_length _ _ (skip_ws_suffix r4)) as E4.
    apply IH2. lia.
  - intros n l s Hf. scan_step.
    pose proof (IH1 n s ltac:(lia)) as Hv.
    destruct (scan_once f n s) as [[val r1]| |] eqn:Ev; try congruence.
    destruct (decode_suffix f) as (Hsuf & _ & _).
    apply Hsuf, suffix_length in Ev.
    destruct (skip_ws r1) as [|c r2] eqn:E1; [discriminate|].
    apply skip_ws_cons_suffix in E1 as [E1 _]. apply suffix_length in E1.
    cbn [length] in E1.
    destruct (c =? 93); [discriminate|].
    destruct (c =? 44); [|discriminate].
    pose proof (suffix_length _ _ (skip_ws_suffix r2)) as E2.
    apply IH3. lia.
Qed.

(** The budget [decode] gives is never used up: what it returns is a value
    or a failure of the scanner. *)
Lemma loads_fuel (s : str) (n : nat) : scan_once (fuel_for s) n (skip_ws s) <> OutOfFuel.
Proof.
  destruct (decode_fuel (fuel_for s)) as (H & _ & _). apply H.
  pose proof (suffix_length _ _ (skip_ws_suffix s)). unfold fuel_for. lia.
Qed.

Lemma decode_total (s : str) : decode s <> OutOfFuel.
Proof.
  unfold decode. pose proof (loads_fuel s max_nesting) as H.
  destruct (scan_once (fuel_for s) max_nesting (skip_ws s)) as [[v r]| |];
    [destruct (skip_ws r); discriminate | discriminate | congruence].
Qed.

(** [loads] returns nothing exactly when [decode] fails, and then with one
    of the three failures. *)
Lemma loads_none (s : str) : loads s = None <-> exists e, decode s = Err e.
Proof.
  unfold loads. pose proof (decode_total s) as H.
  destruct (decode s) as [v|e|]; split; intros H'; try discriminate H'; eauto.
  - destruct H' as [e H']. discriminate H'.
  - congruence.
Qed.

End DecoderFuel.

(** ** The whole-number float model satisfies the laws *)

Lemma span_digits_stop (ds t : str) (h : Z) :
  Forall (fun c => is_digit c = true) ds -> is_digit h = false ->
  span_digits (ds ++ h :: t) = (ds, h :: t).
Proof.
  intros Hds Hh. induction Hds as [|c ds Hc _ IH]; simpl.
  - rewrite Hh. reflexivity.
  - rewrite Hc, IH. reflexivity.
Qed.

Lemma scan_whole_repr (z : Z) :
  exists sg ip,
    scan_sign (whole_repr z) = (sg, ip ++ [46; 48])
    /\ scan_int_part (ip ++ [46; 48]) = Some (ip, [46; 48])
    /\ sg ++ ip = int_repr z.
Proof.
  unfold whole_repr.
  assert (Hip : forall c ds,
             Forall (fun c => is_digit c = true) ds ->
             (c = 48 /\ ds = []) \/ 49 <= c <= 57 ->
             scan_int_part ((c :: ds) ++ [46; 48]) = Some (c :: ds, [46; 48])).
  { intros c ds Hds [[-> ->] | Hc]; [reflexivity|].
    cbn [app scan_int_part].
    replace ((49 <=? c) && (c <=? 57)) with true
      by (symmetry; apply andb_true_iff; split; apply Z.leb_le; lia).
    rewrite span_digits_stop by (assumption || reflexivity). reflexivity. }
  destruct (int_repr_cases z) as (c & ds & Hds & Hc & [(_ & E & _) | (_ & E & _)]);
    rewrite E.
  - exists [], (c :: ds). split; [|split; [apply Hip; assumption | reflexivity]].
    cbn [app scan_sign]. destruct (Z.eqb_spec c 45); [lia | reflexivity].
  - exists [45], (c :: ds). split; [reflexivity|].
    split; [apply Hip; assumption | reflexivity].
Qed.

#[export] Instance whole_laws : FloatLaws whole.
Proof.
  split; intros z; cbn [float_repr float_of_str whole finite];
    destruct (scan_whole_repr z) as (sg & ip & Hsg & Hip & E).
  - unfold match_number. rewrite Hsg, Hip. cbn.
    unfold whole_repr. rewrite <- E, <- app_assoc. reflexivity.
  - unfold whole_of_str. rewrite Hsg, Hip, E, int_of_str_int_repr. reflexivity.
Qed.

(** ** The runs of the script *)

(** A text without surrogates, by three sufficient conditions. *)
Lemma has_surrogate_false (s : str) :
  Forall (fun c => is_surrogate c = false) s -> has_surrogate s = false.
Proof.
  induction 1 as [|c s Hc _ IH]; [reflexivity|].
  unfold has_surrogate in *. cbn [existsb]. rewrite Hc, IH. reflexivity.
Qed.

Lemma valid_text_encodable (s : str) : valid_text s -> has_surrogate s = false.
Proof.
  intros H. apply has_surrogate_false. eapply Forall_impl; [exact H|].
  intros c Hc. unfold is_scalar in Hc.
  apply andb_true_iff in Hc as [_ Hc]. apply negb_true_iff in Hc. exact Hc.
Qed.

Lemma all_ws_encodable (s : str) : all_ws s -> has_surrogate s = false.
Proof.
  intros H. apply has_surrogate_false. eapply Forall_impl; [exact H|].
  intros c Hc. unfold is_ws in Hc. unfold is_surrogate.
  destruct (Z.eqb_spec c 32), (Z.eqb_spec c 9), (Z.eqb_spec c 10), (Z.eqb_spec c 13);
    subst; try reflexivity; discriminate Hc.
Qed.

Lemma plain_encodable (s : str) :
  Forall (fun c => is_plain c = true) s -> has_surrogate s = false.
Proof.
  intros H. apply has_surrogate_false. eapply Forall_impl; [exact H|].
  intros c Hc. unfold is_plain in Hc. unfold is_surrogate.
  zbool_in Hc; simpl in Hc; try discriminate Hc; zbool; reflexivity.
Qed.

Lemma has_surrogate_app (a b : str) :
  has_surrogate (a ++ b) = has_surrogate a || has_surrogate b.
Proof. apply existsb_app. Qed.

(** The raw write takes all of a text that the file may grow by. *)
Lemma accepted_le (cap : option nat) (size n : nat) : (accepted cap size n <= n)%nat.
Proof. unfold accepted. destruct cap; lia. Qed.

Lemma on_disk_in_buffer {FM : FloatModel} (w : world) (s : str) :
  on_disk w s ++ in_buffer w s = s.
Proof.
  unfold on_disk, in_buffer.
  destruct (length s <? buffer_size w)%nat; [reflexivity | apply take_drop].
Qed.

Section Runs.

Context {FM : FloatModel} {LM : Limits}.
Variable net : request -> transport_failure + response.

(** The world after the request has been issued. *)
Lemma requests_get_the_request (w : world) :
  requests_get net (url_of provider remoteOrganizationName) headers w
  = (match net the_request with
     | inl k => inl (RequestException k)
     | inr r => inr r
     end,
     {| stdout := stdout w; fs := fs w; files := files w;
        sent := sent w ++ [the_request]; locked := locked w;
        capacity := capacity w; buffer_size := buffer_size w |}).
Proof.
  unfold requests_get. fold the_request. destruct (net the_request); reflexivity.
Qed.

Lemma main_transport_error (w : world) (k : transport_failure) :
  net the_request = inl k ->
  main net w = (inl (RequestException k), after w []).
Proof.
  intros Hnet. unfold main, bind. rewrite requests_get_the_request, Hnet.
  unfold after. rewrite app_nil_r. reflexivity.
Qed.

Lemma print_returns (x : printed) (w : world) :
  unencodable x = false ->
  print x w
  = (inr tt, {| stdout := stdout w ++ [x]; fs := fs w; files := files w;
                sent := sent w; locked := locked w;
                capacity := capacity w; buffer_size := buffer_size w |}).
Proof. intros H. unfold print. rewrite H. reflexivity. Qed.

Lemma print_raises (x : printed) (w : world) :
  unencodable x = true -> print x w = (inl UnicodeEncodeError, w).
Proof. intros H. unfold print. rewrite H. reflexivity. Qed.

Lemma response_json_returns (r : response) (v : json finite) (w : world) :
  decode (text r) = Ok v -> response_json r w = (inr v, w).
Proof. intros H. unfold response_json. rewrite H. reflexivity. Qed.

Lemma response_json_raises (r : response) (e : failure) (w : world) :
  decode (text r) = Err e -> response_json r w = (inl (raised e), w).
Proof. intros H. unfold response_json. rewrite H. reflexivity. Qed.

(** The raw text cannot be printed: the run ends at the second [print]. *)
Lemma main_text_unencodable (w : world) (r : response) :
  net the_request = inr r -> has_surrogate (text r) = true ->
  main net w = (inl UnicodeEncodeError, after w [PInt (status_code r)]).
Proof.
  intros Hnet Ht. unfold main, bind. rewrite requests_get_the_request, Hnet.
  rewrite print_returns by reflexivity.
  rewrite print_raises by exact Ht. reflexivity.
Qed.

(** The body does not decode: the run ends at the first [r.json()]. *)
Lemma main_decode_failure (w : world) (r : response) (e : failure) :
  net the_request = inr r -> has_surrogate (text r) = false ->
  decode (text r) = Err e ->
  main net w
  = (inl (raised e), after w [PInt (status_code r); PStr (text r)]).
Proof.
  intros Hnet Ht Hbody. unfold main, bind. rewrite requests_get_the_request, Hnet.
  rewrite print_returns by reflexivity.
  rewrite print_returns by exact Ht.
  rewrite (response_json_raises _ _ _ Hbody).
  unfold after. cbn [stdout fs files sent locked capacity buffer_size].
  rewrite <- app_assoc. reflexivity.
Qed.

(** The decoded value cannot be printed: the run ends at the third
    [print]. *)
Lemma main_value_unencodable (w : world) (r : response) (v : json finite) :
  net the_request = inr r -> has_surrogate (text r) = false ->
  decode (text r) = Ok v -> unencodable (PJson v) = true ->
  main net w
  = (inl UnicodeEncodeError, after w [PInt (status_code r); PStr (text r)]).
Proof.
  intros Hnet Ht Hbody Hv. unfold main, bind. rewrite requests_get_the_request, Hnet.
  rewrite print_returns by reflexivity.
  rewrite print_returns by exact Ht.
  rewrite (response_json_returns _ _ _ Hbody).
  rewrite print_raises by exact Hv.
  unfold after. cbn [stdout fs files sent locked capacity buffer_size].
  rewrite <- app_assoc. reflexivity.
Qed.

(** [temp.json] cannot be opened: the run ends at [open], after the three
    prints. *)
Lemma main_locked (w : world) (r : response) (v : json finite) :
  net the_request = inr r -> has_surrogate (text r) = false ->
  decode (text r) = Ok v -> unencodable (PJson v) = false ->
  locked w "temp.json" = true ->
  main net w
  = (inl OSError, after w [PInt (status_code r); PStr (text r); PJson v]).
Proof.
  intros Hnet Ht Hbody Hv Hl. unfold main, bind. rewrite requests_get_the_request, Hnet.
  rewrite print_returns by reflexivity.
  rewrite print_returns by exact Ht.
  rewrite (response_json_returns _ _ _ Hbody).
  rewrite print_returns by exact Hv.
  unfold open. cbn [stdout fs files sent locked capacity buffer_size].
  rewrite Hl. unfold after. rewrite <- !app_assoc. reflexivity.
Qed.

(** One [write] to the file object that [open] has just made. *)
Lemma write_opened (w : world) (xs : list printed) (s : str) :
  write (length (files w)) s (written w xs [] [])
  = (write_result w s, written w xs (on_disk w s) (in_buffer w s)).
Proof.
  assert (Hins : forall fo fo' : file_object,
             <[length (files w) := fo']> (files w ++ [fo]) = files w ++ [fo']).
  { intros fo fo'.
    replace (length (files w)) with (length (files w) + 0)%nat at 1 by lia.
    rewrite insert_app_r. reflexivity. }
  unfold write, written, write_result, on_disk, in_buffer.
  cbn [files fs stdout sent locked capacity buffer_size].
  rewrite list_lookup_middle by reflexivity. cbn [closed name buffer app].
  destruct (length s <? buffer_size w)%nat.
  { rewrite Hins. reflexivity. }
  unfold flush. cbn [buffer name closed].
  destruct s as [|c s].
  - assert (Hk : accepted (capacity w) 0 (length (@nil Z)) = 0%nat).
    { pose proof (accepted_le (capacity w) 0 (length (@nil Z))) as H.
      cbn [length] in *. lia. }
    rewrite Hk, Hins. reflexivity.
  - rewrite lookup_insert_eq. cbn [default length app].
    rewrite insert_insert_eq, Hins. reflexivity.
Qed.

(** The run reaches the last statement. *)
Lemma main_write (w : world) (r : response) (v : json finite) :
  net the_request = inr r -> has_surrogate (text r) = false ->
  decode (text r) = Ok v -> unencodable (PJson v) = false ->
  locked w "temp.json" = false ->
  main net w
  = (write_result w (dumps v 4),
     written w [PInt (status_code r); PStr (text r); PJson v]
       (on_disk w (dumps v 4)) (in_buffer w (dumps v 4))).
Proof.
  intros Hnet Ht Hbody Hv Hl. unfold main, bind. rewrite requests_get_the_request, Hnet.
  rewrite print_returns by reflexivity.
  rewrite print_returns by exact Ht.
  rewrite (response_json_returns _ _ _ Hbody).
  rewrite print_returns by exact Hv.
  unfold open. cbn [stdout fs files sent locked capacity buffer_size].
  rewrite Hl. rewrite (response_json_returns _ _ _ Hbody).
  rewrite <- (write_opened w [PInt (status_code r); PStr (text r); PJson v] (dumps v 4)).
  unfold written. rewrite <- !app_assoc. reflexivity.
Qed.

(** Every run ends in one of the six ways. *)
Lemma main_view (w : world) : run_view net w (main net w).
Proof.
  destruct (net the_request) as [k | r] eqn:Hnet.
  { rewrite (main_transport_error w k Hnet). constructor. exact Hnet. }
  destruct (has_surrogate (text r)) eqn:Ht.
  { rewrite (main_text_unencodable w r Hnet Ht). constructor; assumption. }
  pose proof (decode_total (text r)) as Htot.
  destruct (decode (text r)) as [v | e |] eqn:Hbody; [| |congruence].
  - destruct (unencodable (PJson v)) eqn:Hv.
    { rewrite (main_value_unencodable w r v Hnet Ht Hbody Hv).
      econstructor; eassumption. }
    destruct (locked w "temp.json") eqn:Hl.
    { rewrite (main_locked w r v Hnet Ht Hbody Hv Hl). constructor; assumption. }
    rewrite (main_write w r v Hnet Ht Hbody Hv Hl). constructor; assumption.
  - rewrite (main_decode_failure w r e Hnet Ht Hbody). constructor; assumption.
Qed.

(** The end of a process that has opened no file leaves the disk as it
    is. *)
Lemma finalize_after (w : world) (xs : list printed) :
  files w = [] ->
  fs (finalize (after w xs)) = fs w /\ files (finalize (after w xs)) = [].
Proof.
  intros Hf. unfold finalize, after. cbn [fs files capacity]. rewrite Hf.
  split; reflexivity.
Qed.

(** The end of a process that has opened [temp.json]: what is in the
    buffer goes behind the content, as far as the file may grow. *)
Lemma finalize_written (w : world) (xs : list printed) (c b : str) :
  files w = [] ->
  fs (finalize (written w xs c b))
  = <["temp.json" := c ++ take (accepted (capacity w) (length c) (length b)) b]> (fs w).
Proof.
  intros Hf. unfold finalize, written. cbn [fs files capacity]. rewrite Hf.
  cbn [app fold_left closed]. unfold flush. cbn [buffer name].
  destruct b as [|x b].
  - cbn [fst]. rewrite take_nil, app_nil_r. reflexivity.
  - cbn [fst]. rewrite lookup_insert_eq. cbn [default].
    rewrite insert_insert_eq. reflexivity.
Qed.

(** After one [write] and the end of the process the file holds what the
    raw write takes of the text. *)
Lemma final_content (w : world) (s : str) :
  on_disk w s
  ++ take (accepted (capacity w) (length (on_disk w s)) (length (in_buffer w s)))
       (in_buffer w s)
  = take (accepted (capacity w) 0 (length s)) s.
Proof.
  unfold on_disk, in_buffer.
  destruct (length s <? buffer_size w)%nat; [reflexivity|].
  destruct (capacity w) as [n|]; cbn [accepted].
  - rewrite length_take, length_drop.
    destruct (Nat.le_gt_cases (length s) (n - 0)) as [Hle | Hgt].
    + rewrite (Nat.min_l _ _ Hle), drop_all. rewrite take_nil, app_nil_r. reflexivity.
    + replace (Nat.min (length s) (n - 0)) with (n - 0)%nat by lia.
      replace (Nat.min (length s - (n - 0)) (n - Nat.min (n - 0) (length s))) with 0%nat
        by lia.
      rewrite take_0, app_nil_r. reflexivity.
  - rewrite length_drop.
    replace (length s - length s)%nat with 0%nat by lia.
    rewrite take_0, app_nil_r. reflexivity.
Qed.

Lemma finalize_closes (w : world) :
  Forall (fun fo => closed fo = true /\ buffer fo = []) (files (finalize w)).
Proof.
  unfold finalize. cbn [files]. apply Forall_map, Forall_true.
  intros fo. split; reflexivity.
Qed.

End Runs.

Lemma list_ascii_append (a b : string) :
  String.list_ascii_of_string (a +:+ b)
  = String.list_ascii_of_string a ++ String.list_ascii_of_string b.
Proof. induction a as [|c a IH]; simpl; [reflexivity | f_equal; exact IH]. Qed.

(** ** The codec and the script on concrete inputs *)

(** The keys of a decoded object keep the order of their first occurrence,
    a repeated key takes the last value, and the encoder writes them in that
    order, four spaces per level. *)
Example loads_repeated_key :
  loads (FM:=whole)
    [123; 34; 98; 34; 58; 49; 44; 34; 97; 34; 58; 91; 116; 114; 117; 101; 44;
     110; 117; 108; 108; 93; 44; 34; 98; 34; 58; 50; 46; 48; 125]
  = Some (JDict [([98], JFloat (FFinite 2)); ([97], JList [JBool true; JNull])]).
Proof. reflexivity. Qed.

Example dumps_key_order_and_indent :
  dumps (FM:=whole)
    (JDict [([98], JFloat (FFinite 2)); ([97], JList [JBool true; JNull])]) 4
  = [123; 10; 32; 32; 32; 32; 34; 98; 34; 58; 32; 50; 46; 48; 44; 10;
     32; 32; 32; 32; 34; 97; 34; 58; 32; 91; 10;
     32; 32; 32; 32; 32; 32; 32; 32; 116; 114; 117; 101; 44; 10;
     32; 32; 32; 32; 32; 32; 32; 32; 110; 117; 108; 108; 10;
     32; 32; 32; 32; 93; 10; 125].
Proof. reflexivity. Qed.

Example decode_rejects :
  decode (FM:=whole) (txt "not json") = Err Syntax
  /\ decode (FM:=whole) [] = Err Syntax
  /\ decode (FM:=whole) (txt "[1, 2,]") = Err Syntax
  /\ decode (FM:=whole) (txt "[1, 2] x") = Err Syntax
  /\ decode (FM:=whole) (txt "01") = Err Syntax.
Proof. repeat split. Qed.

Example loads_accepts :
  loads (FM:=whole) (txt " [1 , -0, NaN] ")
  = Some (JList [JInt 1; JInt 0; JFloat FNaN]).
Proof. reflexivity. Qed.

(** The two limits: an integer literal of 4301 digits is refused where a
    shorter one and a float literal of any length are read, and a
    container is refused where the depth is used up, an empty one
    included. *)
Example decode_digit_limit :
  decode (FM:=whole) (repeat 49 4301) = Err Digits
  /\ decode (FM:=whole) (45 :: repeat 49 4301) = Err Digits
  /\ decode (FM:=whole) (repeat 49 641) = Ok (JInt (digits_value (repeat 49 641)))
  /\ decode (FM:=whole) (repeat 49 4301 ++ [46; 48])
     = Ok (JFloat (FFinite (digits_value (repeat 49 4301)))).
Proof. repeat split; vm_compute; reflexivity. Qed.

Example decode_depth_limit :
  decode (FM:=whole) (LM:={| int_max_str_digits := 4300; max_nesting := 1 |})
    (txt "[[1]]") = Err Depth
  /\ decode (FM:=whole) (LM:={| int_max_str_digits := 4300; max_nesting := 2 |})
       (txt "[[1]]") = Ok (JList [JList [JInt 1]])
  /\ decode (FM:=whole) (LM:={| int_max_str_digits := 4300; max_nesting := 0 |})
       (txt "{}") = Err Depth
  /\ decode (FM:=whole) (repeat 91 994 ++ repeat 93 994) = Err Depth.
Proof. repeat split. Qed.

(** An escaped surrogate pair is one character, written back as the pair. *)
Example surrogate_pair_escape :
  loads (FM:=whole)
    [34; 92; 117; 100; 56; 51; 100; 92; 117; 100; 101; 48; 48; 34]
  = Some (JStr [0x1F600])
  /\ dumps (FM:=whole) (JStr [0x1F600]) 4
     = [34; 92; 117; 100; 56; 51; 100; 92; 117; 100; 101; 48; 48; 34].
Proof. split; reflexivity. Qed.

(** Why the body is taken to be a text of scalar values: two surrogates
    written as characters decode to two characters, and are read back as
    one. Such a text is not the result of decoding bytes. *)
Example raw_surrogates_do_not_round_trip :
  loads (FM:=whole) [34; 0xD83D; 0xDE00; 34] = Some (JStr [0xD83D; 0xDE00])
  /\ loads (FM:=whole) (dumps (FM:=whole) (JStr [0xD83D; 0xDE00]) 4)
     = Some (JStr [0x1F600]).
Proof. split; reflexivity. Qed.

(** A lone surrogate cannot be printed when it is the whole value, and can
    inside a container, where [repr] shows it as an escape. *)
Example lone_surrogate_unencodable :
  unencodable (FM:=whole) (PJson (JStr [0xD800])) = true
  /\ unencodable (FM:=whole) (PJson (JList [JStr [0xD800]])) = false
  /\ unencodable (FM:=whole) (PJson (JDict [([0xD800], JInt 1)])) = false.
Proof. repeat split. Qed.

(** The constant [NaN] makes the round trip as data, and is not equal to
    its copy under Python's [==]. *)
Example nan_round_trip :
  loads (FM:=whole) body_nan = Some (JFloat FNaN)
  /\ dumps (FM:=whole) (JFloat FNaN) 4 = body_nan
  /\ equal_to_copy (F:=Z) (JFloat FNaN) = false
  /\ equal_to_copy value_ok = true.
Proof. repeat split. Qed.

(** The runs of the specification's examples. On the first the text is
    still in the buffer of the file object when the last statement has
    returned, and in the file when the process has ended. *)
Example ok_run :
  fst (main (FM:=whole) net_ok (new_process disk_old)) = inr tt
  /\ stdout (snd (main (FM:=whole) net_ok (new_process disk_old)))
     = [PInt 200; PStr body_ok; PJson value_ok]
  /\ fs (snd (main (FM:=whole) net_ok (new_process disk_old)))
     = {["temp.json" := []]}
  /\ files (snd (main (FM:=whole) net_ok (new_process disk_old)))
     = [{| name := "temp.json"; closed := false;
           buffer := dumps (FM:=whole) value_ok 4 |}]
  /\ fs (finalize (snd (main (FM:=whole) net_ok (new_process disk_old))))
     = {["temp.json" := dumps (FM:=whole) value_ok 4]}.
Proof. repeat split. Qed.

Example bad_body_run :
  fst (main (FM:=whole) net_bad (new_process disk_old)) = inl JSONDecodeError
  /\ stdout (snd (main (FM:=whole) net_bad (new_process disk_old)))
     = [PInt 200; PStr body_bad]
  /\ fs (finalize (snd (main (FM:=whole) net_bad (new_process disk_old))))
     = disk_old.
Proof. repeat split. Qed.

Example down_run :
  fst (main (FM:=whole) net_down (new_process disk_old))
  = inl (RequestException ConnectionRefused)
  /\ stdout (snd (main (FM:=whole) net_down (new_process disk_old))) = []
  /\ fs (finalize (snd (main (FM:=whole) net_down (new_process disk_old))))
     = disk_old.
Proof. repeat split. Qed.

(** The body [body_lone] decodes, and the run ends at the third [print]. *)
Example lone_run :
  fst (main (FM:=whole) net_lone (new_process disk_old)) = inl UnicodeEncodeError
  /\ stdout (snd (main (FM:=whole) net_lone (new_process disk_old)))
     = [PInt 200; PStr body_lone]
  /\ fs (finalize (snd (main (FM:=whole) net_lone (new_process disk_old))))
     = disk_old.
Proof. repeat split. Qed.

(** Where [temp.json] cannot be opened the run ends at [open], and the
    file is as it was. *)
Example locked_run :
  fst (main (FM:=whole) net_ok (world_locked disk_old)) = inl OSError
  /\ stdout (snd (main (FM:=whole) net_ok (world_locked disk_old)))
     = [PInt 200; PStr body_ok; PJson value_ok]
  /\ fs (finalize (snd (main (FM:=whole) net_ok (world_locked disk_old))))
     = disk_old.
Proof. repeat split. Qed.

(** Where the file may hold ten characters and the file object writes
    through, the run ends at [write] and leaves the first ten characters
    of the text in the file. *)
Example full_run :
  fst (main (FM:=whole) net_ok (world_full disk_old)) = inl OSError
  /\ fs (finalize (snd (main (FM:=whole) net_ok (world_full disk_old))))
     = {["temp.json" := take 10 (dumps (FM:=whole) value_ok 4)]}.
Proof. split; reflexivity. Qed.

(** ** Runs that nothing hinders, and the disk at the end of a process *)

Section Ends.

Context {FM : FloatModel} {LM : Limits}.
Variable net : request -> transport_failure + response.

Lemma main_unhindered (w : world) (r : response) (v : json finite) :
  net the_request = inr r -> loads (text r) = Some v -> unhindered w r v ->
  main net w
  = (inr tt,
     written w [PInt (status_code r); PStr (text r); PJson v]
       (on_disk w (dumps v 4)) (in_buffer w (dumps v 4))).
Proof.
  intros Hnet Hbody (Ht & Hv & Hl & Hroom). apply loads_decode in Hbody.
  rewrite (main_write net w r v Hnet Ht Hbody Hv Hl). f_equal.
  unfold write_result. rewrite Hroom, Nat.leb_refl.
  destruct (length (dumps v 4) <? buffer_size w)%nat; reflexivity.
Qed.

(** The disk at the end of a process whose run has reached [write]: the
    file holds what the raw write takes of the text, whatever it held
    before. *)
Lemma final_disk_write (w : world) (r : response) (v : json finite) :
  net the_request = inr r -> has_surrogate (text r) = false ->
  decode (text r) = Ok v -> unencodable (PJson v) = false ->
  locked w "temp.json" = false -> files w = [] ->
  fs (finalize (snd (main net w)))
  = <["temp.json" := take (accepted (capacity w) 0 (length (dumps v 4))) (dumps v 4)]>
      (fs w).
Proof.
  intros Hnet Ht Hbody Hv Hl Hf.
  rewrite (main_write net w r v Hnet Ht Hbody Hv Hl). cbn [snd].
  rewrite finalize_written by exact Hf. rewrite final_content. reflexivity.
Qed.

Lemma final_disk_unhindered (w : world) (r : response) (v : json finite) :
  net the_request = inr r -> loads (text r) = Some v -> unhindered w r v ->
  files w = [] ->
  fs (finalize (snd (main net w))) = <["temp.json" := dumps v 4]> (fs w).
Proof.
  intros Hnet Hbody (Ht & Hv & Hl & Hroom) Hf. apply loads_decode in Hbody.
  rewrite (final_disk_write w r v Hnet Ht Hbody Hv Hl Hf).
  rewrite Hroom, take_ge by lia. reflexivity.
Qed.

(** The disk at the end of any process: as it was, or with [temp.json]
    holding what the raw write has taken of the text. *)
Lemma final_disk (w : world) :
  files w = [] ->
  fs (finalize (snd (main net w))) = fs w
  \/ exists r v,
       net the_request = inr r /\ decode (text r) = Ok v
       /\ fs (finalize (snd (main net w)))
          = <["temp.json" := take (accepted (capacity w) 0 (length (dumps v 4)))
                                  (dumps v 4)]> (fs w).
Proof.
  intros Hf.
  destruct (main_view net w) as [k Hk | r Hr Ht | r e Hr Ht He | r v Hr Ht Hd Hv
                                | r v Hr Ht Hd Hv Hl | r v Hr Ht Hd Hv Hl];
    cbn [snd];
    try (left; apply finalize_after; exact Hf).
  right. exists r, v. split; [exact Hr|]. split; [exact Hd|].
  rewrite finalize_written by exact Hf. rewrite final_content. reflexivity.
Qed.

End Ends.

(** * The claims *)




(** C2, as stated, fails: on a successful run the file object made by
    [open] is not closed when the last statement has finished, and the
    text is still in its buffer, the file on disk being empty. *)
Lemma output_file_closed_counterexample :
  fst (main (FM:=whole) net_ok (new_process ∅)) = inr tt
  /\ ~ (forall fo : file_object,
          fo ∈ files (snd (main (FM:=whole) net_ok (new_process ∅))) ->
          closed fo = true)
  /\ fs (snd (main (FM:=whole) net_ok (new_process ∅))) !! "temp.json" = Some [].
Proof.
  split; [reflexivity|]. split; [|reflexivity].
  intros H.
  specialize (H {| name := "temp.json"; closed := false;
                   buffer := dumps (FM:=whole) value_ok 4 |}).
  assert (Hin : {| name := "temp.json"; closed := false;
                   buffer := dumps (FM:=whole) value_ok 4 |}
                ∈ files (snd (main (FM:=whole) net_ok (new_process ∅)))).
  { change (files (snd (main (FM:=whole) net_ok (new_process ∅))))
      with [{| name := "temp.json"; closed := false;
               buffer := dumps (FM:=whole) value_ok 4 |}].
    left. }
  specialize (H Hin). discriminate H.
Qed.

(** C2, amended: on a run that ends normally the script has opened
    [temp.json], which empties the file whatever it held, and has written
    the JSON text to the file object, and no statement has closed it: the
    file objects after the run are those before it and the one of
    [temp.json], still open, and the text is in the file or still in the
    buffer of that object. The release is the work of the end of the
    process, which closes every file object and flushes the buffer, the
    file taking of the text what it may grow by. *)
Theorem output_file_left_open {FM : FloatModel} {LM : Limits}
        (net : request -> transport_failure + response) (w : world)
        (r : response) (v : json finite) :
  net the_request = inr r ->
  loads (text r) = Some v ->
  fst (main net w) = inr tt ->
  exists (fo : file_object) (content : str),
    files (snd (main net w)) = files w ++ [fo]
    /\ name fo = "temp.json" /\ closed fo = false
    /\ fs (snd (main net w)) = <["temp.json" := content]> (fs w)
    /\ content ++ buffer fo = dumps v 4
    /\ Forall (fun fo' => closed fo' = true /\ buffer fo' = [])
         (files (finalize (snd (main net w))))
    /\ (files w = [] ->
        fs (finalize (snd (main net w)))
        = <["temp.json" := take (accepted (capacity w) 0 (length (dumps v 4)))
                                (dumps v 4)]> (fs w)).
Proof.
  intros Hnet Hbody Hend. apply loads_decode in Hbody.
  pose proof (finalize_closes (snd (main net w))) as Hclosed.
  destruct (main_view net w) as [k Hk | r' Hr Ht | r' e Hr Ht He | r' v' Hr Ht Hd Hv
                                | r' v' Hr Ht Hd Hv Hl | r' v' Hr Ht Hd Hv Hl];
    cbn [fst] in Hend; try discriminate Hend.
  assert (r' = r) by congruence. subst r'.
  assert (v' = v) by congruence. subst v'.
  exists {| name := "temp.json"; closed := false;
            buffer := in_buffer w (dumps v 4) |}, (on_disk w (dumps v 4)).
  cbn [snd written files fs name closed buffer].
  split; [reflexivity|]. split; [reflexivity|]. split; [reflexivity|].
  split; [reflexivity|]. split; [apply on_disk_in_buffer|].
  split; [exact Hclosed|].
  intros Hf. rewrite finalize_written by exact Hf. rewrite final_content. reflexivity.
Qed.

Lemma output_file_left_open_witness :
  net_ok the_request = inr {| status_code := 200; text := body_ok |}
  /\ loads (FM:=whole) body_ok = Some value_ok
  /\ fst (main (FM:=whole) net_ok (new_process disk_old)) = inr tt
  /\ exists (fo : file_object) (content : str),
       files (snd (main (FM:=whole) net_ok (new_process disk_old)))
       = files (new_process (FM:=whole) disk_old) ++ [fo]
       /\ name fo = "temp.json" /\ closed fo = false
       /\ fs (snd (main (FM:=whole) net_ok (new_process disk_old)))
          = <["temp.json" := content]> (fs (new_process (FM:=whole) disk_old))
       /\ content ++ buffer fo = dumps (FM:=whole) value_ok 4
       /\ Forall (fun fo' => closed fo' = true /\ buffer fo' = [])
            (files (finalize (snd (main (FM:=whole) net_ok (new_process disk_old)))))
       /\ (files (new_process (FM:=whole) disk_old) = [] ->
           fs (finalize (snd (main (FM:=whole) net_ok (new_process disk_old))))
           = <["temp.json" :=
                 take (accepted (capacity (new_process (FM:=whole) disk_old)) 0
                         (length (dumps (FM:=whole) value_ok 4)))
                      (dumps (FM:=whole) value_ok 4)]>
               (fs (new_process (FM:=whole) disk_old))).
Proof.
  split; [reflexivity|].
  split; [reflexivity|].
  split; [reflexivity|].
  apply (output_file_left_open (FM:=whole) net_ok (new_process disk_old)
           {| status_code := 200; text := body_ok |} value_ok).
  - reflexivity.
  - reflexivity.
  - reflexivity.
Defined.

(** C3, as stated, fails: the body [NaN] is not valid JSON, no JSON text
    beginning with that letter, and the decoder accepts it: the run prints
    three items, writes the file and ends normally. *)
Lemma decode_error_counterexample :
  hd_error body_nan = Some 78 /\ json_first 78 = false
  /\ fst (main (FM:=whole) net_nan (new_process ∅)) = inr tt
  /\ stdout (snd (main (FM:=whole) net_nan (new_process ∅)))
     = [PInt 200; PStr body_nan; PJson (JFloat FNaN)]
  /\ fs (finalize (snd (main (FM:=whole) net_nan (new_process ∅)))) !! "temp.json"
     = Some body_nan.
Proof. repeat split. Qed.

(** C3, amended: when the decoder rejects the body, the script prints the
    status code and the raw text, then stops with the error of the
    decoder, [JSONDecodeError] for a text outside the grammar: the decoded
    value is not printed, no file is opened and no file is written. The
    text is one that standard output can encode, as a text decoded from
    bytes is. *)
Theorem decode_error_aborts_after_two_prints {FM : FloatModel} {LM : Limits}
        (net : request -> transport_failure + response) (w : world)
        (r : response) :
  net the_request = inr r ->
  has_surrogate (text r) = false ->
  loads (text r) = None ->
  exists e : failure,
    decode (text r) = Err e
    /\ fst (main net w) = inl (raised e)
    /\ stdout (snd (main net w))
       = stdout w ++ [PInt (status_code r); PStr (text r)]
    /\ files (snd (main net w)) = files w
    /\ fs (snd (main net w)) = fs w
    /\ (files w = [] -> fs (finalize (snd (main net w))) = fs w).
Proof.
  intros Hnet Ht Hbody. apply loads_none in Hbody as [e He].
  exists e. split; [exact He|].
  rewrite (main_decode_failure net w r e Hnet Ht He). cbn [fst snd after stdout files fs].
  split; [reflexivity|]. split; [reflexivity|]. split; [reflexivity|].
  split; [reflexivity|].
  intros Hf. apply (finalize_after w _ Hf).
Qed.

Lemma decode_error_aborts_after_two_prints_witness :
  net_bad the_request = inr {| status_code := 200; text := body_bad |}
  /\ has_surrogate body_bad = false
  /\ loads (FM:=whole) body_bad = None
  /\ exists e : failure,
       decode (FM:=whole) body_bad = Err e
       /\ fst (main (FM:=whole) net_bad (new_process disk_old)) = inl (raised e)
       /\ stdout (snd (main (FM:=whole) net_bad (new_process disk_old)))
          = stdout (new_process (FM:=whole) disk_old) ++ [PInt 200; PStr body_bad]
       /\ files (snd (main (FM:=whole) net_bad (new_process disk_old)))
          = files (new_process (FM:=whole) disk_old)
       /\ fs (snd (main (FM:=whole) net_bad (new_process disk_old)))
          = fs (new_process (FM:=whole) disk_old)
       /\ (files (new_process (FM:=whole) disk_old) = [] ->
           fs (finalize (snd (main (FM:=whole) net_bad (new_process disk_old))))
           = fs (new_process (FM:=whole) disk_old)).
Proof.
  split; [reflexivity|].
  split; [reflexivity|].
  split; [reflexivity|].
  apply (decode_error_aborts_after_two_prints (FM:=whole) net_bad (new_process disk_old)
           {| status_code := 200; text := body_bad |}).
  - reflexivity.
  - reflexivity.
  - reflexivity.
Defined.

(** C4: when [requests.get] raises a connection-level failure, the script
    stops there: nothing is printed, no file is opened, and the file
    system, a [temp.json] of an earlier run included, is as it was. *)
Theorem transport_error_aborts_before_output {FM : FloatModel} {LM : Limits}
        (net : request -> transport_failure + response) (w : world)
        (k : transport_failure) :
  net the_request = inl k ->
  fst (main net w) = inl (RequestException k)
  /\ stdout (snd (main net w)) = stdout w
  /\ files (snd (main net w)) = files w
  /\ fs (snd (main net w)) = fs w
  /\ fs (snd (main net w)) !! "temp.json" = fs w !! "temp.json".
Proof.
  intros Hnet. rewrite (main_transport_error net w k Hnet).
  cbn [fst snd after stdout files fs]. rewrite app_nil_r.
  repeat split.
Qed.

Lemma transport_error_aborts_before_output_witness :
  net_down the_request = inl ConnectionRefused
  /\ fst (main (FM:=whole) net_down (new_process disk_old))
     = inl (RequestException ConnectionRefused)
  /\ stdout (snd (main (FM:=whole) net_down (new_process disk_old)))
     = stdout (new_process (FM:=whole) disk_old)
  /\ files (snd (main (FM:=whole) net_down (new_process disk_old)))
     = files (new_process (FM:=whole) disk_old)
  /\ fs (snd (main (FM:=whole) net_down (new_process disk_old)))
     = fs (new_process (FM:=whole) disk_old)
  /\ fs (snd (main (FM:=whole) net_down (new_process disk_old))) !! "temp.json"
     = fs (new_process (FM:=whole) disk_old) !! "temp.json".
Proof.
  split; [reflexivity|].
  apply (transport_error_aborts_before_output (FM:=whole) net_down
           (new_process disk_old) ConnectionRefused).
  reflexivity.
Defined.




(** C6: whatever the transport and the world, the script issues exactly one
    request: a GET to the URL made of the fixed prefix, the provider, a
    slash, the organization name and the fixed suffix, each of the two
    values character for character, with the two headers [Accept] and
    [api-token] and no other. *)
Theorem request_is_determined {FM : FloatModel} {LM : Limits}
        (net : request -> transport_failure + response) (w : world) :
  sent (snd (main net w)) = sent w ++ [the_request]
  /\ req_method the_request = "GET"
  /\ req_url the_request
     = "https://app.codacy.com/api/v3/analysis/organizations/gh/aiden-perkins/repositories"
  /\ (forall p o : string,
         String.list_ascii_of_string (url_of p o)
         = String.list_ascii_of_string
             "https://app.codacy.com/api/v3/analysis/organizations/"
           ++ String.list_ascii_of_string p
           ++ String.list_ascii_of_string "/"
           ++ String.list_ascii_of_string o
           ++ String.list_ascii_of_string "/repositories")
  /\ (forall k : string,
         req_headers the_request !! k
         = if decide (k = "Accept") then Some "application/json"
           else if decide (k = "api-token") then Some String.EmptyString
           else None).
Proof.
  split; [|split; [reflexivity | split; [reflexivity | split]]].
  - destruct (main_view net w); reflexivity.
  - intros p o. unfold url_of. rewrite !list_ascii_append. reflexivity.
  - intros k. cbn [req_headers the_request]. unfold headers.
    rewrite lookup_insert. destruct (decide ("api-token" = k)) as [<- | Hk].
    + reflexivity.
    + rewrite lookup_insert. destruct (decide ("Accept" = k)) as [<- | Ha].
      * reflexivity.
      * rewrite lookup_empty.
        destruct (decide (k = "Accept")); [congruence|].
        destruct (decide (k = "api-token")); [congruence | reflexivity].
Qed.




(** C8: a second run on the same response, started by the next process on
    the disk the first has left, leaves [temp.json] and every other file
    as the first did, and ends as the first did. When nothing hinders the
    run, the file holds after either run exactly the encoding of the
    decoded body, a function of that value alone, whatever the file held
    before: each run empties the file and writes it anew, and nothing is
    added to what an earlier run has written. *)
Theorem rerun_writes_same_file {FM : FloatModel} {LM : Limits}
        (net : request -> transport_failure + response) (w : world)
        (r : response) (v : json finite) :
  net the_request = inr r ->
  loads (text r) = Some v ->
  files w = [] ->
  fs (finalize (snd (main net (next_process (finalize (snd (main net w)))))))
  = fs (finalize (snd (main net w)))
  /\ fst (main net (next_process (finalize (snd (main net w))))) = fst (main net w)
  /\ (unhindered w r v ->
      fs (finalize (snd (main net w))) !! "temp.json" = Some (dumps v 4)
      /\ fs (finalize (snd (main net (next_process (finalize (snd (main net w)))))))
           !! "temp.json" = Some (dumps v 4)).
Proof.
  intros Hnet Hbody Hf.
  assert (Hsame :
            fs (finalize (snd (main net (next_process (finalize (snd (main net w)))))))
            = fs (finalize (snd (main net w)))
            /\ fst (main net (next_process (finalize (snd (main net w)))))
               = fst (main net w)).
  { apply loads_decode in Hbody.
    set (w1 := next_process (finalize (snd (main net w)))).
    assert (Hf1 : files w1 = []) by reflexivity.
    assert (Hl1 : locked w1 = locked w)
      by (unfold w1; destruct (main_view net w); reflexivity).
    assert (Hc1 : capacity w1 = capacity w)
      by (unfold w1; destruct (main_view net w); reflexivity).
    assert (Hb1 : buffer_size w1 = buffer_size w)
      by (unfold w1; destruct (main_view net w); reflexivity).
    assert (Hfs1 : fs w1 = fs (finalize (snd (main net w)))) by reflexivity.
    destruct (has_surrogate (text r)) eqn:Ht.
    { rewrite (main_text_unencodable net w1 r Hnet Ht).
      rewrite (main_text_unencodable net w r Hnet Ht) in *. cbn [fst snd].
      split; [|reflexivity].
      rewrite (proj1 (finalize_after w1 _ Hf1)). exact Hfs1. }
    destruct (unencodable (PJson v)) eqn:Hv.
    { rewrite (main_value_unencodable net w1 r v Hnet Ht Hbody Hv).
      rewrite (main_value_unencodable net w r v Hnet Ht Hbody Hv) in *. cbn [fst snd].
      split; [|reflexivity].
      rewrite (proj1 (finalize_after w1 _ Hf1)). exact Hfs1. }
    destruct (locked w "temp.json") eqn:Hl.
    { assert (Hl' : locked w1 "temp.json" = true) by (rewrite Hl1; exact Hl).
      rewrite (main_locked net w1 r v Hnet Ht Hbody Hv Hl').
      rewrite (main_locked net w r v Hnet Ht Hbody Hv Hl) in *. cbn [fst snd].
      split; [|reflexivity].
      rewrite (proj1 (finalize_after w1 _ Hf1)). exact Hfs1. }
    assert (Hl' : locked w1 "temp.json" = false) by (rewrite Hl1; exact Hl).
    split.
    - rewrite (final_disk_write net w1 r v Hnet Ht Hbody Hv Hl' Hf1).
      rewrite Hc1, Hfs1.
      rewrite (final_disk_write net w r v Hnet Ht Hbody Hv Hl Hf).
      apply insert_insert_eq.
    - rewrite (main_write net w1 r v Hnet Ht Hbody Hv Hl').
      rewrite (main_write net w r v Hnet Ht Hbody Hv Hl). cbn [fst].
      unfold write_result. rewrite Hb1, Hc1. reflexivity. }
  destruct Hsame as [Hdisk Hres].
  split; [exact Hdisk|]. split; [exact Hres|].
  intros Hun. rewrite Hdisk.
  rewrite (final_disk_unhindered net w r v Hnet Hbody Hun Hf).
  split; apply lookup_insert_eq.
Qed.

Lemma rerun_writes_same_file_witness :
  net_ok the_request = inr {| status_code := 200; text := body_ok |}
  /\ loads (FM:=whole) body_ok = Some value_ok
  /\ files (new_process (FM:=whole) disk_old) = []
  /\ unhindered (new_process disk_old) {| status_code := 200; text := body_ok |} value_ok
  /\ fs (finalize (snd (main (FM:=whole) net_ok
          (next_process (finalize (snd (main (FM:=whole) net_ok (new_process disk_old))))))))
     = fs (finalize (snd (main (FM:=whole) net_ok (new_process disk_old))))
  /\ fst (main (FM:=whole) net_ok
            (next_process (finalize (snd (main (FM:=whole) net_ok (new_process disk_old))))))
     = fst (main (FM:=whole) net_ok (new_process disk_old))
  /\ fs (finalize (snd (main (FM:=whole) net_ok (new_process disk_old)))) !! "temp.json"
     = Some (dumps (FM:=whole) value_ok 4)
  /\ fs (finalize (snd (main (FM:=whole) net_ok
          (next_process (finalize (snd (main (FM:=whole) net_ok (new_process disk_old))))))))
       !! "temp.json"
     = Some (dumps (FM:=whole) value_ok 4).
Proof.
  split; [reflexivity|].
  split; [reflexivity|].
  split; [reflexivity|].
  split; [repeat split|].
  pose proof (rerun_writes_same_file (FM:=whole) net_ok (new_process disk_old)
                {| status_code := 200; text := body_ok |} value_ok) as H.
  destruct H as (H1 & H2 & H3).
  - reflexivity.
  - reflexivity.
  - reflexivity.
  - split; [exact H1|]. split; [exact H2|]. apply H3. repeat split.
Defined.

(** C9: when the body does not decode, [open] is never reached: no file
    object is made and the file system is as it was, so a [temp.json] of an
    earlier run keeps its content. *)
Theorem decode_error_leaves_file_untouched {FM : FloatModel} {LM : Limits}
        (net : request -> transport_failure + response) (w : world)
        (r : response) :
  net the_request = inr r ->
  loads (text r) = None ->
  files (snd (main net w)) = files w
  /\ fs (snd (main net w)) = fs w
  /\ fs (snd (main net w)) !! "temp.json" = fs w !! "temp.json".
Proof.
  intros Hnet Hbody. apply loads_none in Hbody as [e He].
  destruct (has_surrogate (text r)) eqn:Ht.
  - rewrite (main_text_unencodable net w r Hnet Ht). repeat split.
  - rewrite (main_decode_failure net w r e Hnet Ht He). repeat split.
Qed.

Lemma decode_error_leaves_file_untouched_witness :
  net_bad the_request = inr {| status_code := 200; text := body_bad |}
  /\ loads (FM:=whole) body_bad = None
  /\ files (snd (main (FM:=whole) net_bad (new_process disk_old)))
     = files (new_process (FM:=whole) disk_old)
  /\ fs (snd (main (FM:=whole) net_bad (new_process disk_old)))
     = fs (new_process (FM:=whole) disk_old)
  /\ fs (snd (main (FM:=whole) net_bad (new_process disk_old))) !! "temp.json"
     = fs (new_process (FM:=whole) disk_old) !! "temp.json".
Proof.
  split; [reflexivity|].
  split; [reflexivity|].
  apply (decode_error_leaves_file_untouched (FM:=whole) net_bad (new_process disk_old)
           {| status_code := 200; text := body_bad |}).
  - reflexivity.
  - reflexivity.
Defined.




(** * Further properties of the script *)



(** X2: what a run can do to the disk. At the end of the process the disk
    is as it was before the run, or it differs in [temp.json] alone, which
    holds a prefix of the encoding of the decoded body, whatever it held
    before: all of the encoding when the file may grow to its size, and
    less, the empty file included, when it may not. *)
Theorem output_file_prefix {FM : FloatModel} {LM : Limits}
        (net : request -> transport_failure + response) (w : world) :
  files w = [] ->
  fs (finalize (snd (main net w))) = fs w
  \/ exists (r : response) (v : json finite) (content : str),
       net the_request = inr r
       /\ loads (text r) = Some v
       /\ fs (finalize (snd (main net w))) = <["temp.json" := content]> (fs w)
       /\ content `prefix_of` dumps v 4
       /\ (accepted (capacity w) 0 (length (dumps v 4)) = length (dumps v 4) ->
           content = dumps v 4).
Proof.
  intros Hf. destruct (final_disk net w Hf) as [H | (r & v & Hr & Hd & H)];
    [left; exact H | right].
  exists r, v, (take (accepted (capacity w) 0 (length (dumps v 4))) (dumps v 4)).
  split; [exact Hr|]. split; [apply loads_decode; exact Hd|]. split; [exact H|].
  split; [apply prefix_take|].
  intros ->. apply take_ge. lia.
Qed.

Lemma output_file_prefix_witness :
  files (world_full disk_old) = []
  /\ (fs (finalize (snd (main (FM:=whole) net_ok (world_full disk_old))))
      = fs (world_full disk_old)
      \/ exists (r : response) (v : json finite) (content : str),
           net_ok the_request = inr r
           /\ loads (FM:=whole) (text r) = Some v
           /\ fs (finalize (snd (main (FM:=whole) net_ok (world_full disk_old))))
              = <["temp.json" := content]> (fs (world_full disk_old))
           /\ content `prefix_of` dumps (FM:=whole) v 4
           /\ (accepted (capacity (world_full disk_old)) 0
                 (length (dumps (FM:=whole) v 4))
               = length (dumps (FM:=whole) v 4) ->
               content = dumps (FM:=whole) v 4)).
Proof.
  split; [reflexivity|].
  apply (output_file_prefix (FM:=whole) net_ok (world_full disk_old)).
  reflexivity.
Defined.

(** ** The written file is plain ASCII *)

Lemma digit_plain (c : Z) : is_digit c = true -> is_plain c = true.
Proof.
  unfold is_digit, is_plain. intros H.
  apply andb_true_iff in H as [H1 H2]. apply Z.leb_le in H1, H2.
  apply orb_true_iff. right. apply andb_true_iff. split; apply Z.leb_le; lia.
Qed.

Lemma range_plain (c : Z) : 32 <= c <= 126 -> is_plain c = true.
Proof.
  intros H. unfold is_plain. apply orb_true_iff. right.
  apply andb_true_iff. split; apply Z.leb_le; lia.
Qed.

Lemma hex_digit_plain (d : Z) : 0 <= d < 16 -> is_plain (hex_digit d) = true.
Proof.
  intros H. apply range_plain. unfold hex_digit.
  destruct (Z.ltb_spec d 10); lia.
Qed.

Lemma hex4_plain (n : Z) : Forall (fun c => is_plain c = true) (hex4 n).
Proof.
  unfold hex4. repeat constructor; apply hex_digit_plain; apply Z.mod_pos_bound; lia.
Qed.

Lemma escape_char_plain (c : Z) : Forall (fun c => is_plain c = true) (escape_char c).
Proof.
  unfold escape_char, needs_escape.
  destruct (Z.eqb_spec c 92) as [-> | H92]; [repeat constructor|].
  destruct (Z.eqb_spec c 34) as [-> | H34]; [repeat constructor|].
  cbn [orb].
  assert (Hrep : Forall (fun c => is_plain c = true) (replace c)).
  { unfold replace.
    repeat match goal with
           | |- Forall _ (if ?a =? ?b then _ else _) =>
               destruct (a =? b); [repeat constructor|]
           end.
    destruct (c <? 65536).
    - constructor; [reflexivity|]. constructor; [reflexivity | apply hex4_plain].
    - apply Forall_app.
      split; (constructor; [reflexivity|]; constructor; [reflexivity | apply hex4_plain]). }
  destruct (Z.leb_spec 32 c), (Z.leb_spec c 126); cbn [andb negb]; try exact Hrep.
  constructor; [apply range_plain; lia | constructor].
Qed.

Lemma encode_basestring_ascii_plain (s : str) :
  Forall (fun c => is_plain c = true) (encode_basestring_ascii s).
Proof.
  unfold encode_basestring_ascii. constructor; [reflexivity|].
  apply Forall_app. split; [|repeat constructor].
  induction s as [|c s IH]; [constructor|].
  cbn [flat_map]. apply Forall_app. split; [apply escape_char_plain | exact IH].
Qed.

Lemma Forall_digits_plain (ds : str) :
  Forall (fun c => is_digit c = true) ds -> Forall (fun c => is_plain c = true) ds.
Proof. intros H. eapply Forall_impl; [exact H | exact digit_plain]. Qed.

Lemma int_repr_plain (z : Z) : Forall (fun c => is_plain c = true) (int_repr z).
Proof.
  destruct (int_repr_cases z) as (c & ds & Hds & Hc & [(_ & E & _) | (_ & E & _)]);
    rewrite E.
  - constructor; [|apply Forall_digits_plain; exact Hds].
    apply range_plain. destruct Hc as [[-> _] | Hc]; lia.
  - constructor; [reflexivity|].
    constructor; [|apply Forall_digits_plain; exact Hds].
    apply range_plain. destruct Hc as [[-> _] | Hc]; lia.
Qed.

(** A matched number literal is made of digits, a sign, a dot and an
    exponent letter. *)
Lemma match_number_plain (s tok r : str) (fl : bool) :
  match_number s = Some (fl, tok, r) -> Forall (fun c => is_plain c = true) tok.
Proof.
  unfold match_number. intros H.
  destruct (scan_sign s) as [sg s1] eqn:Esg.
  destruct (scan_int_part s1) as [[ip r1]|] eqn:Eip; [|discriminate H].
  destruct (scan_frac r1) as [fr r2] eqn:Efr.
  destruct (scan_exp r2) as [ex r3] eqn:Eex.
  inversion H; subst. clear H.
  repeat (apply Forall_app; split).
  - destruct s as [|c s]; simpl in Esg; [inversion Esg; constructor|].
    destruct (c =? 45); inversion Esg; repeat constructor.
  - destruct s1 as [|c s1]; simpl in Eip; [discriminate Eip|].
    destruct (Z.leb_spec 49 c), (Z.leb_spec c 57); cbn [andb] in Eip.
    + destruct (span_digits s1) as [ds r'] eqn:E. inversion Eip; subst.
      constructor; [apply range_plain; lia|].
      apply Forall_digits_plain. eapply span_digits_digits. exact E.
    + destruct (c =? 48); inversion Eip. repeat constructor.
    + destruct (c =? 48); inversion Eip. repeat constructor.
    + destruct (c =? 48); inversion Eip. repeat constructor.
  - destruct r1 as [|d [|x r1]]; simpl in Efr; try (inversion Efr; constructor).
    destruct (Z.eqb_spec d 46) as [-> | _]; cbn [andb] in Efr;
      [|inversion Efr; constructor].
    destruct (is_digit x) eqn:Hx; [|inversion Efr; constructor].
    destruct (span_digits r1) as [fs r'] eqn:E. inversion Efr; subst.
    constructor; [reflexivity|]. constructor; [apply digit_plain; exact Hx|].
    apply Forall_digits_plain. eapply span_digits_digits. exact E.
  - destruct r2 as [|e r2]; simpl in Eex; [inversion Eex; constructor|].
    destruct (Z.eqb_spec e 101) as [-> | _];
      [|destruct (Z.eqb_spec e 69) as [-> | _]; [|inversion Eex; constructor]].
    + cbn [orb] in Eex.
      destruct r2 as [|g t].
      * simpl in Eex. inversion Eex. constructor.
      * destruct (Z.eqb_spec g 45) as [-> | _];
          [|destruct (Z.eqb_spec g 43) as [-> | _]]; cbn [orb] in Eex.
        -- destruct (span_digits t) as [es r'] eqn:E.
           apply span_digits_digits in E.
           destruct es; inversion Eex; subst; [constructor|].
           repeat constructor; apply Forall_digits_plain in E;
             inversion E; assumption.
        -- destruct (span_digits t) as [es r'] eqn:E.
           apply span_digits_digits in E.
           destruct es; inversion Eex; subst; [constructor|].
           repeat constructor; apply Forall_digits_plain in E;
             inversion E; assumption.
        -- destruct (span_digits (g :: t)) as [es r'] eqn:E.
           apply span_digits_digits in E.
           destruct es; inversion Eex; subst; [constructor|].
           repeat constructor; apply Forall_digits_plain in E;
             inversion E; assumption.
    + cbn [orb] in Eex.
      destruct r2 as [|g t].
      * simpl in Eex. inversion Eex. constructor.
      * destruct (Z.eqb_spec g 45) as [-> | _];
          [|destruct (Z.eqb_spec g 43) as [-> | _]]; cbn [orb] in Eex.
        -- destruct (span_digits t) as [es r'] eqn:E.
           apply span_digits_digits in E.
           destruct es; inversion Eex; subst; [constructor|].
           repeat constructor; apply Forall_digits_plain in E;
             inversion E; assumption.
        -- destruct (span_digits t) as [es r'] eqn:E.
           apply span_digits_digits in E.
           destruct es; inversion Eex; subst; [constructor|].
           repeat constructor; apply Forall_digits_plain in E;
             inversion E; assumption.
        -- destruct (span_digits (g :: t)) as [es r'] eqn:E.
           apply span_digits_digits in E.
           destruct es; inversion Eex; subst; [constructor|].
           repeat constructor; apply Forall_digits_plain in E;
             inversion E; assumption.
Qed.

Lemma newline_indent_plain (indent lvl : nat) :
  Forall (fun c => is_plain c = true) (newline_indent indent lvl).
Proof.
  unfold newline_indent. constructor; [reflexivity|].
  induction (indent * lvl)%nat as [|n IH]; [constructor|].
  constructor; [reflexivity | exact IH].
Qed.

Lemma join_plain (sep : str) (items : list str) :
  Forall (fun c => is_plain c = true) sep ->
  Forall (fun item => Forall (fun c => is_plain c = true) item) items ->
  Forall (fun c => is_plain c = true) (join sep items).
Proof.
  intros Hsep Hitems. destruct Hitems as [|x xs Hx Hxs]; [constructor|].
  cbn [join]. apply Forall_app. split; [exact Hx|].
  induction Hxs as [|y ys Hy _ IH]; [constructor|].
  cbn [flat_map]. rewrite <- app_assoc.
  apply Forall_app. split; [exact Hsep|].
  apply Forall_app. split; [exact Hy | exact IH].
Qed.

Lemma iterencode_plain {FM : FloatModel} {FL : FloatLaws FM}
      (v : json finite) (indent lvl : nat) :
  Forall (fun c => is_plain c = true) (iterencode indent v lvl).
Proof.
  revert lvl. induction v as [|b|z|f|s|l IH|d IH] using json_ind; intros lvl.
  - repeat constructor.
  - destruct b; repeat constructor.
  - apply int_repr_plain.
  - destruct f as [| | |x]; cbn [iterencode floatstr]; try (repeat constructor).
    apply (match_number_plain _ _ _ _ (float_repr_literal x)).
  - apply encode_basestring_ascii_plain.
  - destruct l as [|x xs]; [repeat constructor|].
    rewrite iterencode_list. constructor; [reflexivity|].
    apply Forall_app. split; [apply newline_indent_plain|].
    apply Forall_app. split.
    + apply join_plain.
      * constructor; [reflexivity | apply newline_indent_plain].
      * apply Forall_map. eapply Forall_impl; [exact IH|].
        intros y Hy. apply Hy.
    + apply Forall_app. split; [apply newline_indent_plain | repeat constructor].
  - destruct d as [|x xs]; [repeat constructor|].
    rewrite iterencode_dict. constructor; [reflexivity|].
    apply Forall_app. split; [apply newline_indent_plain|].
    apply Forall_app. split.
    + apply join_plain.
      * constructor; [reflexivity | apply newline_indent_plain].
      * apply Forall_map. eapply Forall_impl; [exact IH|].
        intros [k y] Hy. cbn [fst snd] in *.
        apply Forall_app. split; [apply encode_basestring_ascii_plain|].
        apply Forall_app. split; [repeat constructor | apply Hy].
    + apply Forall_app. split; [apply newline_indent_plain | repeat constructor].
Qed.

(** X5: whatever characters the body has, what a run writes is plain
    ASCII: at the end of the process [temp.json] is as it was before the
    run, or every character of it is a newline or a printable ASCII
    character, non-ASCII and control characters of strings being written
    as escapes. *)
Theorem written_file_is_ascii {FM : FloatModel} {FL : FloatLaws FM} {LM : Limits}
        (net : request -> transport_failure + response) (w : world) :
  files w = [] ->
  fs (finalize (snd (main net w))) !! "temp.json" = fs w !! "temp.json"
  \/ exists content : str,
       fs (finalize (snd (main net w))) !! "temp.json" = Some content
       /\ Forall (fun c => is_plain c = true) content.
Proof.
  intros Hf. destruct (final_disk net w Hf) as [H | (r & v & Hr & Hd & H)].
  - left. rewrite H. reflexivity.
  - right. eexists. rewrite H. split; [apply lookup_insert_eq|].
    apply Forall_take. apply iterencode_plain.
Qed.

Lemma written_file_is_ascii_witness :
  files (new_process (FM:=whole) disk_old) = []
  /\ (fs (finalize (snd (main (FM:=whole) net_ok (new_process disk_old)))) !! "temp.json"
      = fs (new_process (FM:=whole) disk_old) !! "temp.json"
      \/ exists content : str,
           fs (finalize (snd (main (FM:=whole) net_ok (new_process disk_old))))
             !! "temp.json" = Some content
           /\ Forall (fun c => is_plain c = true) content).
Proof.
  split; [reflexivity|].
  apply (written_file_is_ascii (FM:=whole) (FL:=whole_laws) net_ok
           (new_process disk_old)).
  reflexivity.
Defined.

(** ** The decoded value and the file *)

(** X6: the value [r.json()] returns on a body of scalar values is
    well-formed and within the limits of the interpreter: in every object,
    at any depth, the keys are distinct, a repeated key of the body being
    kept once; no string holds a high surrogate directly followed by a low
    one; every integer has a [repr] that [int] reads; and the containers
    are nested no deeper than the scanner may recurse. *)
Theorem decoded_value_is_well_formed {FM : FloatModel} {LM : Limits}
        (r : response) (v : json finite) (w : world) :
  valid_text (text r) ->
  response_json r w = (inr v, w) ->
  wf v /\ within max_nesting v.
Proof.
  intros Hvalid Hjson.
  assert (Hbody : loads (text r) = Some v).
  { apply loads_decode. unfold response_json in Hjson.
    destruct (decode (text r)) as [v' | e |]; inversion Hjson. reflexivity. }
  split; [eapply loads_wf; eassumption | eapply loads_within; eassumption].
Qed.

Lemma decoded_value_is_well_formed_witness :
  valid_text (text {| status_code := 200; text := body_ok |})
  /\ response_json (FM:=whole) {| status_code := 200; text := body_ok |}
       (new_process ∅)
     = (inr value_ok, new_process ∅)
  /\ wf value_ok /\ within max_nesting value_ok.
Proof.
  split; [repeat constructor|].
  split; [reflexivity|].
  apply (decoded_value_is_well_formed (FM:=whole)
           {| status_code := 200; text := body_ok |} value_ok (new_process ∅)).
  - repeat constructor.
  - reflexivity.
Defined.

(** X7: the file identifies the decoded value: two runs that nothing
    hinders, on bodies of scalar values, that leave the same content in
    [temp.json] have decoded the same value. *)
Theorem same_file_same_value {FM : FloatModel} {FL : FloatLaws FM} {LM : Limits}
        (net net' : request -> transport_failure + response) (w w' : world)
        (r r' : response) (v v' : json finite) :
  net the_request = inr r -> valid_text (text r) -> loads (text r) = Some v ->
  unhindered w r v -> files w = [] ->
  net' the_request = inr r' -> valid_text (text r') -> loads (text r') = Some v' ->
  unhindered w' r' v' -> files w' = [] ->
  fs (finalize (snd (main net w))) !! "temp.json"
  = fs (finalize (snd (main net' w'))) !! "temp.json" ->
  v = v'.
Proof.
  intros Hnet Hvalid Hbody Hun Hf Hnet' Hvalid' Hbody' Hun' Hf' Hsame.
  rewrite (final_disk_unhindered net w r v Hnet Hbody Hun Hf) in Hsame.
  rewrite (final_disk_unhindered net' w' r' v' Hnet' Hbody' Hun' Hf') in Hsame.
  rewrite !lookup_insert_eq in Hsame.
  inversion Hsame as [Hd].
  pose proof (loads_dumps v 4 (loads_wf _ _ Hvalid Hbody) (loads_within _ _ Hbody)) as H1.
  pose proof (loads_dumps v' 4 (loads_wf _ _ Hvalid' Hbody') (loads_within _ _ Hbody'))
    as H2.
  rewrite Hd in H1. congruence.
Qed.

Lemma same_file_same_value_witness :
  net_ok the_request = inr {| status_code := 200; text := body_ok |}
  /\ valid_text body_ok
  /\ loads (FM:=whole) body_ok = Some value_ok
  /\ unhindered (new_process ∅) {| status_code := 200; text := body_ok |} value_ok
  /\ files (new_process (FM:=whole) ∅) = []
  /\ net_padded the_request = inr {| status_code := 200; text := body_padded |}
  /\ valid_text body_padded
  /\ loads (FM:=whole) body_padded = Some value_ok
  /\ unhindered (new_process disk_old) {| status_code := 200; text := body_padded |}
       value_ok
  /\ files (new_process (FM:=whole) disk_old) = []
  /\ fs (finalize (snd (main (FM:=whole) net_ok (new_process ∅)))) !! "temp.json"
     = fs (finalize (snd (main (FM:=whole) net_padded (new_process disk_old))))
         !! "temp.json"
  /\ value_ok = value_ok.
Proof.
  split; [reflexivity|].
  split; [repeat constructor|].
  split; [reflexivity|].
  split; [repeat split|].
  split; [reflexivity|].
  split; [reflexivity|].
  split; [repeat constructor|].
  split; [reflexivity|].
  split; [repeat split|].
  split; [reflexivity|].
  split; [reflexivity|].
  apply (same_file_same_value (FM:=whole) (FL:=whole_laws) net_ok net_padded
           (new_process ∅) (new_process disk_old)
           {| status_code := 200; text := body_ok |}
           {| status_code := 200; text := body_padded |} value_ok value_ok).
  - reflexivity.
  - repeat constructor.
  - reflexivity.
  - repeat split.
  - reflexivity.
  - reflexivity.
  - repeat constructor.
  - reflexivity.
  - repeat split.
  - reflexivity.
  - reflexivity.
Defined.

(** X8: the written form is a fixed point of the script: when the body of a
    response is the content that a run nothing hinders has left in
    [temp.json], that body decodes to the same value, and a run on that
    response which nothing hinders ends normally and writes the body back
    as it is. *)
Theorem written_form_is_fixed_point {FM : FloatModel} {FL : FloatLaws FM}
        {LM : Limits}
        (net net2 : request -> transport_failure + response) (w w2 : world)
        (r r2 : response) (v : json finite) :
  net the_request = inr r -> valid_text (text r) -> loads (text r) = Some v ->
  unhindered w r v -> files w = [] ->
  net2 the_request = inr r2 ->
  Some (text r2) = fs (finalize (snd (main net w))) !! "temp.json" ->
  locked w2 "temp.json" = false -> capacity w2 = capacity w -> files w2 = [] ->
  loads (text r2) = Some v
  /\ fst (main net2 w2) = inr tt
  /\ fs (finalize (snd (main net2 w2))) !! "temp.json" = Some (text r2).
Proof.
  intros Hnet Hvalid Hbody Hun Hf Hnet2 Htext Hl2 Hc2 Hf2.
  rewrite (final_disk_unhindered net w r v Hnet Hbody Hun Hf) in Htext.
  rewrite lookup_insert_eq in Htext.
  inversion Htext as [Ht].
  assert (Hbody2 : loads (text r2) = Some v).
  { rewrite Ht. apply loads_dumps;
      [eapply loads_wf; eassumption | eapply loads_within; eassumption]. }
  assert (Hun2 : unhindered w2 r2 v).
  { destruct Hun as (_ & Hv & _ & Hroom). repeat split.
    - rewrite Ht. apply plain_encodable. apply iterencode_plain.
    - exact Hv.
    - exact Hl2.
    - rewrite Hc2. exact Hroom. }
  split; [exact Hbody2|]. split.
  - rewrite (main_unhindered net2 w2 r2 v Hnet2 Hbody2 Hun2). reflexivity.
  - rewrite (final_disk_unhindered net2 w2 r2 v Hnet2 Hbody2 Hun2 Hf2).
    rewrite lookup_insert_eq, Ht. reflexivity.
Qed.

Lemma written_form_is_fixed_point_witness :
  net_ok the_request = inr {| status_code := 200; text := body_ok |}
  /\ valid_text body_ok
  /\ loads (FM:=whole) body_ok = Some value_ok
  /\ unhindered (new_process ∅) {| status_code := 200; text := body_ok |} value_ok
  /\ files (new_process (FM:=whole) ∅) = []
  /\ net_again the_request = inr response_again
  /\ Some (text response_again)
     = fs (finalize (snd (main (FM:=whole) net_ok (new_process ∅)))) !! "temp.json"
  /\ locked (new_process (FM:=whole) disk_old) "temp.json" = false
  /\ capacity (new_process (FM:=whole) disk_old) = capacity (new_process (FM:=whole) ∅)
  /\ files (new_process (FM:=whole) disk_old) = []
  /\ loads (FM:=whole) (text response_again) = Some value_ok
  /\ fst (main (FM:=whole) net_again (new_process disk_old)) = inr tt
  /\ fs (finalize (snd (main (FM:=whole) net_again (new_process disk_old))))
       !! "temp.json"
     = Some (text response_again).
Proof.
  split; [reflexivity|].
  split; [repeat constructor|].
  split; [reflexivity|].
  split; [repeat split|].
  split; [reflexivity|].
  split; [reflexivity|].
  split; [reflexivity|].
  split; [reflexivity|].
  split; [reflexivity|].
  split; [reflexivity|].
  apply (written_form_is_fixed_point (FM:=whole) (FL:=whole_laws) net_ok net_again
           (new_process ∅) (new_process disk_old)
           {| status_code := 200; text := body_ok |} response_again value_ok).
  - reflexivity.
  - repeat constructor.
  - reflexivity.
  - repeat split.
  - reflexivity.
  - reflexivity.
  - reflexivity.
  - reflexivity.
  - reflexivity.
  - reflexivity.
Defined.

(** ** Whitespace around the body *)

Lemma prepend_mono (u : Z) (x y : res (str * str)) :
  x = y -> prepend u x = prepend u y.
Proof. intros ->. reflexivity. Qed.

(** A larger budget does not change a result of [scanstring]. *)
Lemma scanstring_mono (f f' : nat) (s : str) :
  (f <= f')%nat -> scanstring f s <> OutOfFuel -> scanstring f' s = scanstring f s.
Proof.
  revert f' s. induction f as [|f IH]; intros f' s Hle H; [simpl in H; congruence|].
  destruct f' as [|f']; [lia|]. assert (Hle' : (f <= f')%nat) by lia.
  cbn [scanstring] in *. destruct s as [|c s1]; [reflexivity|].
  destruct (c =? 34); [reflexivity|].
  destruct (c =? 92).
  - destruct s1 as [|e s2]; [reflexivity|].
    destruct (e =? 117).
    + destruct (scan_unicode_escape s2) as [[u s3]|]; [|reflexivity].
      apply prepend_mono, IH; [exact Hle'|].
      intros E. rewrite E in H. apply H. reflexivity.
    + destruct (simple_escape e); [|reflexivity].
      apply prepend_mono, IH; [exact Hle'|].
      intros E. rewrite E in H. apply H. reflexivity.
  - destruct (c <=? 31); [reflexivity|].
    apply prepend_mono, IH; [exact Hle'|].
    intros E. rewrite E in H. apply H. reflexivity.
Qed.

Section DecoderMono.

Context {FM : FloatModel} {LM : Limits}.

(** A larger budget does not change a result of the three scanners. *)
Lemma decode_mono (n : nat) :
  (forall k s m, (n <= m)%nat -> scan_once n k s <> OutOfFuel ->
                 scan_once m k s = scan_once n k s)
  /\ (forall k d s m, (n <= m)%nat -> parse_object n k d s <> OutOfFuel ->
                      parse_object m k d s = parse_object n k d s)
  /\ (forall k l s m, (n <= m)%nat -> parse_array n k l s <> OutOfFuel ->
                      parse_array m k l s = parse_array n k l s).
Proof.
  induction n as [|n (IH1 & IH2 & IH3)].
  { repeat split; intros; simpl in *; congruence. }
  split; [|split].
  - intros k s m Hle H. destruct m as [|m]; [lia|].
    assert (Hle' : (n <= m)%nat) by lia.
    rewrite scan_once_S in H. rewrite !scan_once_S.
    destruct s as [|c r0]; [reflexivity|].
    destruct (c =? 34); [reflexivity|].
    destruct (c =? 123).
    { destruct k as [|k]; [reflexivity|].
      destruct (skip_ws r0) as [|c1 r1]; [reflexivity|].
      destruct (c1 =? 125); [reflexivity|]. apply IH2; assumption. }
    destruct (c =? 91).
    { destruct k as [|k]; [reflexivity|].
      destruct (skip_ws r0) as [|c1 r1]; [reflexivity|].
      destruct (c1 =? 93); [reflexivity|]. apply IH3; assumption. }
    reflexivity.
  - intros k d s m Hle H. destruct m as [|m]; [lia|].
    assert (Hle' : (n <= m)%nat) by lia.
    rewrite parse_object_S in H. rewrite !parse_object_S.
    destruct s as [|c r0]; [reflexivity|].
    destruct (c =? 34); [|reflexivity].
    destruct (scanstring (S (length r0)) r0) as [[key r1]| |]; try reflexivity.
    destruct (skip_ws r1) as [|c1 r2]; [reflexivity|].
    destruct (c1 =? 58); [|reflexivity].
    assert (E : scan_once m k (skip_ws r2) = scan_once n k (skip_ws r2)).
    { apply IH1; [exact Hle'|]. intros E. rewrite E in H. apply H. reflexivity. }
    rewrite E. destruct (scan_once n k (skip_ws r2)) as [[val r3]| |]; try reflexivity.
    destruct (skip_ws r3) as [|c2 r4]; [reflexivity|].
    destruct (c2 =? 125); [reflexivity|].
    destruct (c2 =? 44); [|reflexivity].
    apply IH2; assumption.
  - intros k l s m Hle H. destruct m as [|m]; [lia|].
    assert (Hle' : (n <= m)%nat) by lia.
    rewrite parse_array_S in H. rewrite !parse_array_S.
    assert (E : scan_once m k s = scan_once n k s).
    { apply IH1; [exact Hle'|]. intros E. rewrite E in H. apply H. reflexivity. }
    rewrite E. destruct (scan_once n k s) as [[val r1]| |]; try reflexivity.
    destruct (skip_ws r1) as [|c r2]; [reflexivity|].
    destruct (c =? 93); [reflexivity|].
    destruct (c =? 44); [|reflexivity].
    apply IH3; assumption.
Qed.

Lemma skip_ws_all_ws (pre s : str) : all_ws pre -> skip_ws (pre ++ s) = skip_ws s.
Proof.
  induction 1 as [|c pre Hc _ IH]; [reflexivity|].
  cbn [app skip_ws]. rewrite Hc. exact IH.
Qed.

(** [json.loads] ignores whitespace before the value: the result is the
    same, a failure included. *)
Lemma decode_leading_ws (pre s : str) : all_ws pre -> decode (pre ++ s) = decode s.
Proof.
  intros Hpre. unfold decode. rewrite (skip_ws_all_ws pre s Hpre).
  destruct (decode_mono (fuel_for s)) as (Hmono & _ & _).
  rewrite (Hmono max_nesting (skip_ws s) (fuel_for (pre ++ s))).
  - reflexivity.
  - unfold fuel_for. rewrite length_app. lia.
  - apply loads_fuel.
Qed.

Lemma loads_leading_ws (pre s : str) : all_ws pre -> loads (pre ++ s) = loads s.
Proof. intros Hpre. unfold loads. rewrite decode_leading_ws by exact Hpre. reflexivity. Qed.

End DecoderMono.

Lemma is_ws_cases (c : Z) : is_ws c = true -> c = 32 \/ c = 9 \/ c = 10 \/ c = 13.
Proof.
  unfold is_ws. intros H.
  destruct (Z.eqb_spec c 32), (Z.eqb_spec c 9), (Z.eqb_spec c 10), (Z.eqb_spec c 13);
    auto; discriminate H.
Qed.

Lemma all_ws_number_stop (post : str) : all_ws post -> number_stop post.
Proof.
  intros H. destruct H as [|c post Hc _]; [exact I|].
  apply is_ws_cases in Hc. unfold number_stop, is_digit.
  destruct Hc as [-> | [-> | [-> | ->]]]; repeat split; discriminate.
Qed.

Lemma span_digits_stop_ext (s rest ds r : str) :
  span_digits s = (ds, r) -> number_stop rest ->
  span_digits (s ++ rest) = (ds, r ++ rest).
Proof.
  revert ds r. induction s as [|c s IH]; intros ds r H Hd.
  - simpl in H. inversion H; subst. simpl.
    destruct rest as [|c rest]; [reflexivity|].
    destruct Hd as (Hc & _). simpl. rewrite Hc. reflexivity.
  - simpl in H. simpl. destruct (is_digit c).
    + destruct (span_digits s) as [ds' r'] eqn:E.
      inversion H; subst.
      rewrite (IH ds' r eq_refl Hd). reflexivity.
    + inversion H; subst. reflexivity.
Qed.

Lemma scan_int_part_stop_ext (s rest ip r : str) :
  scan_int_part s = Some (ip, r) -> number_stop rest ->
  scan_int_part (s ++ rest) = Some (ip, r ++ rest).
Proof.
  intros H Hd. destruct s as [|c s]; [discriminate H|].
  simpl in *. destruct ((49 <=? c) && (c <=? 57)).
  - destruct (span_digits s) as [ds r'] eqn:E.
    inversion H; subst.
    rewrite (span_digits_stop_ext _ _ _ _ E Hd). reflexivity.
  - destruct (c =? 48); [|discriminate H].
    inversion H; subst. reflexivity.
Qed.

Lemma scan_frac_stop_ext (s rest fr r : str) :
  scan_frac s = (fr, r) -> number_stop rest ->
  scan_frac (s ++ rest) = (fr, r ++ rest).
Proof.
  intros H Hd. destruct s as [|d [|x s]].
  - simpl in H. inversion H; subst. simpl.
    destruct rest as [|d [|x rest]]; try reflexivity.
    destruct Hd as (_ & Hd & _). simpl.
    destruct (Z.eqb_spec d 46); [contradiction | reflexivity].
  - simpl in H. inversion H; subst. simpl.
    destruct rest as [|x rest]; [reflexivity|].
    destruct Hd as (Hx & _). rewrite Hx, andb_false_r. reflexivity.
  - simpl in *. destruct ((d =? 46) && is_digit x).
    + destruct (span_digits s) as [fs r'] eqn:E.
      inversion H; subst.
      rewrite (span_digits_stop_ext _ _ _ _ E Hd). reflexivity.
    + inversion H; subst. reflexivity.
Qed.

Lemma scan_exp_stop_ext (s rest ex r : str) :
  scan_exp s = (ex, r) -> number_stop rest ->
  scan_exp (s ++ rest) = (ex, r ++ rest).
Proof.
  intros H Hd. destruct s as [|e s].
  - simpl in H. inversion H; subst. simpl.
    destruct rest as [|e rest]; [reflexivity|].
    destruct Hd as (_ & _ & H1 & H2 & _). simpl.
    destruct (Z.eqb_spec e 101); [contradiction|].
    destruct (Z.eqb_spec e 69); [contradiction | reflexivity].
  - simpl in *. destruct ((e =? 101) || (e =? 69)).
    + destruct s as [|g t].
      * simpl in H. inversion H; subst.
        destruct rest as [|g rest]; [reflexivity|].
        destruct Hd as (Hg & _ & _ & _ & H1 & H2). simpl.
        destruct (Z.eqb_spec g 45); [contradiction|].
        destruct (Z.eqb_spec g 43); [contradiction|].
        simpl. rewrite Hg. reflexivity.
      * cbn [app]. destruct ((g =? 45) || (g =? 43)).
        -- destruct (span_digits t) as [es r'] eqn:E.
           rewrite (span_digits_stop_ext _ _ _ _ E Hd).
           destruct es; inversion H; subst; reflexivity.
        -- destruct (span_digits (g :: t)) as [es r'] eqn:E.
           change (g :: t ++ rest) with ((g :: t) ++ rest).
           rewrite (span_digits_stop_ext _ _ _ _ E Hd).
           destruct es; inversion H; subst; reflexivity.
    + inversion H; subst. reflexivity.
Qed.

(** A literal is matched the same before any text the scanner does not
    read into. *)
Lemma match_number_stop_ext (s rest tok r : str) (fl : bool) :
  match_number s = Some (fl, tok, r) -> number_stop rest ->
  match_number (s ++ rest) = Some (fl, tok, r ++ rest).
Proof.
  unfold match_number. intros H Hd.
  destruct (scan_sign s) as [sg s1] eqn:Esg.
  destruct (scan_int_part s1) as [[ip r1]|] eqn:Eip; [|discriminate H].
  destruct (scan_frac r1) as [fr r2] eqn:Efr.
  destruct (scan_exp r2) as [ex r3] eqn:Eex.
  assert (Hne : s <> []).
  { intros ->. simpl in Esg. inversion Esg; subst. discriminate Eip. }
  rewrite (scan_sign_ext _ rest _ _ Hne Esg).
  rewrite (scan_int_part_stop_ext _ _ _ _ Eip Hd).
  rewrite (scan_frac_stop_ext _ _ _ _ Efr Hd).
  rewrite (scan_exp_stop_ext _ _ _ _ Eex Hd).
  inversion H; subst. reflexivity.
Qed.

Lemma strip_prefix_ext (p s r post : str) :
  strip_prefix p s = Some r -> strip_prefix p (s ++ post) = Some (r ++ post).
Proof.
  intros H. apply strip_prefix_split in H. subst s. rewrite <- app_assoc.
  induction p as [|a p IH]; [reflexivity|].
  cbn [app strip_prefix]. rewrite Z.eqb_refl. exact IH.
Qed.

Lemma strip_prefix_none_ext (p s post : str) :
  Forall (fun c => is_ws c = false) p -> all_ws post ->
  strip_prefix p s = None -> strip_prefix p (s ++ post) = None.
Proof.
  intros Hp Hpost. revert s. induction Hp as [|a p Ha _ IH]; intros s H.
  - discriminate H.
  - destruct s as [|b s].
    + cbn [app]. destruct Hpost as [|w post Hw _]; [reflexivity|].
      cbn [strip_prefix]. destruct (Z.eqb_spec a w) as [-> | _]; [congruence | reflexivity].
    + cbn [app strip_prefix] in *. destruct (a =? b); [apply IH; exact H | reflexivity].
Qed.

Lemma decode_hex4_ext (s r post : str) (u : Z) :
  decode_hex4 s = Some (u, r) -> decode_hex4 (s ++ post) = Some (u, r ++ post).
Proof.
  unfold decode_hex4. intros H.
  destruct s as [|a [|b [|c [|d s]]]]; try discriminate.
  cbn [app].
  destruct (hexval a), (hexval b), (hexval c), (hexval d); try discriminate.
  inversion H; subst. reflexivity.
Qed.

Lemma scan_unicode_escape_ext (s r post : str) (u : Z) :
  scan_unicode_escape s = Some (u, r) -> all_ws post ->
  scan_unicode_escape (s ++ post) = Some (u, r ++ post).
Proof.
  unfold scan_unicode_escape. intros H Hpost.
  destruct (decode_hex4 s) as [[c r0]|] eqn:E; [|discriminate H].
  rewrite (decode_hex4_ext _ _ post _ E).
  destruct (is_high_surrogate c); [|inversion H; subst; reflexivity].
  assert (Hw : forall w, is_ws w = true -> w <> 92 /\ w <> 117).
  { intros w Hw. apply is_ws_cases in Hw. lia. }
  destruct r0 as [|a [|b r2]].
  - inversion H; subst. cbn [app].
    destruct Hpost as [|w1 post Hw1 Hpost]; [reflexivity|].
    destruct post as [|w2 post]; [reflexivity|].
    destruct (Z.eqb_spec w1 92) as [-> | _]; [|reflexivity].
    destruct (Hw 92 Hw1) as [? _]. congruence.
  - inversion H; subst. cbn [app].
    destruct Hpost as [|w1 post Hw1 Hpost]; [reflexivity|].
    destruct (Z.eqb_spec w1 117) as [-> | _]; [|rewrite andb_false_r; reflexivity].
    destruct (Hw 117 Hw1) as [_ ?]. congruence.
  - cbn [app]. destruct ((a =? 92) && (b =? 117)); [|inversion H; subst; reflexivity].
    destruct (decode_hex4 r2) as [[c2 r3]|] eqn:E2; [|discriminate H].
    rewrite (decode_hex4_ext _ _ post _ E2).
    destruct (is_low_surrogate c2); inversion H; subst; reflexivity.
Qed.

(** A string read with its closing quote is read the same before any
    whitespace. *)
Lemma scanstring_ext (f : nat) (s chars r post : str) :
  scanstring f s = Ok (chars, r) -> all_ws post ->
  scanstring f (s ++ post) = Ok (chars, r ++ post).
Proof.
  revert s chars r. induction f as [|f IH]; intros s chars r H Hpost; [discriminate H|].
  destruct (scanstring_step _ _ _ _ H)
    as [(t & -> & -> & ->)
       | [(c & t & chars' & -> & H1 & H2 & H3 & -> & H')
         | [(e & u & t & chars' & -> & He & Hu & -> & H')
           | (u & t & t' & chars' & -> & Hu & -> & H')]]].
  - reflexivity.
  - cbn [app]. rewrite scanstring_literal by assumption.
    rewrite (IH _ _ _ H' Hpost). reflexivity.
  - cbn [app]. rewrite (scanstring_simple _ _ _ _ Hu).
    rewrite (IH _ _ _ H' Hpost). reflexivity.
  - cbn [app].
    rewrite (scanstring_unicode _ _ _ _ (scan_unicode_escape_ext _ _ _ _ Hu Hpost)).
    rewrite (IH _ _ _ H' Hpost). reflexivity.
Qed.

Lemma skip_ws_ext (s r post : str) (c : Z) :
  skip_ws s = c :: r -> skip_ws (s ++ post) = c :: r ++ post.
Proof.
  induction s as [|a s IH]; intros H; [discriminate H|].
  cbn [app skip_ws] in *. destruct (is_ws a); [apply IH; exact H|].
  inversion H; subst. reflexivity.
Qed.

Lemma skip_ws_end (s post : str) :
  skip_ws s = [] -> all_ws post -> skip_ws (s ++ post) = [].
Proof.
  intros H Hpost. induction s as [|a s IH].
  - cbn [app]. induction Hpost as [|w post Hw _ IHp]; [reflexivity|].
    cbn [skip_ws]. rewrite Hw. exact IHp.
  - cbn [app skip_ws] in *. destruct (is_ws a); [apply IH; exact H | discriminate H].
Qed.

Lemma scanstring_ext_length (r0 chars r post : str) :
  scanstring (S (length r0)) r0 = Ok (chars, r) -> all_ws post ->
  scanstring (S (length (r0 ++ post))) (r0 ++ post) = Ok (chars, r ++ post).
Proof.
  intros H Hpost. pose proof (scanstring_ext _ _ _ _ _ H Hpost) as E.
  rewrite (scanstring_mono (S (length r0)) (S (length (r0 ++ post))) (r0 ++ post)).
  - exact E.
  - rewrite length_app. lia.
  - rewrite E. discriminate.
Qed.

Section DecoderExt.

Context {FM : FloatModel} {LM : Limits}.

Lemma scan_atom_ext (s r post : str) (v : json finite) :
  scan_atom s = Ok (v, r) -> all_ws post ->
  scan_atom (s ++ post) = Ok (v, r ++ post).
Proof.
  unfold scan_atom. intros H Hpost.
  repeat match type of H with
         | match strip_prefix ?p s with _ => _ end = _ =>
             let E := fresh "E" in
             destruct (strip_prefix p s) as [r'|] eqn:E;
             [rewrite (strip_prefix_ext _ _ _ post E); inversion H; subst; reflexivity
             |rewrite (strip_prefix_none_ext p s post ltac:(repeat constructor) Hpost E)]
         end.
  destruct (match_number s) as [[[fl tok] r']|] eqn:Enum; [|discriminate H].
  rewrite (match_number_stop_ext _ _ _ _ _ Enum (all_ws_number_stop _ Hpost)).
  apply and_rest_ok in H as [-> ->]. reflexivity.
Qed.

(** A value read by the three scanners is read the same before any
    whitespace. *)
Lemma decode_ext (fuel : nat) :
  (forall k s v r post, scan_once fuel k s = Ok (v, r) -> all_ws post ->
                        scan_once fuel k (s ++ post) = Ok (v, r ++ post))
  /\ (forall k d s v r post, parse_object fuel k d s = Ok (v, r) -> all_ws post ->
                             parse_object fuel k d (s ++ post) = Ok (v, r ++ post))
  /\ (forall k l s v r post, parse_array fuel k l s = Ok (v, r) -> all_ws post ->
                             parse_array fuel k l (s ++ post) = Ok (v, r ++ post)).
Proof.
  induction fuel as [|f (IH1 & IH2 & IH3)].
  { repeat split; intros; discriminate. }
  split; [|split].
  - intros k s v r post H Hpost.
    destruct s as [|c r0]; [discriminate H|].
    cbn [app]. rewrite scan_once_S in H. rewrite scan_once_S.
    destruct (c =? 34).
    { destruct (scanstring (S (length r0)) r0) as [[chars r']| |] eqn:E;
        try discriminate H.
      rewrite (scanstring_ext_length _ _ _ _ E Hpost).
      inversion H; subst. reflexivity. }
    destruct (c =? 123).
    { destruct k as [|k]; [discriminate H|].
      destruct (skip_ws r0) as [|c1 r1] eqn:E; [discriminate H|].
      rewrite (skip_ws_ext _ _ post _ E).
      destruct (c1 =? 125); [inversion H; subst; reflexivity|].
      apply (IH2 k [] (c1 :: r1)); assumption. }
    destruct (c =? 91).
    { destruct k as [|k]; [discriminate H|].
      destruct (skip_ws r0) as [|c1 r1] eqn:E; [discriminate H|].
      rewrite (skip_ws_ext _ _ post _ E).
      destruct (c1 =? 93); [inversion H; subst; reflexivity|].
      apply (IH3 k [] (c1 :: r1)); assumption. }
    apply (scan_atom_ext (c :: r0)); assumption.
  - intros k d s v r post H Hpost.
    destruct s as [|c r0]; [discriminate H|].
    cbn [app]. rewrite parse_object_S in H. rewrite parse_object_S.
    destruct (c =? 34); [|discriminate H].
    destruct (scanstring (S (length r0)) r0) as [[key r1]| |] eqn:Ek;
      try discriminate H.
    rewrite (scanstring_ext_length _ _ _ _ Ek Hpost).
    destruct (skip_ws r1) as [|c1 r2] eqn:E1; [discriminate H|].
    rewrite (skip_ws_ext _ _ post _ E1).
    destruct (c1 =? 58); [|discriminate H].
    destruct (scan_once f k (skip_ws r2)) as [[val r3]| |] eqn:Ev;
      try discriminate H.
    destruct (skip_ws r2) as [|c3 r2'] eqn:E2.
    { destruct f; discriminate Ev. }
    rewrite (skip_ws_ext _ _ post _ E2).
    pose proof (IH1 k (c3 :: r2') _ _ post Ev Hpost) as Ev'.
    cbn [app] in Ev'. rewrite Ev'.
    destruct (skip_ws r3) as [|c2 r4] eqn:E3; [discriminate H|].
    rewrite (skip_ws_ext _ _ post _ E3).
    destruct (c2 =? 125); [inversion H; subst; reflexivity|].
    destruct (c2 =? 44); [|discriminate H].
    destruct (skip_ws r4) as [|c4 r4'] eqn:E4.
    { destruct f; discriminate H. }
    rewrite (skip_ws_ext _ _ post _ E4).
    apply (IH2 k _ (c4 :: r4')); assumption.
  - intros k l s v r post H Hpost.
    rewrite parse_array_S in H. rewrite parse_array_S.
    destruct (scan_once f k s) as [[val r1]| |] eqn:Ev; try discriminate H.
    rewrite (IH1 _ _ _ _ post Ev Hpost).
    destruct (skip_ws r1) as [|c r2] eqn:E1; [discriminate H|].
    rewrite (skip_ws_ext _ _ post _ E1).
    destruct (c =? 93); [inversion H; subst; reflexivity|].
    destruct (c =? 44); [|discriminate H].
    destruct (skip_ws r2) as [|c4 r2'] eqn:E2.
    { destruct f; [discriminate H|]. rewrite parse_array_S in H.
      destruct f; discriminate H. }
    rewrite (skip_ws_ext _ _ post _ E2).
    apply (IH3 k _ (c4 :: r2')); assumption.
Qed.

(** [json.loads] ignores whitespace behind a value it decodes. *)
Lemma decode_trailing_ws (s post : str) (v : json finite) :
  all_ws post -> decode s = Ok v -> decode (s ++ post) = Ok v.
Proof.
  intros Hpost H. apply decode_scan in H as (r & E & Er). unfold decode.
  destruct (skip_ws s) as [|c t] eqn:Es.
  { unfold fuel_for in E.
    replace (2 * length s + 2)%nat with (S (2 * length s + 1)) in E by lia.
    discriminate E. }
  rewrite (skip_ws_ext _ _ post _ Es).
  destruct (decode_ext (fuel_for s)) as (Hext & _ & _).
  pose proof (Hext _ _ _ _ post E Hpost) as E'.
  destruct (decode_mono (fuel_for s)) as (Hmono & _ & _).
  cbn [app] in E'.
  rewrite (Hmono max_nesting (c :: t ++ post) (fuel_for (s ++ post))).
  - rewrite E'. rewrite (skip_ws_end _ _ Er Hpost). reflexivity.
  - unfold fuel_for. rewrite length_app. lia.
  - rewrite E'. discriminate.
Qed.

Lemma loads_trailing_ws (s post : str) (v : json finite) :
  all_ws post -> loads s = Some v -> loads (s ++ post) = Some v.
Proof.
  intros Hpost H. apply loads_decode. apply decode_trailing_ws; [exact Hpost|].
  apply loads_decode. exact H.
Qed.

End DecoderExt.

(** X9: whitespace around the body is ignored. Whitespace before the body
    changes nothing in what is decoded, a failure included; and when a body
    decodes, the same body between whitespace decodes to the same value, so
    the run ends the same way and leaves the same files. *)
Theorem body_whitespace_is_ignored {FM : FloatModel} {LM : Limits}
        (net net' : request -> transport_failure + response) (w : world)
        (r r' : response) (pre post : str) :
  net the_request = inr r ->
  net' the_request = inr r' ->
  all_ws pre -> all_ws post ->
  text r' = pre ++ text r ++ post ->
  loads (pre ++ text r) = loads (text r)
  /\ (forall v, loads (text r) = Some v ->
                loads (text r') = Some v
                /\ fst (main net' w) = fst (main net w)
                /\ fs (snd (main net' w)) = fs (snd (main net w))).
Proof.
  intros Hnet Hnet' Hpre Hpost Htext.
  split; [apply loads_leading_ws; exact Hpre|].
  intros v Hbody.
  assert (Hbody' : loads (text r') = Some v).
  { rewrite Htext, loads_leading_ws by exact Hpre.
    apply loads_trailing_ws; assumption. }
  split; [exact Hbody'|].
  assert (Hsur : has_surrogate (text r') = has_surrogate (text r)).
  { rewrite Htext, !has_surrogate_app.
    rewrite (all_ws_encodable pre Hpre), (all_ws_encodable post Hpost).
    rewrite orb_false_r. reflexivity. }
  apply loads_decode in Hbody, Hbody'.
  destruct (has_surrogate (text r)) eqn:Ht.
  { rewrite (main_text_unencodable net' w r' Hnet' Hsur).
    rewrite (main_text_unencodable net w r Hnet Ht). split; reflexivity. }
  destruct (unencodable (PJson v)) eqn:Hv.
  { rewrite (main_value_unencodable net' w r' v Hnet' Hsur Hbody' Hv).
    rewrite (main_value_unencodable net w r v Hnet Ht Hbody Hv). split; reflexivity. }
  destruct (locked w "temp.json") eqn:Hl.
  { rewrite (main_locked net' w r' v Hnet' Hsur Hbody' Hv Hl).
    rewrite (main_locked net w r v Hnet Ht Hbody Hv Hl). split; reflexivity. }
  rewrite (main_write net' w r' v Hnet' Hsur Hbody' Hv Hl).
  rewrite (main_write net w r v Hnet Ht Hbody Hv Hl). split; reflexivity.
Qed.

Lemma body_whitespace_is_ignored_witness :
  net_ok the_request = inr {| status_code := 200; text := body_ok |}
  /\ net_padded the_request = inr {| status_code := 200; text := body_padded |}
  /\ all_ws [32] /\ all_ws [13; 10]
  /\ body_padded = [32] ++ body_ok ++ [13; 10]
  /\ loads (FM:=whole) ([32] ++ body_ok) = loads (FM:=whole) body_ok
  /\ (forall v, loads (FM:=whole) body_ok = Some v ->
                loads (FM:=whole) body_padded = Some v
                /\ fst (main (FM:=whole) net_padded (new_process ∅))
                   = fst (main (FM:=whole) net_ok (new_process ∅))
                /\ fs (snd (main (FM:=whole) net_padded (new_process ∅)))
                   = fs (snd (main (FM:=whole) net_ok (new_process ∅)))).
Proof.
  split; [reflexivity|].
  split; [reflexivity|].
  split; [repeat constructor|].
  split; [repeat constructor|].
  split; [reflexivity|].
  apply (body_whitespace_is_ignored (FM:=whole) net_ok net_padded (new_process ∅)
           {| status_code := 200; text := body_ok |}
           {| status_code := 200; text := body_padded |} [32] [13; 10]).
  - reflexivity.
  - reflexivity.
  - repeat constructor.
  - repeat constructor.
  - reflexivity.
Defined.

(** X10: a body that is empty or holds only whitespace does not decode:
    the run prints the status code and the raw text, stops with the decode
    error and exit status 1, and leaves the file system as it was. *)
Theorem blank_body_aborts {FM : FloatModel} {LM : Limits}
        (net : request -> transport_failure + response) (w : world)
        (r : response) :
  net the_request = inr r ->
  all_ws (text r) ->
  loads (text r) = None
  /\ fst (main net w) = inl JSONDecodeError
  /\ exit_code (fst (main net w)) = 1
  /\ stdout (snd (main net w)) = stdout w ++ [PInt (status_code r); PStr (text r)]
  /\ fs (snd (main net w)) = fs w.
Proof.
  intros Hnet Hws.
  assert (Hbody : decode (text r) = Err Syntax).
  { unfold decode.
    pose proof (skip_ws_all_ws (text r) [] Hws) as E. rewrite app_nil_r in E.
    rewrite E. unfold fuel_for.
    replace (2 * length (text r) + 2)%nat with (S (2 * length (text r) + 1)) by lia.
    reflexivity. }
  split; [unfold loads; rewrite Hbody; reflexivity|].
  rewrite (main_decode_failure net w r Syntax Hnet (all_ws_encodable _ Hws) Hbody).
  repeat split.
Qed.

Lemma blank_body_aborts_witness :
  net_blank the_request = inr {| status_code := 204; text := [32; 10] |}
  /\ all_ws [32; 10]
  /\ loads (FM:=whole) [32; 10] = None
  /\ fst (main (FM:=whole) net_blank (new_process disk_old)) = inl JSONDecodeError
  /\ exit_code (fst (main (FM:=whole) net_blank (new_process disk_old))) = 1
  /\ stdout (snd (main (FM:=whole) net_blank (new_process disk_old)))
     = stdout (new_process (FM:=whole) disk_old) ++ [PInt 204; PStr [32; 10]]
  /\ fs (snd (main (FM:=whole) net_blank (new_process disk_old)))
     = fs (new_process (FM:=whole) disk_old).
Proof.
  split; [reflexivity|].
  split; [repeat constructor|].
  apply (blank_body_aborts (FM:=whole) net_blank (new_process disk_old)
           {| status_code := 204; text := [32; 10] |}).
  - reflexivity.
  - repeat constructor.
Defined.
